(** * Streaming JSON-to-XML tool-call transcoder

    A shallow embedding of [src/core/task/tool-call-helper.ts]
    (class [StreamingToolCallProcessor]) and the properties of its
    specification.

    Conventions of the embedding.
    - A JavaScript string is a sequence of UTF-16 code units: [jstr] is
      [list N], one element per code unit.  [js "..."] writes an ASCII
      literal.
    - The two stacks of [ToolCallProcessingState] are lists whose head is
      the top of the stack ([push] is cons, [pop] removes the head).
    - [ToolCallProcessingState] objects are mutated in place by the source;
      here every operation returns the new state.
    - An exception is a value of [Exn] on the left of a sum; a [try]/[catch]
      around [JSON.parse] is a match on an [option].
    - The tool registry ([getToolRegistry().isToolSupported]) is not part of
      the file; it is a section variable. *)

From Stdlib Require Import NArith String Ascii Lia.
From stdpp Require Import base list gmap.

Set Default Proof Using "Type".
Set Warnings "-register-all".
Open Scope N_scope.
Open Scope nat_scope.
Open Scope list_scope.

(** ** Strings of code units *)

Abbreviation jstr := (list N).

Definition js (s : string) : jstr :=
  List.map N_of_ascii (list_ascii_of_string s).

Definition jstr_eqb (a b : jstr) : bool := bool_decide (a = b).

(** Named code units used by the transcoder. *)
Definition c_tab : N := 9.
Definition c_nl : N := 10.
Definition c_quote : N := 34.       (* double quote *)
Definition c_comma : N := 44.       (* ',' *)
Definition c_minus : N := 45.       (* '-' *)
Definition c_dot : N := 46.         (* '.' *)
Definition c_slash : N := 47.       (* '/' *)
Definition c_colon : N := 58.       (* ':' *)
Definition c_lt : N := 60.          (* '<' *)
Definition c_gt : N := 62.          (* '>' *)
Definition c_lbracket : N := 91.    (* '[' *)
Definition c_backslash : N := 92.   (* '\' *)
Definition c_rbracket : N := 93.    (* ']' *)
Definition c_u : N := 117.          (* 'u' *)
Definition c_lbrace : N := 123.     (* '{' *)
Definition c_rbrace : N := 125.     (* '}' *)

(** [/\s/.test(ch)]: the ECMAScript WhiteSpace and LineTerminator code
    units. *)
Definition isSpace (c : N) : bool :=
  ((9 <=? c) && (c <=? 13) || (c =? 32) || (c =? 160) || (c =? 5760)
   || (8192 <=? c) && (c <=? 8202) || (c =? 8232) || (c =? 8233)
   || (c =? 8239) || (c =? 8287) || (c =? 12288) || (c =? 65279))%N.

(** [str.trim()] *)
Fixpoint trimStart (s : jstr) : jstr :=
  match s with
  | c :: r => if isSpace c then trimStart r else s
  | [] => []
  end.

Definition trim (s : jstr) : jstr := rev (trimStart (rev (trimStart s))).

Definition isDigit (c : N) : bool := ((48 <=? c) && (c <=? 57))%N.
Definition isLower (c : N) : bool := ((97 <=? c) && (c <=? 122))%N.
Definition isUpper (c : N) : bool := ((65 <=? c) && (c <=? 90))%N.

(** [/^[0-9a-fA-F]$/] on one code unit, and the digit's value. *)
Definition hexValue (c : N) : option N :=
  if isDigit c then Some (c - 48)%N
  else if ((97 <=? c) && (c <=? 102))%N then Some (c - 87)%N
  else if ((65 <=? c) && (c <=? 70))%N then Some (c - 55)%N
  else None.

Definition isHex (c : N) : bool :=
  match hexValue c with Some _ => true | None => false end.

(** ** [JSON.parse]

    The built-in is modelled by a lexer that reads one code unit at a time
    and a stack parser over the tokens.  [None] stands for the SyntaxError
    the built-in throws.  A number keeps its lexeme; an object keeps its
    members in source order. *)

Inductive JValue :=
| JNull
| JBool (b : bool)
| JNumber (lexeme : jstr)
| JString (s : jstr)
| JArray (elements : list JValue)
| JObject (members : list (jstr * JValue)).

Inductive Token :=
| TLBrace | TRBrace | TLBracket | TRBracket | TColon | TComma
| TString (s : jstr)
| TNumber (lexeme : jstr)
| TTrue | TFalse | TNull.

Definition simpleEscape (c : N) : option N :=
  if (c =? 34)%N then Some 34%N           (* escaped quote *)
  else if (c =? 92)%N then Some 92%N      (* escaped backslash *)
  else if (c =? 47)%N then Some 47%N      (* escaped slash *)
  else if (c =? 98)%N then Some 8%N       (* b *)
  else if (c =? 102)%N then Some 12%N     (* f *)
  else if (c =? 110)%N then Some 10%N     (* n *)
  else if (c =? 114)%N then Some 13%N     (* r *)
  else if (c =? 116)%N then Some 9%N      (* t *)
  else None.

(** The states of the automaton of JSON numbers: an optional minus sign,
    an integer part without leading zero, an optional fraction and an
    optional exponent. *)
Inductive NumState :=
| NMinus | NZero | NInt | NDot | NFrac | NExp | NExpSign | NExpDigits.

Definition numStep (ns : NumState) (c : N) : option NumState :=
  let isE := ((c =? 101) || (c =? 69))%N in
  match ns with
  | NMinus => if (c =? 48)%N then Some NZero
              else if isDigit c then Some NInt else None
  | NZero => if (c =? c_dot)%N then Some NDot
             else if isE then Some NExp else None
  | NInt => if isDigit c then Some NInt
            else if (c =? c_dot)%N then Some NDot
            else if isE then Some NExp else None
  | NDot => if isDigit c then Some NFrac else None
  | NFrac => if isDigit c then Some NFrac
             else if isE then Some NExp else None
  | NExp => if isDigit c then Some NExpDigits
            else if ((c =? 43) || (c =? 45))%N then Some NExpSign else None
  | NExpSign => if isDigit c then Some NExpDigits else None
  | NExpDigits => if isDigit c then Some NExpDigits else None
  end.

Definition numAccepting (ns : NumState) : bool :=
  match ns with
  | NZero | NInt | NFrac | NExpDigits => true
  | _ => false
  end.

Inductive LexMode :=
| LOut
| LStr (acc : jstr)
| LEsc (acc : jstr)
| LUni (acc : jstr) (seen : nat) (value : N)
| LNum (ns : NumState) (acc : jstr)
| LLit (expected : jstr) (tok : Token).

(** JSON whitespace: space, tab, line feed, carriage return. *)
Definition isJsonWs (c : N) : bool :=
  ((c =? 32) || (c =? 9) || (c =? 10) || (c =? 13))%N.

Definition emit (t : Token) (rest : option (list Token)) : option (list Token) :=
  option_map (cons t) rest.

(** A code unit read between tokens; [rec m] lexes the rest of the input
    in mode [m]. *)
Definition lexOut (rec : LexMode -> option (list Token)) (c : N)
  : option (list Token) :=
  if isJsonWs c then rec LOut
  else if (c =? c_lbrace)%N then emit TLBrace (rec LOut)
  else if (c =? c_rbrace)%N then emit TRBrace (rec LOut)
  else if (c =? c_lbracket)%N then emit TLBracket (rec LOut)
  else if (c =? c_rbracket)%N then emit TRBracket (rec LOut)
  else if (c =? c_colon)%N then emit TColon (rec LOut)
  else if (c =? c_comma)%N then emit TComma (rec LOut)
  else if (c =? c_quote)%N then rec (LStr [])
  else if (c =? c_minus)%N then rec (LNum NMinus [c])
  else if (c =? 48)%N then rec (LNum NZero [c])
  else if isDigit c then rec (LNum NInt [c])
  else if (c =? 116)%N then rec (LLit [114; 117; 101]%N TTrue)
  else if (c =? 102)%N then rec (LLit [97; 108; 115; 101]%N TFalse)
  else if (c =? 110)%N then rec (LLit [117; 108; 108]%N TNull)
  else None.

Fixpoint lexer (m : LexMode) (s : jstr) : option (list Token) :=
  match s with
  | [] =>
    match m with
    | LOut => Some []
    | LNum ns acc => if numAccepting ns then Some [TNumber acc] else None
    | _ => None
    end
  | c :: r =>
    match m with
    | LOut => lexOut (λ m', lexer m' r) c
    | LStr acc =>
      if (c =? c_quote)%N then emit (TString acc) (lexer LOut r)
      else if (c =? c_backslash)%N then lexer (LEsc acc) r
      else if (c <? 32)%N then None
      else lexer (LStr (acc ++ [c])) r
    | LEsc acc =>
      if (c =? c_u)%N then lexer (LUni acc 0 0%N) r
      else match simpleEscape c with
           | Some d => lexer (LStr (acc ++ [d])) r
           | None => None
           end
    | LUni acc seen value =>
      match hexValue c with
      | Some h =>
        let value' := (value * 16 + h)%N in
        if bool_decide (seen = 3) then lexer (LStr (acc ++ [value'])) r
        else lexer (LUni acc (S seen) value') r
      | None => None
      end
    | LNum ns acc =>
      match numStep ns c with
      | Some ns' => lexer (LNum ns' (acc ++ [c])) r
      | None =>
        if numAccepting ns
        then emit (TNumber acc) (lexOut (λ m', lexer m' r) c)
        else None
      end
    | LLit expected tok =>
      match expected with
      | e :: expected' =>
        if (c =? e)%N then
          match expected' with
          | [] => emit tok (lexer LOut r)
          | _ :: _ => lexer (LLit expected' tok) r
          end
        else None
      | [] => None
      end
    end
  end.

(** The stack parser.  A frame is an open array with the elements read so
    far, or an open object with its members and the key that waits for its
    value (both most recent first). *)
Inductive Frame :=
| FArray (elements : list JValue)
| FObject (members : list (jstr * JValue)) (key : option jstr).

Inductive Expect :=
| PValue            (* a value *)
| PValueOrEnd       (* just after an opening bracket *)
| PKeyOrEnd         (* just after an opening brace *)
| PKey              (* after a comma in an object *)
| PColon
| PCommaOrEnd
| PDone (v : JValue).

Definition complete (v : JValue) (stack : list Frame)
  : option (list Frame * Expect) :=
  match stack with
  | [] => Some ([], PDone v)
  | FArray l :: st => Some (FArray (v :: l) :: st, PCommaOrEnd)
  | FObject ms (Some k) :: st => Some (FObject ((k, v) :: ms) None :: st, PCommaOrEnd)
  | FObject _ None :: _ => None
  end.

Definition parseToken (stack : list Frame) (e : Expect) (t : Token)
  : option (list Frame * Expect) :=
  match e with
  | PValue | PValueOrEnd =>
    match t with
    | TString s => complete (JString s) stack
    | TNumber n => complete (JNumber n) stack
    | TTrue => complete (JBool true) stack
    | TFalse => complete (JBool false) stack
    | TNull => complete JNull stack
    | TLBrace => Some (FObject [] None :: stack, PKeyOrEnd)
    | TLBracket => Some (FArray [] :: stack, PValueOrEnd)
    | TRBracket =>
      match e, stack with
      | PValueOrEnd, FArray l :: st => complete (JArray (rev l)) st
      | _, _ => None
      end
    | _ => None
    end
  | PKeyOrEnd | PKey =>
    match t, stack with
    | TString k, FObject ms None :: st => Some (FObject ms (Some k) :: st, PColon)
    | TRBrace, FObject ms None :: st =>
      match e with
      | PKeyOrEnd => complete (JObject (rev ms)) st
      | _ => None
      end
    | _, _ => None
    end
  | PColon =>
    match t with
    | TColon => Some (stack, PValue)
    | _ => None
    end
  | PCommaOrEnd =>
    match t, stack with
    | TComma, FArray _ :: _ => Some (stack, PValue)
    | TComma, FObject _ None :: _ => Some (stack, PKey)
    | TRBracket, FArray l :: st => complete (JArray (rev l)) st
    | TRBrace, FObject ms None :: st => complete (JObject (rev ms)) st
    | _, _ => None
    end
  | PDone _ => None
  end.

Fixpoint parseTokens (stack : list Frame) (e : Expect) (ts : list Token)
  : option JValue :=
  match ts with
  | [] => match e with PDone v => Some v | _ => None end
  | t :: ts' =>
    match parseToken stack e t with
    | Some (stack', e') => parseTokens stack' e' ts'
    | None => None
    end
  end.

Definition JSON_parse (text : jstr) : option JValue :=
  match lexer LOut text with
  | Some ts => parseTokens [] PValue ts
  | None => None
  end.

(** [JSON.parse(quote + body + quote)] with the fallback of the [catch]
    clause: the decoded string, or [fallback] when parsing throws. *)
Definition parseStringOr (body fallback : jstr) : jstr :=
  match JSON_parse ([c_quote] ++ body ++ [c_quote]) with
  | Some (JString s) => s
  | _ => fallback
  end.

(** ** Parser state *)

Inductive ParserState :=
| EXPECT_ROOT
| EXPECT_VALUE
| EXPECT_KEY
| EXPECT_COLON
| EXPECT_COMMA_OR_CLOSING.

Inductive Bracket := LBrace | LBracket.

Global Instance ParserState_eq_dec : EqDecision ParserState.
Proof. solve_decision. Defined.
Global Instance Bracket_eq_dec : EqDecision Bracket.
Proof. solve_decision. Defined.

Record ToolCallProcessingState := mkState {
  functionNameOutputted : bool;
  functionClosed : bool;
  arguments : jstr;
  cursor : nat;
  parserState : ParserState;
  inString : bool;
  isEscaped : bool;
  isStreamingStringValue : bool;
  bracketStack : list Bracket;
  xmlTagStack : list jstr;
  currentString : jstr;
  primitiveBuffer : jstr;
  justOpenedArray : bool
}.

Definition newState : ToolCallProcessingState :=
  mkState false false [] 0 EXPECT_ROOT false false false [] [] [] [] false.

Abbreviation State := ToolCallProcessingState.

Definition set_functionNameOutputted (v : bool) (s : State) : State :=
  mkState v (functionClosed s) (arguments s) (cursor s) (parserState s)
    (inString s) (isEscaped s) (isStreamingStringValue s) (bracketStack s)
    (xmlTagStack s) (currentString s) (primitiveBuffer s) (justOpenedArray s).
Definition set_functionClosed (v : bool) (s : State) : State :=
  mkState (functionNameOutputted s) v (arguments s) (cursor s) (parserState s)
    (inString s) (isEscaped s) (isStreamingStringValue s) (bracketStack s)
    (xmlTagStack s) (currentString s) (primitiveBuffer s) (justOpenedArray s).
Definition set_arguments (v : jstr) (s : State) : State :=
  mkState (functionNameOutputted s) (functionClosed s) v (cursor s) (parserState s)
    (inString s) (isEscaped s) (isStreamingStringValue s) (bracketStack s)
    (xmlTagStack s) (currentString s) (primitiveBuffer s) (justOpenedArray s).
Definition set_cursor (v : nat) (s : State) : State :=
  mkState (functionNameOutputted s) (functionClosed s) (arguments s) v (parserState s)
    (inString s) (isEscaped s) (isStreamingStringValue s) (bracketStack s)
    (xmlTagStack s) (currentString s) (primitiveBuffer s) (justOpenedArray s).
Definition set_parserState (v : ParserState) (s : State) : State :=
  mkState (functionNameOutputted s) (functionClosed s) (arguments s) (cursor s) v
    (inString s) (isEscaped s) (isStreamingStringValue s) (bracketStack s)
    (xmlTagStack s) (currentString s) (primitiveBuffer s) (justOpenedArray s).
Definition set_inString (v : bool) (s : State) : State :=
  mkState (functionNameOutputted s) (functionClosed s) (arguments s) (cursor s) (parserState s)
    v (isEscaped s) (isStreamingStringValue s) (bracketStack s)
    (xmlTagStack s) (currentString s) (primitiveBuffer s) (justOpenedArray s).
Definition set_isEscaped (v : bool) (s : State) : State :=
  mkState (functionNameOutputted s) (functionClosed s) (arguments s) (cursor s) (parserState s)
    (inString s) v (isStreamingStringValue s) (bracketStack s)
    (xmlTagStack s) (currentString s) (primitiveBuffer s) (justOpenedArray s).
Definition set_isStreamingStringValue (v : bool) (s : State) : State :=
  mkState (functionNameOutputted s) (functionClosed s) (arguments s) (cursor s) (parserState s)
    (inString s) (isEscaped s) v (bracketStack s)
    (xmlTagStack s) (currentString s) (primitiveBuffer s) (justOpenedArray s).
Definition set_bracketStack (v : list Bracket) (s : State) : State :=
  mkState (functionNameOutputted s) (functionClosed s) (arguments s) (cursor s) (parserState s)
    (inString s) (isEscaped s) (isStreamingStringValue s) v
    (xmlTagStack s) (currentString s) (primitiveBuffer s) (justOpenedArray s).
Definition set_xmlTagStack (v : list jstr) (s : State) : State :=
  mkState (functionNameOutputted s) (functionClosed s) (arguments s) (cursor s) (parserState s)
    (inString s) (isEscaped s) (isStreamingStringValue s) (bracketStack s)
    v (currentString s) (primitiveBuffer s) (justOpenedArray s).
Definition set_currentString (v : jstr) (s : State) : State :=
  mkState (functionNameOutputted s) (functionClosed s) (arguments s) (cursor s) (parserState s)
    (inString s) (isEscaped s) (isStreamingStringValue s) (bracketStack s)
    (xmlTagStack s) v (primitiveBuffer s) (justOpenedArray s).
Definition set_primitiveBuffer (v : jstr) (s : State) : State :=
  mkState (functionNameOutputted s) (functionClosed s) (arguments s) (cursor s) (parserState s)
    (inString s) (isEscaped s) (isStreamingStringValue s) (bracketStack s)
    (xmlTagStack s) (currentString s) v (justOpenedArray s).
Definition set_justOpenedArray (v : bool) (s : State) : State :=
  mkState (functionNameOutputted s) (functionClosed s) (arguments s) (cursor s) (parserState s)
    (inString s) (isEscaped s) (isStreamingStringValue s) (bracketStack s)
    (xmlTagStack s) (currentString s) (primitiveBuffer s) v.

(** ** Helpers of the processor *)

(** [getIndent(level)] *)
Definition getIndent (level : nat) : jstr := replicate level c_tab.

(** [onOpenTag(tag, toolName)] and [onCloseTag(tag, toolName)] *)
Definition onOpenTag (tag toolName : jstr) : jstr := [c_lt] ++ tag ++ [c_gt].
Definition onCloseTag (tag toolName : jstr) : jstr :=
  [c_lt; c_slash] ++ tag ++ [c_gt; c_nl].

(** [str.substring(a, b)] for [a <= b]. *)
Definition substring (a b : nat) (s : jstr) : jstr := take (b - a) (drop a s).

(** [getFullEscapeSequence(str, pos)]; [None] is the source's [null]. *)
Definition getFullEscapeSequence (str : jstr) (pos : nat) : option jstr :=
  if negb (bool_decide (str !! pos = Some c_backslash)) then None
  else if bool_decide (length str <= pos + 1) then None
  else if bool_decide (str !! (pos + 1) = Some c_u) then
    if bool_decide (length str <= pos + 5) then None
    else
      let hex := substring (pos + 2) (pos + 6) str in
      if forallb isHex hex then Some ([c_backslash; c_u] ++ hex) else None
  else Some (substring pos (pos + 2) str).

(** The number of open objects on the bracket stack and the indentation
    level [Math.max(0, bracketStack.filter(b => b === "{").length - 1)]. *)
Definition countBraces (bs : list Bracket) : nat :=
  length (filter (λ b, b = LBrace) bs).

Definition xmlLevel (st : State) : nat :=
  Nat.max 0 (countBraces (bracketStack st) - 1).

(** [if (tag) { ... f(tag) ... }] on a tag that may be [undefined] or the
    empty string. *)
Definition whenTag (tag : option jstr) (f : jstr -> jstr) : jstr :=
  match tag with
  | Some (c :: r) => f (c :: r)
  | _ => []
  end.

(** The character class of primitive values. *)
Definition isPrimitiveChar (c : N) : bool :=
  isDigit c || (c =? c_minus)%N || (c =? c_dot)%N || isLower c || isUpper c.

(** [/^-?\d+(\.\d+)?$/.test(value)] *)
Fixpoint spanDigits (s : jstr) : jstr * jstr :=
  match s with
  | c :: r => if isDigit c then let '(d, t) := spanDigits r in (c :: d, t)
              else ([], s)
  | [] => ([], [])
  end.

Definition isNumberLiteral (value : jstr) : bool :=
  let unsigned :=
    match value with
    | c :: r => if (c =? c_minus)%N then r else value
    | [] => value
    end in
  let '(int, rest) := spanDigits unsigned in
  match int, rest with
  | [], _ => false
  | _ :: _, [] => true
  | _ :: _, c :: frac =>
      (c =? c_dot)%N && bool_decide (frac ≠ []) && forallb isDigit frac
  end.

Definition isValidPrimitive (value : jstr) : bool :=
  jstr_eqb value (js "true") || jstr_eqb value (js "false")
  || jstr_eqb value (js "null") || isNumberLiteral value.

(** The colon look-ahead: the next non-whitespace character after
    position [from], or [None] (the source's empty string) when the buffer
    holds none. *)
Fixpoint firstNonWhitespace (s : jstr) : option N :=
  match s with
  | c :: r => if isSpace c then firstNonWhitespace r else Some c
  | [] => None
  end.

Definition nextNonWhitespace (args : jstr) (from : nat) : option N :=
  firstNonWhitespace (drop from args).

(** ** The state machine [processArguments]

    One iteration of the [while] loop is [step]: it returns the state at
    the end of the iteration together with the text appended to [xml], or
    [Return_] where the iteration leaves the function by [return xml]
    (an escape sequence that is not buffered yet). *)

Inductive Outcome :=
| Next (st : State) (out : jstr)
| Return_.

Definition advance (st : State) : State := set_cursor (S (cursor st)) st.

Definition stepStringValue (toolName : jstr) (st : State) (char : N) : Outcome :=
  if (char =? c_backslash)%N then
    match getFullEscapeSequence (arguments st) (cursor st) with
    | Some escapeSequence =>
        let out := parseStringOr escapeSequence escapeSequence in
        Next (set_cursor (cursor st + length escapeSequence) st) out
    | None => Return_
    end
  else if (char =? c_quote)%N then
    let st1 := set_isStreamingStringValue false (set_inString false st) in
    let '(st2, out) :=
      match head (bracketStack st1) with
      | Some LBrace =>
          let tag := head (xmlTagStack st1) in
          (set_xmlTagStack (tail (xmlTagStack st1)) st1,
           whenTag tag (λ t, onCloseTag t toolName))
      | Some LBracket =>
          let arrayElementTag := head (xmlTagStack st1) in
          (st1, whenTag arrayElementTag (λ t, onCloseTag t toolName))
      | None => (st1, [])
      end in
    Next (advance (set_parserState EXPECT_COMMA_OR_CLOSING st2)) out
  else Next (advance st) [char].

Definition stepStringKey (st : State) (char : N) : Outcome :=
  let st' :=
    if (char =? c_backslash)%N && negb (isEscaped st) then
      set_isEscaped true (set_currentString (currentString st ++ [c_backslash]) st)
    else if (char =? c_quote)%N && negb (isEscaped st) then
      let finalString := parseStringOr (currentString st) (currentString st) in
      set_currentString []
        (set_parserState EXPECT_COLON
          (set_xmlTagStack (finalString :: xmlTagStack st)
            (set_inString false st)))
    else
      set_isEscaped false (set_currentString (currentString st ++ [char]) st) in
  Next (advance st') [].

(** A complete primitive followed by a delimiter: emit it and let the
    delimiter be handled by the next iteration. *)
Definition commitPrimitive (toolName : jstr) (st : State) (value : jstr)
  : State * jstr :=
  let '(st1, out) :=
    match head (bracketStack st) with
    | Some LBracket =>
        let arrayElementTag := head (xmlTagStack st) in
        (st, whenTag arrayElementTag (λ t,
               getIndent (xmlLevel st) ++ onOpenTag t toolName ++ value
               ++ onCloseTag t toolName))
    | _ =>
        let tag := head (xmlTagStack st) in
        (set_xmlTagStack (tail (xmlTagStack st)) st,
         whenTag tag (λ t, value ++ onCloseTag t toolName))
    end in
  (set_primitiveBuffer [] (set_parserState EXPECT_COMMA_OR_CLOSING st1), out).

(** The [switch (char)] statement. *)
Definition stepSwitch (toolName : jstr) (st : State) (char : N) : State * jstr :=
  let ps := parserState st in
  if (char =? c_lbrace)%N then
    if bool_decide (ps = EXPECT_VALUE) || bool_decide (ps = EXPECT_ROOT) then
      let out :=
        match head (bracketStack st) with
        | Some LBracket =>
            whenTag (head (xmlTagStack st)) (λ t,
              getIndent (xmlLevel st) ++ onOpenTag t toolName)
        | _ => []
        end in
      (set_justOpenedArray false
         (set_parserState EXPECT_KEY
            (set_bracketStack (LBrace :: bracketStack st) st)),
       out ++ [c_nl])
    else (st, [])
  else if (char =? c_rbrace)%N then
    if bool_decide (ps = EXPECT_KEY) || bool_decide (ps = EXPECT_COMMA_OR_CLOSING) then
      let parentBeforePop := head (bracketStack st) in
      let st1 := set_bracketStack (tail (bracketStack st)) st in
      let parentAfterPop := head (bracketStack st1) in
      let '(st2, out) :=
        if bool_decide (parentBeforePop = Some LBrace)
           && bool_decide (parentAfterPop = Some LBracket) then
          (st1, whenTag (head (xmlTagStack st1)) (λ t,
                  getIndent (xmlLevel st1) ++ onCloseTag t toolName))
        else
          (set_xmlTagStack (tail (xmlTagStack st1)) st1,
           whenTag (head (xmlTagStack st1)) (λ t,
             getIndent (xmlLevel st1) ++ onCloseTag t toolName)) in
      (set_parserState EXPECT_COMMA_OR_CLOSING st2, out)
    else (st, [])
  else if (char =? c_lbracket)%N then
    if bool_decide (ps = EXPECT_VALUE) || bool_decide (ps = EXPECT_ROOT) then
      (set_justOpenedArray true
         (set_parserState EXPECT_VALUE
            (set_bracketStack (LBracket :: bracketStack st) st)), [])
    else (st, [])
  else if (char =? c_rbracket)%N then
    if bool_decide (ps = EXPECT_VALUE) || bool_decide (ps = EXPECT_COMMA_OR_CLOSING) then
      let out :=
        if bool_decide (ps = EXPECT_VALUE) && justOpenedArray st
           && bool_decide (0 < length (xmlTagStack st)) then
          whenTag (head (xmlTagStack st)) (λ t,
            getIndent (xmlLevel st) ++ onOpenTag t toolName ++ onCloseTag t toolName)
        else [] in
      let st1 := set_bracketStack (tail (bracketStack st)) st in
      let st2 := set_xmlTagStack (tail (xmlTagStack st1)) st1 in
      (set_justOpenedArray false (set_parserState EXPECT_COMMA_OR_CLOSING st2), out)
    else (st, [])
  else if (char =? c_quote)%N then
    if bool_decide (ps = EXPECT_VALUE) then
      let st1 := set_inString true (set_isStreamingStringValue true st) in
      let out :=
        match head (bracketStack st1) with
        | Some LBracket =>
            whenTag (head (xmlTagStack st1)) (λ t,
              getIndent (xmlLevel st1) ++ onOpenTag t toolName)
        | _ => []
        end in
      (st1, out)
    else if bool_decide (ps = EXPECT_KEY) then
      (set_inString true (set_isStreamingStringValue false st), [])
    else (st, [])
  else if (char =? c_colon)%N then
    if bool_decide (ps = EXPECT_COLON) then
      let out :=
        if bool_decide (nextNonWhitespace (arguments st) (cursor st + 1) ≠ Some c_lbracket)
        then whenTag (head (xmlTagStack st)) (λ t,
               getIndent (xmlLevel st) ++ onOpenTag t toolName)
        else [] in
      (set_parserState EXPECT_VALUE st, out)
    else (st, [])
  else if (char =? c_comma)%N then
    if bool_decide (ps = EXPECT_COMMA_OR_CLOSING) then
      (set_parserState
         (if bool_decide (head (bracketStack st) = Some LBrace)
          then EXPECT_KEY else EXPECT_VALUE) st, [])
    else (st, [])
  else (st, []).

Definition switchAndAdvance (toolName : jstr) (st : State) (char : N) : Outcome :=
  let '(st', out) := stepSwitch toolName st char in Next (advance st') out.

Definition step (toolName : jstr) (st : State) (char : N) : Outcome :=
  if inString st then
    if isStreamingStringValue st then stepStringValue toolName st char
    else stepStringKey st char
  else if isSpace char then Next (advance st) []
  else if bool_decide (parserState st = EXPECT_VALUE) then
    if isPrimitiveChar char then
      Next (advance (set_primitiveBuffer (primitiveBuffer st ++ [char]) st)) []
    else if bool_decide (0 < length (primitiveBuffer st)) then
      let value := trim (primitiveBuffer st) in
      if isValidPrimitive value then
        let '(st', out) := commitPrimitive toolName st value in Next st' out
      else switchAndAdvance toolName (set_primitiveBuffer [] st) char
    else switchAndAdvance toolName st char
  else switchAndAdvance toolName st char.

(** The [while (state.cursor < args.length)] loop.  An iteration either
    moves the cursor forward or (committing a primitive) leaves the state
    [EXPECT_VALUE], so [2 * (length - cursor) + 1] iterations always reach
    the end of the loop; see [processArguments_halts]. *)
Fixpoint processArguments_loop (toolName : jstr) (fuel : nat) (st : State)
    (xml : jstr) : State * jstr :=
  match fuel with
  | O => (st, xml)
  | S fuel' =>
    match arguments st !! cursor st with
    | None => (st, xml)
    | Some char =>
      match step toolName st char with
      | Next st' out => processArguments_loop toolName fuel' st' (xml ++ out)
      | Return_ => (st, xml)
      end
    end
  end.

Definition processArguments (st : State) (toolName : jstr) : State * jstr :=
  processArguments_loop toolName
    (2 * (length (arguments st) - cursor st) + 1) st [].

(** ** Best-effort JSON repair: [tryBuildTemporaryJson] *)

(** [trimTrailingComma(str)], a regular-expression replace: the comma
    that only whitespace separates from the end of the string is removed. *)
Fixpoint trimTrailingComma (str : jstr) : jstr :=
  match str with
  | c :: r => if (c =? c_comma)%N && forallb isSpace r then r
              else c :: trimTrailingComma r
  | [] => []
  end.

(** [completePrimitiveSuffix(pb)] *)
Definition completePrimitiveSuffix (pb : jstr) : jstr :=
  if existsb (jstr_eqb pb) [js "t"; js "tr"; js "tru"] then js "e"
  else if existsb (jstr_eqb pb) [js "f"; js "fa"; js "fal"; js "fals"] then js "e"
  else if existsb (jstr_eqb pb) [js "n"; js "nu"; js "nul"] then js "l"
  else if existsb (jstr_eqb pb) [js ""; js "-"] then js "0"
  else
    let unsigned := match pb with
                    | c :: r => if (c =? c_minus)%N then r else pb
                    | [] => pb
                    end in
    let '(int, rest) := spanDigits unsigned in
    if bool_decide (int ≠ []) && jstr_eqb rest [c_dot] then js "0" else [].

(** [input.lastIndexOf("\\u")] *)
Fixpoint lastIndexOfBackslashU (i : nat) (found : option nat) (input : jstr)
  : option nat :=
  match input with
  | a :: r =>
    lastIndexOfBackslashU (S i)
      (match r with
       | b :: _ => if (a =? c_backslash)%N && (b =? c_u)%N then Some i else found
       | [] => found
       end) r
  | [] => found
  end.

Definition stripIncompleteUnicodeAtEnd (input : jstr) : jstr :=
  match lastIndexOfBackslashU 0 None input with
  | Some uniIndex =>
    let tail := drop (uniIndex + 2) input in
    if negb (bool_decide (length tail = 4) && forallb isHex tail) then
      match drop uniIndex input with
      | _ :: _ => take uniIndex input
      | [] => input
      end
    else input
  | None => input
  end.

(** [findLastNonWhitespaceChar(str)]; [None] is the empty string. *)
Definition findLastNonWhitespaceChar (str : jstr) : option N :=
  firstNonWhitespace (rev str).

Definition closer (b : Bracket) : N :=
  match b with LBrace => c_rbrace | LBracket => c_rbracket end.

(** Step 4: close the open brackets, innermost first. *)
Fixpoint closeBrackets (stack : list Bracket) (s : jstr) : jstr :=
  match stack with
  | b :: rest => closeBrackets rest (trimTrailingComma s ++ [closer b])
  | [] => s
  end.

(** Step 7: up to three rounds of trimming a trailing comma and parsing. *)
Fixpoint finalFallback (k : nat) (s3 : jstr) : option JValue :=
  match k with
  | O => None
  | S k' =>
    let trimmed := trimTrailingComma s3 in
    if jstr_eqb trimmed s3 then None
    else match JSON_parse trimmed with
         | Some v => Some v
         | None => finalFallback k' trimmed
         end
  end.

(** [tryBuildTemporaryJson(state, rawArgs)]; [None] is [null].  Every
    [JSON.parse] sits in a [try] whose [catch] goes on to the next
    attempt. *)
Definition tryBuildTemporaryJson (state : State) (rawArgs : jstr) : option JValue :=
  if bool_decide (rawArgs = []) || bool_decide (trim rawArgs = []) then None
  else
    let s1 :=
      if inString state then
        let a := match last rawArgs with
                 | Some c => if (c =? c_backslash)%N
                             then take (length rawArgs - 1) rawArgs else rawArgs
                 | None => rawArgs
                 end in
        stripIncompleteUnicodeAtEnd a ++ [c_quote]
      else if bool_decide (0 < length (primitiveBuffer state)) then
        rawArgs ++ completePrimitiveSuffix (primitiveBuffer state)
      else rawArgs in
    let s := closeBrackets (bracketStack state) (trimTrailingComma s1) in
    match JSON_parse s with
    | Some v => Some v
    | None =>
      let s2 :=
        if bool_decide (findLastNonWhitespaceChar s = Some c_colon)
           || bool_decide (parserState state = EXPECT_VALUE)
        then s ++ js "null" else s in
      match JSON_parse (trimTrailingComma s2) with
      | Some v => Some v
      | None => finalFallback 3 s
      end
    end.

(** ** The stream session *)

Record ToolCall := mkToolCall {
  tc_id : jstr;
  tc_name : jstr;          (* function.name *)
  tc_arguments : jstr      (* function.arguments *)
}.

(** A delta of a chunk.  A field that is absent (or whose enclosing
    [function] object is absent) is [None]. *)
Record Delta := mkDelta {
  d_index : option nat;
  d_id : option jstr;
  d_name : option jstr;
  d_arguments : option jstr
}.

Record ToolUseBlockParam := mkToolUse {
  tu_id : option jstr;
  tu_name : jstr;
  tu_input : JValue
}.

Record ToolCallParam := mkToolCallParam {
  providerType : jstr;
  toolName : jstr;
  toolUserId : option jstr;
  chunkContent : jstr;
  anthropicContent : option ToolUseBlockParam;
  originContent : list (option ToolCall)
}.

(** [accumulatedToolCalls] is a JavaScript array that may have holes;
    [processingStates] is a [Map]. *)
Record Processor := mkProcessor {
  accumulatedToolCalls : list (option ToolCall);
  processingStates : gmap nat State
}.

Definition newProcessor : Processor := mkProcessor [] ∅.

(** [array[i]], [undefined] ([None]) on a hole or past the end. *)
Definition array_get {A} (l : list (option A)) (i : nat) : option A :=
  mjoin (l !! i).

(** [array[i] = x]: the array grows with holes when [i] is past the end. *)
Definition array_set {A} (i : nat) (x : A) (l : list (option A))
  : list (option A) :=
  if decide (i < length l) then <[i := Some x]> l
  else l ++ replicate (i - length l) None ++ [Some x].

Inductive Exn :=
| UnsupportedProviderType (providerType : jstr)
| TypeError.

Definition openFunctionTag (name : jstr) : jstr := [c_lt] ++ name ++ [c_gt].
Definition closeFunctionTag (name : jstr) : jstr :=
  [c_lt; c_slash] ++ name ++ [c_gt; c_nl; c_nl].

Section Session.

(** [getToolRegistry().isToolSupported] *)
Variable isToolSupported : jstr -> bool.

Definition isValidToolName (name : jstr) : bool :=
  bool_decide (name ≠ []) && isToolSupported name.

Definition appendWhen (s : jstr) (suffix : option jstr) : jstr :=
  match suffix with Some x => s ++ x | None => s end.

(** The body of the [for (const delta of chunk)] loop of
    [processChunkOpenAIFormat] once the call and its state are at hand:
    [accumulate] appends the name and arguments of the delta, [emitDelta]
    opens the function tag, runs the state machine and closes the call. *)
Definition accumulate (toolCall : ToolCall) (delta : Delta) : ToolCall :=
  mkToolCall (tc_id toolCall)
    (appendWhen (tc_name toolCall) (d_name delta))
    (appendWhen (tc_arguments toolCall) (d_arguments delta)).

Definition emitArguments (toolCall : ToolCall) (state : State) : State * jstr :=
  let name := tc_name toolCall in
  let args := tc_arguments toolCall in
  if isValidToolName name && negb (functionNameOutputted state) then
    let st := set_functionNameOutputted true state in
    if bool_decide (0 < length args) then
      let '(st', xml) := processArguments (set_arguments args st) name in
      (st', openFunctionTag name ++ xml)
    else (st, openFunctionTag name)
  else if functionNameOutputted state
          && bool_decide (length (arguments state) < length args) then
    processArguments (set_arguments args state) name
  else (state, []).

Definition closeWhenComplete (toolCall : ToolCall) (state : State) : State * jstr :=
  if isValidToolName (tc_name toolCall) && negb (functionClosed state)
     && bool_decide (length (bracketStack state) = 0)
     && bool_decide (0 < cursor state) then
    let remaining := trim (drop (cursor state) (arguments state)) in
    if bool_decide (remaining = []) then
      (set_functionClosed true state, closeFunctionTag (tc_name toolCall))
    else (state, [])
  else (state, []).

Definition emitDelta (toolCall : ToolCall) (state : State) : State * jstr :=
  let '(state1, out1) := emitArguments toolCall state in
  let '(state2, out2) := closeWhenComplete toolCall state1 in
  (state2, out1 ++ out2).

(** One iteration of the loop: the processor after the iteration, the
    index of the delta and the text appended to [xmlOutput].  A call
    without its state would make the source read a field of [undefined],
    a TypeError. *)
Definition processDelta (p : Processor) (delta : Delta)
  : Exn + (Processor * nat * jstr) :=
  let index := default 0 (d_index delta) in
  let p1 :=
    match array_get (accumulatedToolCalls p) index with
    | Some _ => p
    | None =>
      mkProcessor
        (array_set index (mkToolCall (default [] (d_id delta)) [] [])
           (accumulatedToolCalls p))
        (<[index := newState]> (processingStates p))
    end in
  match array_get (accumulatedToolCalls p1) index, processingStates p1 !! index with
  | Some toolCall0, Some state =>
    let toolCall := accumulate toolCall0 delta in
    let '(state2, out) := emitDelta toolCall state in
    inr (mkProcessor
           (array_set index toolCall (accumulatedToolCalls p1))
           (<[index := state2]> (processingStates p1)),
         index, out)
  | _, _ => inl TypeError
  end.

Fixpoint processDeltas (p : Processor) (index : nat) (xmlOutput : jstr)
    (chunk : list Delta) : Exn + (Processor * nat * jstr) :=
  match chunk with
  | [] => inr (p, index, xmlOutput)
  | delta :: rest =>
    match processDelta p delta with
    | inr (p', index', out) => processDeltas p' index' (xmlOutput ++ out) rest
    | inl e => inl e
    end
  end.

(** The structured fields of the result, read at [index] after the loop. *)
Definition resultToolName (p : Processor) (index : nat) : jstr :=
  match array_get (accumulatedToolCalls p) index with
  | Some toolCall => if isValidToolName (tc_name toolCall) then tc_name toolCall else []
  | None => []
  end.

Definition resultToolUserId (p : Processor) (index : nat) : option jstr :=
  match array_get (accumulatedToolCalls p) index with
  | Some toolCall => match tc_id toolCall with [] => None | id => Some id end
  | None => None
  end.

Definition resultAnthropicContent (p : Processor) (index : nat)
  : option ToolUseBlockParam :=
  match array_get (accumulatedToolCalls p) index with
  | Some toolCall =>
    if isValidToolName (tc_name toolCall) then
      match processingStates p !! index with
      | Some currentState =>
        let block input :=
          mkToolUse (resultToolUserId p index) (resultToolName p index) input in
        if functionClosed currentState then
          Some (block (match JSON_parse (tc_arguments toolCall) with
                       | Some input => input
                       | None => JString []
                       end))
        else
          match tryBuildTemporaryJson currentState (tc_arguments toolCall) with
          | Some JNull | None => None
          | Some tmpInput => Some (block tmpInput)
          end
      | None => None
      end
    else None
  | None => None
  end.

Definition processChunkOpenAIFormat (p : Processor) (chunk : list Delta)
  : Exn + (Processor * ToolCallParam) :=
  match processDeltas p 0 [] chunk with
  | inr (p', index, xmlOutput) =>
    inr (p', mkToolCallParam (js "openai") (resultToolName p' index)
               (resultToolUserId p' index) xmlOutput
               (resultAnthropicContent p' index) (accumulatedToolCalls p'))
  | inl e => inl e
  end.

Definition processChunkTool (p : Processor) (chunk : list Delta)
    (providerType : jstr) : Exn + (Processor * ToolCallParam) :=
  if jstr_eqb providerType (js "openai") then processChunkOpenAIFormat p chunk
  else inl (UnsupportedProviderType providerType).

Definition processChunk (p : Processor) (chunk : list Delta)
    (providerType : jstr) : Exn + (Processor * jstr) :=
  if jstr_eqb providerType (js "openai") then
    match processChunkOpenAIFormat p chunk with
    | inr (p', r) => inr (p', chunkContent r)
    | inl e => inl e
    end
  else inl (UnsupportedProviderType providerType).

(** [handleOpenaiToolCallStreaming] *)
Definition handleOpenaiToolCallStreaming := processChunkTool.

(** The closing tags of [finalize] for the tags left on [xmlTagStack]. *)
Definition closeRemainingTags (state : State) (toolName : jstr) : jstr :=
  concat (List.map (λ tag, getIndent (xmlLevel state) ++ onCloseTag tag toolName)
            (xmlTagStack state)).

(** One iteration of the [for] loop of [finalize], at index [i]. *)
Definition finalizeAt (p : Processor) (i : nat) : Processor * jstr :=
  match processingStates p !! i, array_get (accumulatedToolCalls p) i with
  | Some state, Some toolCall =>
    if functionClosed state then (p, [])
    else if negb (isValidToolName (tc_name toolCall)) then (p, [])
    else
      let '(state1, out1) :=
        if bool_decide (length (arguments state) < length (tc_arguments toolCall))
        then processArguments (set_arguments (tc_arguments toolCall) state)
               (tc_name toolCall)
        else (state, []) in
      let out2 := closeRemainingTags state1 (tc_name toolCall) in
      let state2 := set_xmlTagStack [] state1 in
      let out3 :=
        if functionNameOutputted state2
        then [c_lt; c_slash] ++ tc_name toolCall ++ [c_gt; c_nl] else [] in
      (mkProcessor (accumulatedToolCalls p) (<[i := state2]> (processingStates p)),
       out1 ++ out2 ++ out3)
  | _, _ => (p, [])
  end.

Fixpoint finalizeFrom (p : Processor) (finalXml : jstr) (indices : list nat)
  : Processor * jstr :=
  match indices with
  | [] => (p, finalXml)
  | i :: rest =>
    let '(p', out) := finalizeAt p i in finalizeFrom p' (finalXml ++ out) rest
  end.

Definition finalize (p : Processor) : Processor * jstr :=
  finalizeFrom p [] (seq 0 (length (accumulatedToolCalls p))).

(** [reset()] *)
Definition reset (p : Processor) : Processor := newProcessor.

End Session.

(** * Properties *)

(** ** The loop of [processArguments] *)

Section Loop.

Variable toolName : jstr.

(** The loop is over for [st]: the cursor is at the end of the buffer, or
    the next iteration returns for lack of input. *)
Definition halted (st : State) : Prop :=
  match arguments st !! cursor st with
  | None => True
  | Some c => step toolName st c = Return_
  end.

(** [steps st x st']: some iterations of the loop lead from [st] to [st']
    and append [x] to the output. *)
Inductive steps : State -> jstr -> State -> Prop :=
| steps_refl st : steps st [] st
| steps_step st c st1 out st2 x :
    arguments st !! cursor st = Some c ->
    step toolName st c = Next st1 out ->
    steps st1 x st2 ->
    steps st (out ++ x) st2.

Definition pending (st : State) : nat :=
  if bool_decide (parserState st = EXPECT_VALUE) then 1 else 0.

Definition measure (st : State) : nat :=
  2 * (length (arguments st) - cursor st) + pending st.

Lemma getFullEscapeSequence_length str pos esc :
  getFullEscapeSequence str pos = Some esc -> 0 < length esc.
Proof.
  unfold getFullEscapeSequence, substring. intros H.
  repeat (case_bool_decide || case_match); simplify_eq; simpl; try lia.
  rewrite length_take, length_drop. lia.
Qed.

Lemma stepSwitch_frame st c st' out :
  stepSwitch toolName st c = (st', out) ->
  arguments st' = arguments st /\ cursor st' = cursor st.
Proof.
  unfold stepSwitch. repeat case_match; intros; simplify_eq; done.
Qed.

Lemma commitPrimitive_frame st v st' out :
  commitPrimitive toolName st v = (st', out) ->
  arguments st' = arguments st /\ cursor st' = cursor st
  /\ parserState st' = EXPECT_COMMA_OR_CLOSING.
Proof.
  unfold commitPrimitive. repeat case_match; intros; simplify_eq; done.
Qed.

Lemma step_progress st c st' out :
  step toolName st c = Next st' out ->
  arguments st' = arguments st
  /\ (cursor st < cursor st'
      \/ cursor st' = cursor st /\ parserState st = EXPECT_VALUE
         /\ parserState st' = EXPECT_COMMA_OR_CLOSING).
Proof.
  unfold step, stepStringValue, stepStringKey, switchAndAdvance.
  repeat case_match; intros; simplify_eq; simpl;
    repeat match goal with
    | H : stepSwitch _ _ _ = _ |- _ => apply stepSwitch_frame in H; simpl in H
    | H : commitPrimitive _ _ _ = _ |- _ => apply commitPrimitive_frame in H
    | H : getFullEscapeSequence _ _ = Some _ |- _ =>
        apply getFullEscapeSequence_length in H
    | H : bool_decide _ = true |- _ => apply bool_decide_eq_true in H
    end; try (intuition (simpl in *; (congruence || lia))).
Qed.

Lemma step_measure st c st' out :
  arguments st !! cursor st = Some c ->
  step toolName st c = Next st' out ->
  measure st' < measure st.
Proof.
  intros Hc Hs. apply lookup_lt_Some in Hc.
  apply step_progress in Hs as [Ha Hs]. unfold measure, pending. rewrite Ha.
  destruct Hs as [Hlt | (Hcur & Hv & Hc')].
  - repeat case_bool_decide; lia.
  - rewrite Hcur. repeat case_bool_decide; try congruence; lia.
Qed.

Lemma loop_halts fuel st xml :
  measure st <= fuel ->
  halted (processArguments_loop toolName fuel st xml).1.
Proof.
  revert st xml. induction fuel as [|fuel IH]; intros st xml Hm; simpl.
  - unfold halted. destruct (arguments st !! cursor st) eqn:Hc; [|done].
    apply lookup_lt_Some in Hc. unfold measure in Hm. lia.
  - unfold halted. destruct (arguments st !! cursor st) as [c|] eqn:Hc.
    + destruct (step toolName st c) as [st' out|] eqn:Hs.
      * apply IH. pose proof (step_measure _ _ _ _ Hc Hs). lia.
      * simpl. by rewrite Hc.
    + simpl. by rewrite Hc.
Qed.

Lemma loop_steps fuel st xml st' x :
  steps st x st' -> halted st' -> measure st <= fuel ->
  processArguments_loop toolName fuel st xml = (st', xml ++ x).
Proof.
  intros Hst Hh. revert fuel xml.
  induction Hst as [st | st c st1 out st2 x Hc Hs Hst IH]; intros fuel xml Hm.
  - unfold halted in Hh. destruct fuel; simpl; rewrite ?app_nil_r; [done|].
    destruct (arguments st !! cursor st); [by rewrite Hh | done].
  - pose proof (step_measure _ _ _ _ Hc Hs).
    destruct fuel as [|fuel]; [lia|]. simpl. rewrite Hc, Hs.
    rewrite IH by (done || lia). by rewrite <- app_assoc.
Qed.

Lemma loop_sound fuel st xml :
  exists x, (processArguments_loop toolName fuel st xml).2 = xml ++ x
            /\ steps st x (processArguments_loop toolName fuel st xml).1.
Proof.
  revert st xml. induction fuel as [|fuel IH]; intros st xml; simpl.
  - exists []. rewrite app_nil_r. split; [done | constructor].
  - destruct (arguments st !! cursor st) as [c|] eqn:Hc.
    + destruct (step toolName st c) as [st' out|] eqn:Hs.
      * destruct (IH st' (xml ++ out)) as (x & Hx & Hst).
        exists (out ++ x). rewrite Hx, <- app_assoc. split; [done|].
        by eapply steps_step.
      * exists []. rewrite app_nil_r. split; [done | constructor].
    + exists []. rewrite app_nil_r. split; [done | constructor].
Qed.

Lemma steps_trans st1 x st2 y st3 :
  steps st1 x st2 -> steps st2 y st3 -> steps st1 (x ++ y) st3.
Proof.
  induction 1 as [|st c st1' out st2' x Hc Hs Hst IH]; intros H2; [done|].
  rewrite <- app_assoc. eapply steps_step; eauto.
Qed.

Lemma steps_arguments st x st' :
  steps st x st' -> arguments st' = arguments st.
Proof.
  induction 1 as [|st c st1 out st2 x Hc Hs Hst IH]; [done|].
  apply step_progress in Hs as [Ha _]. congruence.
Qed.

(** [processArguments] always runs its loop to the end: the state it
    returns is halted, and it is the one the iterations lead to. *)
Lemma processArguments_halts st :
  halted (processArguments st toolName).1.
Proof. apply loop_halts. unfold measure, pending. case_bool_decide; lia. Qed.

Lemma processArguments_steps st :
  steps st (processArguments st toolName).2 (processArguments st toolName).1.
Proof.
  unfold processArguments.
  destruct (loop_sound (2 * (length (arguments st) - cursor st) + 1) st [])
    as (x & Hx & Hst).
  change ([] ++ x) with x in Hx. by rewrite Hx.
Qed.

Lemma steps_processArguments st x st' :
  steps st x st' -> halted st' -> processArguments st toolName = (st', x).
Proof.
  intros Hst Hh. unfold processArguments.
  rewrite (loop_steps _ _ _ _ _ Hst Hh); [done|].
  unfold measure, pending. case_bool_decide; lia.
Qed.

Lemma halted_processArguments st :
  halted st -> processArguments st toolName = (st, []).
Proof. intros. apply steps_processArguments; [constructor | done]. Qed.

End Loop.

(** ** The array of accumulated calls *)

Lemma array_get_set_eq {A} i (x : A) l : array_get (array_set i x l) i = Some x.
Proof.
  unfold array_get, array_set. case_decide as Hi.
  - by rewrite list_lookup_insert_eq.
  - rewrite lookup_app_r by lia. rewrite lookup_app_r by (rewrite length_replicate; lia).
    rewrite length_replicate. by replace (i - length l - (i - length l)) with 0 by lia.
Qed.

Lemma array_get_set_ne {A} i j (x : A) l :
  i ≠ j -> array_get (array_set i x l) j = array_get l j.
Proof.
  intros Hne. unfold array_get, array_set. case_decide as Hi.
  - by rewrite list_lookup_insert_ne.
  - destruct (decide (j < length l)) as [Hj|Hj].
    + by rewrite lookup_app_l.
    + rewrite (lookup_ge_None_2 l j) by lia. rewrite lookup_app_r by lia.
      destruct (decide (j - length l < i - length l)) as [Hk|Hk].
      * rewrite lookup_app_l by (rewrite length_replicate; lia).
        by rewrite lookup_replicate_2.
      * rewrite lookup_app_r by (rewrite length_replicate; lia).
        rewrite length_replicate.
        destruct (j - length l - (i - length l)) as [|k] eqn:Hk'; [lia|done].
Qed.

Lemma array_set_id {A} i (x : A) l : array_get l i = Some x -> array_set i x l = l.
Proof.
  unfold array_get, array_set. intros H.
  destruct (l !! i) as [o|] eqn:Hl; [|done]. simpl in H. subst o.
  rewrite decide_True by (by eapply lookup_lt_Some).
  by apply list_insert_id.
Qed.

Lemma array_set_length {A} i (x : A) l :
  length (array_set i x l) = Nat.max (length l) (S i).
Proof.
  unfold array_set. case_decide.
  - rewrite length_insert. lia.
  - rewrite !length_app, length_replicate. simpl. lia.
Qed.

(** ** The latches are not touched by the state machine *)

Lemma step_latches toolName st c st' out :
  step toolName st c = Next st' out ->
  functionNameOutputted st' = functionNameOutputted st
  /\ functionClosed st' = functionClosed st.
Proof.
  unfold step, stepStringValue, stepStringKey, switchAndAdvance,
    commitPrimitive, stepSwitch.
  repeat case_match; intros; simplify_eq; done.
Qed.

Lemma steps_latches toolName st x st' :
  steps toolName st x st' ->
  functionNameOutputted st' = functionNameOutputted st
  /\ functionClosed st' = functionClosed st.
Proof.
  induction 1 as [|st c st1 out st2 x Hc Hs Hst IH]; [done|].
  apply step_latches in Hs. destruct Hs, IH. split; congruence.
Qed.

Lemma processArguments_frame st toolName :
  arguments (processArguments st toolName).1 = arguments st
  /\ functionNameOutputted (processArguments st toolName).1 = functionNameOutputted st
  /\ functionClosed (processArguments st toolName).1 = functionClosed st.
Proof.
  pose proof (processArguments_steps toolName st) as H.
  split; [by eapply steps_arguments | by eapply steps_latches].
Qed.

Section SessionFacts.

Variable isToolSupported : jstr -> bool.

Lemma emitArguments_again toolCall state state1 out :
  emitArguments isToolSupported toolCall state = (state1, out) ->
  forall closed,
    emitArguments isToolSupported toolCall (set_functionClosed closed state1)
    = (set_functionClosed closed state1, []).
Proof.
  unfold emitArguments. intros H closed.
  destruct (isValidToolName isToolSupported (tc_name toolCall)) eqn:Hv; simpl in *.
  - destruct (functionNameOutputted state) eqn:Ho; simpl in *.
    + case_bool_decide as Hlen; simpl in *.
      * pose proof (processArguments_frame (set_arguments (tc_arguments toolCall) state)
                      (tc_name toolCall)) as (Ha & Hf & _).
        rewrite H in Ha, Hf. simpl in Ha, Hf. rewrite Hf, Ho, Ha. simpl.
        rewrite bool_decide_eq_false_2 by lia. done.
      * simplify_eq. rewrite Ho. simpl. by rewrite bool_decide_eq_false_2.
    + case_bool_decide as Hlen; simpl in *.
      * destruct (processArguments _ _) as [st' xml] eqn:Hp. simplify_eq.
        pose proof (processArguments_frame
                      (set_arguments (tc_arguments toolCall)
                         (set_functionNameOutputted true state))
                      (tc_name toolCall)) as (Ha & Hf & _).
        rewrite Hp in Ha, Hf. simpl in Ha, Hf. rewrite Hf, Ha. simpl.
        rewrite bool_decide_eq_false_2 by lia. done.
      * simplify_eq. simpl. rewrite bool_decide_eq_false_2 by lia. done.
  - destruct (functionNameOutputted state) eqn:Ho; simpl in *.
    + case_bool_decide as Hlen; simpl in *.
      * pose proof (processArguments_frame (set_arguments (tc_arguments toolCall) state)
                      (tc_name toolCall)) as (Ha & Hf & _).
        rewrite H in Ha, Hf. simpl in Ha, Hf. rewrite Hf, Ho, Ha. simpl.
        rewrite bool_decide_eq_false_2 by lia. done.
      * simplify_eq. rewrite Ho. simpl. by rewrite bool_decide_eq_false_2.
    + simplify_eq. by rewrite Ho.
Qed.

Lemma set_functionClosed_id st : set_functionClosed (functionClosed st) st = st.
Proof. by destruct st. Qed.

Lemma emitDelta_again toolCall state state2 out :
  emitDelta isToolSupported toolCall state = (state2, out) ->
  emitDelta isToolSupported toolCall state2 = (state2, []).
Proof.
  unfold emitDelta. intros H.
  destruct (emitArguments isToolSupported toolCall state) as [state1 out1] eqn:He.
  destruct (closeWhenComplete isToolSupported toolCall state1) as [st2 out2] eqn:Hc.
  simplify_eq.
  pose proof (emitArguments_again _ _ _ _ He) as Hagain.
  unfold closeWhenComplete in Hc.
  destruct (isValidToolName isToolSupported (tc_name toolCall)
            && negb (functionClosed state1)
            && bool_decide (length (bracketStack state1) = 0)
            && bool_decide (0 < cursor state1)) eqn:Hcond.
  - case_bool_decide as Hrem; simplify_eq.
    + rewrite Hagain. unfold closeWhenComplete. simpl.
      by rewrite andb_false_r.
    + rewrite <- (set_functionClosed_id state2) at 1. rewrite Hagain.
      rewrite set_functionClosed_id. unfold closeWhenComplete.
      rewrite Hcond. by rewrite bool_decide_eq_false_2.
  - simplify_eq.
    rewrite <- (set_functionClosed_id state2) at 1. rewrite Hagain.
    rewrite set_functionClosed_id. unfold closeWhenComplete. by rewrite Hcond.
Qed.

Lemma accumulate_empty toolCall i :
  accumulate toolCall (mkDelta i None None None) = toolCall.
Proof. by destruct toolCall. Qed.

Lemma processDelta_again p delta p1 i out :
  processDelta isToolSupported p delta = inr (p1, i, out) ->
  processDelta isToolSupported p1 (mkDelta (Some i) None None None) = inr (p1, i, []).
Proof.
  unfold processDelta. intros H.
  set (index := default 0 (d_index delta)) in *.
  set (p0 := match array_get (accumulatedToolCalls p) index with
             | Some _ => p | None => _ end) in *.
  destruct (array_get (accumulatedToolCalls p0) index) as [tc0|]; [|done].
  destruct (processingStates p0 !! index) as [st0|]; [|done].
  destruct (emitDelta isToolSupported (accumulate tc0 delta) st0) as [state2 out'] eqn:He.
  simplify_eq. simpl. rewrite array_get_set_eq. simpl.
  rewrite array_get_set_eq, lookup_insert_eq, accumulate_empty.
  rewrite (emitDelta_again _ _ _ _ He).
  rewrite array_set_id by apply array_get_set_eq.
  by rewrite insert_insert_eq.
Qed.

End SessionFacts.

(** C5 (idempotent resumption).  For every parser state, running the
    argument-advance operation [processArguments] a second time on the
    state the first run returned, with no new characters in the buffer,
    returns the empty fragment and leaves the state unchanged.  The same
    holds one level up: after any delta, a delta for the same index that
    brings no characters yields the empty fragment and the same
    processor. *)
Theorem idempotent_resumption :
  (forall (st : State) (toolName : jstr),
     processArguments (processArguments st toolName).1 toolName
     = ((processArguments st toolName).1, []))
  /\ (forall isToolSupported (p : Processor) (delta : Delta) p1 i out,
        processDelta isToolSupported p delta = inr (p1, i, out) ->
        processDelta isToolSupported p1 (mkDelta (Some i) None None None)
        = inr (p1, i, [])).
Proof.
  split.
  - intros st toolName. apply halted_processArguments, processArguments_halts.
  - intros. by eapply processDelta_again.
Qed.

(** ** Growing the buffer under a run

    [extend s2 st] is the state [st] once the delta [s2] has been appended
    to its buffer.  The iterations of a run read the buffer past the cursor
    in two places only: the escape sequence of a string value and the
    look-ahead of a colon. *)

Definition extend (s2 : jstr) (st : State) : State :=
  set_arguments (arguments st ++ s2) st.

Lemma firstNonWhitespace_app a b :
  firstNonWhitespace (a ++ b)
  = match firstNonWhitespace a with
    | Some c => Some c
    | None => firstNonWhitespace b
    end.
Proof. induction a as [|c a IH]; simpl; [done|]. by destruct (isSpace c). Qed.

Lemma firstNonWhitespace_None l :
  firstNonWhitespace l = None <-> Forall (λ c, isSpace c = true) l.
Proof.
  induction l as [|c l IH]; simpl.
  - split; [constructor | done].
  - destruct (isSpace c) eqn:Hc.
    + rewrite IH. split; [by constructor | by inversion 1].
    + split; [done | inversion 1; congruence].
Qed.

Lemma getFullEscapeSequence_extend str s2 pos esc :
  getFullEscapeSequence str pos = Some esc ->
  getFullEscapeSequence (str ++ s2) pos = Some esc.
Proof.
  unfold getFullEscapeSequence, substring. intros H.
  destruct (bool_decide (str !! pos = Some c_backslash)) eqn:H0; [|done].
  apply bool_decide_eq_true in H0. simpl in H.
  rewrite (bool_decide_eq_true_2 _ (lookup_app_l_Some _ _ _ _ H0)). simpl.
  case_bool_decide as H1; [done|].
  rewrite bool_decide_eq_false_2 by (rewrite length_app; lia).
  assert (forall k, k < length str -> (str ++ s2) !! k = str !! k) as Hl
    by (intros; by apply lookup_app_l).
  rewrite Hl by lia.
  case_bool_decide as H2.
  - case_bool_decide as H3; [done|].
    rewrite bool_decide_eq_false_2 by (rewrite length_app; lia).
    replace (take (pos + 6 - (pos + 2)) (drop (pos + 2) (str ++ s2)))
      with (take (pos + 6 - (pos + 2)) (drop (pos + 2) str)); [done|].
    rewrite drop_app_le by lia. rewrite take_app_le; [done|].
    rewrite length_drop. lia.
  - rewrite <- H. f_equal. rewrite drop_app_le by lia. rewrite take_app_le; [done|].
    rewrite length_drop. lia.
Qed.

(** The look-ahead of a colon gives the same answer on the longer buffer. *)
Definition lookaheadAgrees (s2 : jstr) (st : State) : Prop :=
  nextNonWhitespace (arguments st ++ s2) (cursor st + 1) = Some c_lbracket
  <-> nextNonWhitespace (arguments st) (cursor st + 1) = Some c_lbracket.

Lemma stepSwitch_extend toolName s2 st c :
  (c = c_colon -> parserState st = EXPECT_COLON -> lookaheadAgrees s2 st) ->
  stepSwitch toolName (extend s2 st) c
  = ((extend s2 (stepSwitch toolName st c).1), (stepSwitch toolName st c).2).
Proof.
  intros Hla. unfold stepSwitch.
  destruct (c =? c_colon)%N eqn:Hc.
  - apply N.eqb_eq in Hc. subst c. simpl.
    destruct (bool_decide (parserState st = EXPECT_COLON)) eqn:Hp; [|done].
    apply bool_decide_eq_true in Hp. specialize (Hla eq_refl Hp).
    unfold lookaheadAgrees in Hla. simpl.
    replace (bool_decide (nextNonWhitespace (arguments st ++ s2) (cursor st + 1)
                          ≠ Some c_lbracket))
      with (bool_decide (nextNonWhitespace (arguments st) (cursor st + 1)
                          ≠ Some c_lbracket)); [by case_bool_decide|].
    apply bool_decide_ext. by rewrite Hla.
  - clear Hla. unfold extend, xmlLevel. simpl.
    repeat case_match; simplify_eq; (done || congruence).
Qed.

Lemma step_extend toolName s2 st c st' out :
  arguments st !! cursor st = Some c ->
  (inString st = false -> c = c_colon -> parserState st = EXPECT_COLON ->
   lookaheadAgrees s2 st) ->
  step toolName st c = Next st' out ->
  step toolName (extend s2 st) c = Next (extend s2 st') out.
Proof.
  intros Hc Hla. unfold step. simpl.
  destruct (inString st) eqn:Hin.
  - destruct (isStreamingStringValue st) eqn:Hsv.
    + unfold stepStringValue. simpl.
      destruct (c =? c_backslash)%N.
      * destruct (getFullEscapeSequence (arguments st) (cursor st)) as [esc|] eqn:He;
          [|done].
        rewrite (getFullEscapeSequence_extend _ s2 _ _ He). by intros [= <- <-].
      * repeat case_match; intros; simplify_eq; done.
    + unfold stepStringKey. simpl. repeat case_match; intros; simplify_eq; done.
  - specialize (Hla eq_refl).
    destruct (isSpace c); [by intros [= <- <-]|].
    assert (forall st0, arguments st0 = arguments st -> cursor st0 = cursor st ->
                        parserState st0 = parserState st ->
              forall st1 o, switchAndAdvance toolName st0 c = Next st1 o ->
              switchAndAdvance toolName (extend s2 st0) c = Next (extend s2 st1) o)
      as Hsw.
    { intros st0 Ha Hcur Hps st1 o. unfold switchAndAdvance.
      rewrite stepSwitch_extend.
      - destruct (stepSwitch toolName st0 c) as [sa oa]. simpl. by intros [= <- <-].
      - intros -> Hp. unfold lookaheadAgrees. rewrite Ha, Hcur. apply Hla; congruence. }
    destruct (bool_decide (parserState st = EXPECT_VALUE)); [|by apply Hsw].
    destruct (isPrimitiveChar c); [by intros [= <- <-]|].
    destruct (bool_decide (0 < length (primitiveBuffer st))); [|by apply Hsw].
    destruct (isValidPrimitive (trim (primitiveBuffer st))); [|by apply Hsw].
    unfold commitPrimitive. simpl.
    repeat case_match; intros; simplify_eq; done.
Qed.

Lemma halted_or_char st :
  arguments st !! cursor st = None \/ exists c, arguments st !! cursor st = Some c.
Proof. destruct (arguments st !! cursor st); eauto. Qed.

(** Outside a string, over a buffer whose rest is whitespace, a run only
    skips. *)
Lemma steps_whitespace toolName st x st' :
  steps toolName st x st' ->
  inString st = false ->
  (forall i c, cursor st <= i -> arguments st !! i = Some c -> isSpace c = true) ->
  inString st' = false.
Proof.
  induction 1 as [|st c st1 out st2 x Hc Hs Hst IH]; intros Hin Hws; [done|].
  pose proof (Hws _ _ (le_n _) Hc) as Hsp.
  unfold step in Hs. rewrite Hin, Hsp in Hs. simplify_eq.
  apply IH; [done|]. simpl. intros i c' Hi. apply Hws. lia.
Qed.

Lemma lookahead_exhausted st i c :
  nextNonWhitespace (arguments st) (cursor st + 1) = None ->
  cursor st + 1 <= i -> arguments st !! i = Some c -> isSpace c = true.
Proof.
  unfold nextNonWhitespace. rewrite firstNonWhitespace_None, Forall_lookup.
  intros H Hi Hc. apply (H (i - (cursor st + 1))).
  rewrite lookup_drop. by replace (cursor st + 1 + (i - (cursor st + 1))) with i by lia.
Qed.

Lemma lookahead_found s2 st d :
  nextNonWhitespace (arguments st) (cursor st + 1) = Some d ->
  cursor st < length (arguments st) ->
  lookaheadAgrees s2 st.
Proof.
  unfold lookaheadAgrees, nextNonWhitespace. intros H Hlt.
  rewrite drop_app_le by lia. rewrite firstNonWhitespace_app, H. done.
Qed.

(** A run that ends inside a string never looked past the end of the
    buffer at a colon, so it is also a run of the longer buffer. *)
Lemma steps_extend_inString toolName s2 st x st' :
  steps toolName st x st' ->
  inString st' = true ->
  steps toolName (extend s2 st) x (extend s2 st').
Proof.
  induction 1 as [|st c st1 out st2 x Hc Hs Hst IH]; intros Hin; [constructor|].
  eapply steps_step; [| |by apply IH].
  - simpl. by apply lookup_app_l_Some.
  - eapply step_extend; [done| |done].
    intros Hout -> Hps.
    destruct (nextNonWhitespace (arguments st) (cursor st + 1)) as [d|] eqn:Hla.
    + eapply lookahead_found; [done|]. by eapply lookup_lt_Some.
    + exfalso.
      unfold step in Hs. rewrite Hout in Hs. simpl in Hs.
      rewrite bool_decide_eq_false_2 in Hs by congruence.
      unfold switchAndAdvance, stepSwitch in Hs. simpl in Hs.
      rewrite bool_decide_eq_true_2 in Hs by done. simplify_eq.
      assert (inString st2 = false) as Hf; [|congruence].
      eapply steps_whitespace; [exact Hst | done |].
      simpl. intros i c Hi. apply (lookahead_exhausted st); [done | lia].
Qed.

(** The same for any run when the delta does not start, after whitespace,
    with an opening bracket. *)
Lemma steps_extend_noBracket toolName s2 st x st' :
  steps toolName st x st' ->
  firstNonWhitespace s2 ≠ Some c_lbracket ->
  steps toolName (extend s2 st) x (extend s2 st').
Proof.
  induction 1 as [|st c st1 out st2 x Hc Hs Hst IH]; intros Hs2; [constructor|].
  eapply steps_step; [| |by apply IH].
  - simpl. by apply lookup_app_l_Some.
  - eapply step_extend; [done| |done].
    intros Hout -> Hps. apply lookup_lt_Some in Hc.
    unfold lookaheadAgrees, nextNonWhitespace.
    rewrite drop_app_le by lia. rewrite firstNonWhitespace_app.
    destruct (firstNonWhitespace (drop (cursor st + 1) (arguments st))) eqn:Hla;
      [done|]. split; [done|intros [=]].
Qed.

Lemma processArguments_split toolName s2 st :
  steps toolName (extend s2 st) (processArguments st toolName).2
    (extend s2 (processArguments st toolName).1) ->
  processArguments (extend s2 st) toolName
  = ((processArguments (extend s2 (processArguments st toolName).1) toolName).1,
     (processArguments st toolName).2
     ++ (processArguments (extend s2 (processArguments st toolName).1) toolName).2).
Proof.
  intros H. apply steps_processArguments.
  - eapply steps_trans; [exact H | apply processArguments_steps].
  - apply processArguments_halts.
Qed.

(** ** Literals for the examples

    [jsq] writes a JSON text with single quotes in the place of the double
    quotes.  [testRegistry] recognises the tool names of the unit tests. *)

Definition jsq (s : string) : jstr :=
  List.map (λ c, if (c =? 39)%N then c_quote else c) (js s).

Definition testRegistry (name : jstr) : bool :=
  existsb (jstr_eqb name)
    [js "read_file"; js "write_to_file"; js "search_files"; js "list_files";
     js "execute_command"; js "browser_action"; js "use_mcp_tool";
     js "access_mcp_resource"; js "ask_followup_question";
     js "attempt_completion"; js "apply_diff"].

(** A delta as the tests write it: index, id, name, arguments. *)
Definition delta (index : nat) (id name args : jstr) : Delta :=
  mkDelta (Some index) (Some id) (Some name) (Some args).

(** ** Escape sequences of a streamed string value *)

Lemma simpleEscape_cases e d :
  simpleEscape e = Some d ->
  (e, d) ∈ [(34, 34); (92, 92); (47, 47); (98, 8); (102, 12); (110, 10);
            (114, 13); (116, 9)]%N.
Proof.
  unfold simpleEscape.
  repeat (case_match; [match goal with H : (_ =? _)%N = true |- _ =>
                         apply N.eqb_eq in H; subst end;
                       intros [= <-]; set_solver|]).
  done.
Qed.

Lemma parseStringOr_simpleEscape e d fallback :
  simpleEscape e = Some d -> parseStringOr [c_backslash; e] fallback = [d].
Proof.
  intros H. apply simpleEscape_cases in H.
  repeat (apply elem_of_cons in H as [[= -> ->]|H]; [reflexivity|]).
  by apply elem_of_nil in H.
Qed.

Lemma getFullEscapeSequence_simple args pos e d :
  args !! pos = Some c_backslash -> args !! (pos + 1) = Some e ->
  simpleEscape e = Some d ->
  getFullEscapeSequence args pos = Some [c_backslash; e].
Proof.
  intros H0 H1 Hd. unfold getFullEscapeSequence, substring.
  rewrite bool_decide_eq_true_2 by done. simpl.
  pose proof (lookup_lt_Some _ _ _ H1).
  rewrite bool_decide_eq_false_2 by lia.
  rewrite bool_decide_eq_false_2.
  - replace (pos + 2 - pos) with 2 by lia.
    rewrite (drop_S _ _ _ H0). simpl.
    replace (S pos) with (pos + 1) by lia. by rewrite (drop_S _ _ _ H1).
  - rewrite H1. intros [= ->]. done.
Qed.

Lemma getFullEscapeSequence_incomplete args pos :
  length args <= pos + 1
  \/ args !! (pos + 1) = Some c_u /\ length args <= pos + 5 ->
  getFullEscapeSequence args pos = None.
Proof.
  intros H. unfold getFullEscapeSequence.
  destruct (bool_decide (args !! pos = Some c_backslash)); [simpl|done].
  case_bool_decide; [done|]. destruct H as [H|[Hu H]]; [lia|].
  rewrite bool_decide_eq_true_2 by done. by rewrite bool_decide_eq_true_2.
Qed.

(** What a complete escape sequence at position [pos] of the buffer
    denotes: [escapeAt buf pos n d] when the backslash at [pos] starts a
    two-character escape or a unicode escape with four hexadecimal digits,
    [n] code units long, that stands for the code unit [d]. *)
Inductive escapeAt (buf : jstr) (pos : nat) : nat -> N -> Prop :=
| escapeAt_simple e d :
    buf !! (pos + 1) = Some e -> simpleEscape e = Some d ->
    escapeAt buf pos 2 d
| escapeAt_unicode h1 h2 h3 h4 v1 v2 v3 v4 :
    buf !! (pos + 1) = Some c_u ->
    buf !! (pos + 2) = Some h1 -> buf !! (pos + 3) = Some h2 ->
    buf !! (pos + 4) = Some h3 -> buf !! (pos + 5) = Some h4 ->
    hexValue h1 = Some v1 -> hexValue h2 = Some v2 ->
    hexValue h3 = Some v3 -> hexValue h4 = Some v4 ->
    escapeAt buf pos 6 (((v1 * 16 + v2) * 16 + v3) * 16 + v4)%N.

Lemma parseStringOr_unicode h1 h2 h3 h4 v1 v2 v3 v4 fallback :
  hexValue h1 = Some v1 -> hexValue h2 = Some v2 ->
  hexValue h3 = Some v3 -> hexValue h4 = Some v4 ->
  parseStringOr [c_backslash; c_u; h1; h2; h3; h4] fallback
  = [(((v1 * 16 + v2) * 16 + v3) * 16 + v4)%N].
Proof.
  intros H1 H2 H3 H4. unfold parseStringOr, JSON_parse.
  cbn -[hexValue N.mul N.add]. rewrite H1. cbn -[hexValue N.mul N.add].
  rewrite H2. cbn -[hexValue N.mul N.add]. rewrite H3. cbn -[hexValue N.mul N.add].
  rewrite H4. cbn -[hexValue N.mul N.add]. reflexivity.
Qed.

Lemma getFullEscapeSequence_unicode args pos h1 h2 h3 h4 :
  args !! pos = Some c_backslash -> args !! (pos + 1) = Some c_u ->
  args !! (pos + 2) = Some h1 -> args !! (pos + 3) = Some h2 ->
  args !! (pos + 4) = Some h3 -> args !! (pos + 5) = Some h4 ->
  forallb isHex [h1; h2; h3; h4] = true ->
  getFullEscapeSequence args pos = Some [c_backslash; c_u; h1; h2; h3; h4].
Proof.
  intros H0 H1 H2 H3 H4 H5 Hhex. unfold getFullEscapeSequence, substring.
  rewrite bool_decide_eq_true_2 by done. simpl.
  pose proof (lookup_lt_Some _ _ _ H5).
  rewrite bool_decide_eq_false_2 by lia.
  rewrite bool_decide_eq_true_2 by done.
  rewrite bool_decide_eq_false_2 by lia.
  replace (pos + 6 - (pos + 2)) with 4 by lia.
  assert (take 4 (drop (pos + 2) args) = [h1; h2; h3; h4]) as ->; [|by rewrite Hhex].
  rewrite (drop_S _ _ _ H2). replace (S (pos + 2)) with (pos + 3) by lia.
  rewrite (drop_S _ _ _ H3). replace (S (pos + 3)) with (pos + 4) by lia.
  rewrite (drop_S _ _ _ H4). replace (S (pos + 4)) with (pos + 5) by lia.
  by rewrite (drop_S _ _ _ H5).
Qed.

Lemma hexValue_isHex c v : hexValue c = Some v -> isHex c = true.
Proof. unfold isHex. by intros ->. Qed.

(** Inside a streamed string value, an iteration at the backslash of a
    complete escape consumes the whole sequence and emits the code unit it
    denotes. *)
Lemma step_escapeAt toolName st n d :
  inString st = true -> isStreamingStringValue st = true ->
  arguments st !! cursor st = Some c_backslash ->
  escapeAt (arguments st) (cursor st) n d ->
  step toolName st c_backslash = Next (set_cursor (cursor st + n) st) [d].
Proof.
  intros Hin Hsv Hc He. unfold step, stepStringValue. rewrite Hin, Hsv. simpl.
  destruct He as [e d He Hd|h1 h2 h3 h4 v1 v2 v3 v4 Hu H1 H2 H3 H4 V1 V2 V3 V4].
  - rewrite (getFullEscapeSequence_simple _ _ _ _ Hc He Hd).
    by rewrite (parseStringOr_simpleEscape _ _ _ Hd).
  - rewrite (getFullEscapeSequence_unicode _ _ _ _ _ _ Hc Hu H1 H2 H3 H4).
    + by rewrite (parseStringOr_unicode _ _ _ _ _ _ _ _ _ V1 V2 V3 V4).
    + simpl. by rewrite (hexValue_isHex _ _ V1), (hexValue_isHex _ _ V2),
        (hexValue_isHex _ _ V3), (hexValue_isHex _ _ V4).
Qed.

(** C6 (escape sequences across chunk boundaries).  (1) When the buffer
    of the first delta ends inside a string, for instance in the middle of
    an escape sequence of a string value, feeding the second delta
    afterwards gives the state and the text of a single-shot run over the
    whole buffer.  (2) At an escape the buffer does not hold completely (a
    lone backslash, or a unicode escape with fewer than four characters
    behind it) the run stops at the backslash: nothing is emitted and the
    state, cursor included, is unchanged.  (3) At a complete escape, be it
    a two-character escape or a unicode escape with its four hexadecimal
    digits, an iteration emits the code unit the escape denotes and moves
    the cursor past the whole sequence.  (4) So the run over the buffer
    completed by the second delta resumes at the backslash where the
    first run stopped: it consumes the escape whole, emits the code unit it
    denotes, and goes on behind it. *)
Theorem escape_across_chunks :
  (forall (toolName : jstr) (st : State) (s2 : jstr),
     inString (processArguments st toolName).1 = true ->
     processArguments (extend s2 st) toolName
     = ((processArguments (extend s2 (processArguments st toolName).1) toolName).1,
        (processArguments st toolName).2
        ++ (processArguments (extend s2 (processArguments st toolName).1) toolName).2))
  /\ (forall (toolName : jstr) (st : State),
        inString st = true -> isStreamingStringValue st = true ->
        arguments st !! cursor st = Some c_backslash ->
        (length (arguments st) <= cursor st + 1
         \/ arguments st !! (cursor st + 1) = Some c_u
            /\ length (arguments st) <= cursor st + 5) ->
        processArguments st toolName = (st, []))
  /\ (forall (toolName : jstr) (st : State) (n : nat) (d : N),
        inString st = true -> isStreamingStringValue st = true ->
        arguments st !! cursor st = Some c_backslash ->
        escapeAt (arguments st) (cursor st) n d ->
        step toolName st c_backslash = Next (set_cursor (cursor st + n) st) [d])
  /\ (forall (toolName : jstr) (st : State) (s2 : jstr) (n : nat) (d : N),
        inString st = true -> isStreamingStringValue st = true ->
        arguments st !! cursor st = Some c_backslash ->
        escapeAt (arguments st ++ s2) (cursor st) n d ->
        processArguments (extend s2 st) toolName
        = ((processArguments (set_cursor (cursor st + n) (extend s2 st)) toolName).1,
           [d] ++ (processArguments (set_cursor (cursor st + n) (extend s2 st))
                     toolName).2)).
Proof.
  split; [|split; [|split]].
  - intros toolName st s2 Hin. apply processArguments_split.
    apply steps_extend_inString; [apply processArguments_steps | done].
  - intros toolName st Hin Hsv Hc Hinc. apply halted_processArguments.
    unfold halted, step, stepStringValue. rewrite Hc, Hin, Hsv. simpl.
    by rewrite getFullEscapeSequence_incomplete.
  - intros toolName st n d. apply step_escapeAt.
  - intros toolName st s2 n d Hin Hsv Hc He.
    apply steps_processArguments; [|apply processArguments_halts].
    eapply steps_step.
    + simpl. by apply lookup_app_l_Some.
    + apply (step_escapeAt toolName (extend s2 st) n d); try done.
      simpl. by apply lookup_app_l_Some.
    + apply processArguments_steps.
Qed.

(** The examples of the specification: a string value whose newline
    escape is cut after the backslash, and one whose unicode escape is cut
    after two of its four digits. *)
Definition escapeFirstChunk : State :=
  set_arguments (jsq "{'k':'a" ++ [c_backslash]) newState.

Definition unicodeFirstChunk : State :=
  (processArguments (set_arguments (jsq "{'k':'a" ++ [c_backslash] ++ js "u00") newState)
     (js "read_file")).1.

Lemma escape_across_chunks_witness :
  (inString (processArguments escapeFirstChunk (js "read_file")).1 = true
   /\ (processArguments (extend (jsq "n b'}") escapeFirstChunk) (js "read_file")).2
      = [c_nl] ++ js "<k>a" ++ [c_nl] ++ js " b</k>" ++ [c_nl])
  /\ (cursor unicodeFirstChunk = 7
      /\ processArguments unicodeFirstChunk (js "read_file") = (unicodeFirstChunk, [])
      /\ (processArguments (extend (jsq "41 b'}") unicodeFirstChunk) (js "read_file")).2
         = js "A b</k>" ++ [c_nl]).
Proof.
  split.
  - split; [vm_compute; reflexivity|].
    rewrite (proj1 escape_across_chunks (js "read_file") escapeFirstChunk
               (jsq "n b'}")); vm_compute; reflexivity.
  - split; [vm_compute; reflexivity|]. split.
    + apply (proj1 (proj2 escape_across_chunks) (js "read_file") unicodeFirstChunk).
      * vm_compute. reflexivity.
      * vm_compute. reflexivity.
      * vm_compute. reflexivity.
      * right. split; [vm_compute; reflexivity | vm_compute; lia].
    + rewrite (proj2 (proj2 (proj2 escape_across_chunks)) (js "read_file")
                 unicodeFirstChunk (jsq "41 b'}") 6 65%N).
      * vm_compute. reflexivity.
      * vm_compute. reflexivity.
      * vm_compute. reflexivity.
      * vm_compute. reflexivity.
      * apply (escapeAt_unicode _ _ 48 48 52 49 0 0 4 1)%N; vm_compute; reflexivity.
Defined.

(** ** Sessions: consistency of the two stores *)

Section SessionProperties.

Variable isToolSupported : jstr -> bool.

(** Every accumulated call has its processing state. *)
Definition consistent (p : Processor) : Prop :=
  forall i tc, array_get (accumulatedToolCalls p) i = Some tc ->
               is_Some (processingStates p !! i).

Lemma processDelta_inv p delta p' i out :
  processDelta isToolSupported p delta = inr (p', i, out) ->
  i = default 0 (d_index delta)
  /\ exists tc0 st0 p0,
      array_get (accumulatedToolCalls p0) i = Some tc0
      /\ processingStates p0 !! i = Some st0
      /\ (array_get (accumulatedToolCalls p) i = None ->
          tc0 = mkToolCall (default [] (d_id delta)) [] [] /\ st0 = newState)
      /\ (forall tc, array_get (accumulatedToolCalls p) i = Some tc ->
          tc0 = tc /\ processingStates p !! i = Some st0)
      /\ (forall j, j ≠ i ->
          array_get (accumulatedToolCalls p0) j = array_get (accumulatedToolCalls p) j
          /\ processingStates p0 !! j = processingStates p !! j)
      /\ emitDelta isToolSupported (accumulate tc0 delta) st0
         = (default newState (processingStates p' !! i), out)
      /\ p' = mkProcessor
                (array_set i (accumulate tc0 delta) (accumulatedToolCalls p0))
                (<[i := default newState (processingStates p' !! i)]>
                   (processingStates p0)).
Proof.
  unfold processDelta. intros H.
  set (index := default 0 (d_index delta)) in *.
  destruct (array_get (accumulatedToolCalls p) index) as [tc|] eqn:Hg.
  - rewrite Hg in H.
    destruct (processingStates p !! index) as [st0|] eqn:Hs; [|done].
    destruct (emitDelta _ _ _) as [state2 out'] eqn:He. simplify_eq.
    split; [done|]. exists tc, st0, p. simpl. rewrite lookup_insert_eq. simpl.
    repeat split; try done; congruence.
  - simpl in H. rewrite array_get_set_eq, lookup_insert_eq in H.
    destruct (emitDelta _ _ _) as [state2 out'] eqn:He. simplify_eq.
    split; [done|].
    eexists _, _, (mkProcessor _ _). simpl.
    rewrite array_get_set_eq, !lookup_insert_eq. simpl.
    split; [done|]. split; [done|]. split; [done|].
    split; [intros; congruence|]. split; [|done].
    intros j Hne. split; [by apply array_get_set_ne | by apply lookup_insert_ne].
Qed.

Lemma processDelta_frame p delta p' i out j :
  processDelta isToolSupported p delta = inr (p', i, out) -> j ≠ i ->
  array_get (accumulatedToolCalls p') j = array_get (accumulatedToolCalls p) j
  /\ processingStates p' !! j = processingStates p !! j.
Proof.
  intros H Hne. apply processDelta_inv in H
    as (_ & tc0 & st0 & p0 & _ & _ & _ & _ & Hfr & _ & ->).
  simpl. rewrite array_get_set_ne by done. rewrite lookup_insert_ne by done.
  by apply Hfr.
Qed.

Lemma processDelta_consistent p delta :
  consistent p ->
  exists p' out,
    processDelta isToolSupported p delta
    = inr (p', default 0 (d_index delta), out) /\ consistent p'.
Proof.
  intros Hp. unfold processDelta.
  set (index := default 0 (d_index delta)) in *.
  set (p0 := match array_get (accumulatedToolCalls p) index with
             | Some _ => p | None => _ end).
  assert (consistent p0) as Hp0.
  { subst p0. destruct (array_get (accumulatedToolCalls p) index) eqn:Hg; [done|].
    intros i tc. simpl. destruct (decide (i = index)) as [->|Hne].
    - by rewrite lookup_insert_eq.
    - rewrite array_get_set_ne, lookup_insert_ne by done. apply Hp. }
  assert (is_Some (array_get (accumulatedToolCalls p0) index)) as [tc0 Htc0].
  { subst p0. destruct (array_get (accumulatedToolCalls p) index) eqn:Hg; [by eexists|].
    simpl. rewrite array_get_set_eq. by eexists. }
  rewrite Htc0. destruct (Hp0 _ _ Htc0) as [st0 Hst0]. rewrite Hst0.
  destruct (emitDelta _ _ _) as [state2 out'].
  eexists _, _. split; [done|].
  intros i tc. simpl. destruct (decide (i = index)) as [->|Hne].
  - by rewrite lookup_insert_eq.
  - rewrite array_get_set_ne, lookup_insert_ne by done. apply Hp0.
Qed.

Lemma processDeltas_consistent chunk p index xmlOutput :
  consistent p ->
  exists p' index' out,
    processDeltas isToolSupported p index xmlOutput chunk = inr (p', index', out)
    /\ consistent p'.
Proof.
  revert p index xmlOutput.
  induction chunk as [|d chunk IH]; intros p index xmlOutput Hp; simpl.
  - by eexists _, _, _.
  - destruct (processDelta_consistent p d Hp) as (p' & out & -> & Hp').
    by apply IH.
Qed.

Lemma consistent_insert p i st :
  consistent p ->
  consistent (mkProcessor (accumulatedToolCalls p) (<[i := st]> (processingStates p))).
Proof.
  intros Hp j tc Hj. simpl in *. destruct (decide (j = i)) as [->|Hne].
  - by rewrite lookup_insert_eq.
  - rewrite lookup_insert_ne by done. by eapply Hp.
Qed.

Lemma finalizeAt_consistent p i :
  consistent p -> consistent (finalizeAt isToolSupported p i).1.
Proof.
  intros Hp. unfold finalizeAt.
  repeat case_match; simplify_eq; simpl; try done; by apply consistent_insert.
Qed.

Lemma finalizeFrom_consistent indices p finalXml :
  consistent p -> consistent (finalizeFrom isToolSupported p finalXml indices).1.
Proof.
  revert p finalXml. induction indices as [|i indices IH]; intros p x Hp; simpl; [done|].
  pose proof (finalizeAt_consistent p i Hp) as H.
  destruct (finalizeAt isToolSupported p i) as [p' out]. by apply IH.
Qed.

(** The processors a caller can hold: a new one, and what the public
    methods leave behind. *)
Inductive reachable : Processor -> Prop :=
| reachable_new : reachable newProcessor
| reachable_chunk p chunk p' r :
    reachable p ->
    processChunkTool isToolSupported p chunk (js "openai") = inr (p', r) ->
    reachable p'
| reachable_finalize p :
    reachable p -> reachable (finalize isToolSupported p).1
| reachable_reset p :
    reachable p -> reachable (reset p).

Lemma reachable_consistent p : reachable p -> consistent p.
Proof.
  induction 1 as [|p chunk p' r Hr IH Hc|p Hr IH|p Hr IH].
  - intros i tc H. by destruct i.
  - unfold processChunkTool, processChunkOpenAIFormat in Hc.
    change (jstr_eqb (js "openai") (js "openai")) with true in Hc. simpl in Hc.
    destruct (processDeltas_consistent chunk p 0 [] IH) as (p1 & i1 & o1 & Hd & Hp1).
    rewrite Hd in Hc. by simplify_eq.
  - by apply finalizeFrom_consistent.
  - intros i tc H. by destruct i.
Qed.

End SessionProperties.

(** ** Unknown tools *)

Section UnknownTool.

Variable isToolSupported : jstr -> bool.

Lemma emitDelta_unknown toolCall state :
  isValidToolName isToolSupported (tc_name toolCall) = false ->
  functionNameOutputted state = false ->
  emitDelta isToolSupported toolCall state = (state, []).
Proof.
  intros Hv Ho. unfold emitDelta, emitArguments, closeWhenComplete.
  by rewrite Hv, Ho.
Qed.

(** C3 (unknown tool suppression), amended.  For an index whose function
    tag has not been opened (no accumulated name was recognised so far) and
    whose accumulated name is not recognised after the delta either, the
    delta yields the empty fragment and leaves the tag unopened; [finalize]
    yields nothing for the index; and the structured result read at the
    index has the empty tool name and no content. *)
Theorem unknown_tool_suppression (p : Processor) (delta : Delta) p' i out :
  processDelta isToolSupported p delta = inr (p', i, out) ->
  (forall st, processingStates p !! i = Some st -> functionNameOutputted st = false) ->
  (forall tc, array_get (accumulatedToolCalls p') i = Some tc ->
              isValidToolName isToolSupported (tc_name tc) = false) ->
  out = []
  /\ (exists st', processingStates p' !! i = Some st'
                  /\ functionNameOutputted st' = false)
  /\ (finalizeAt isToolSupported p' i).2 = []
  /\ resultToolName isToolSupported p' i = []
  /\ resultAnthropicContent isToolSupported p' i = None.
Proof.
  intros H Hno Hinv.
  apply processDelta_inv in H
    as (_ & tc0 & st0 & p0 & Htc0 & Hst0 & Hnew & Hold & _ & He & Hp').
  assert (array_get (accumulatedToolCalls p') i = Some (accumulate tc0 delta)) as Hget.
  { rewrite Hp'. simpl. apply array_get_set_eq. }
  pose proof (Hinv _ Hget) as Hv.
  assert (functionNameOutputted st0 = false) as Ho.
  { destruct (array_get (accumulatedToolCalls p) i) as [tc|] eqn:Hg.
    - destruct (Hold _ eq_refl) as [_ Hs]. by apply Hno.
    - by destruct (Hnew eq_refl) as [_ ->]. }
  rewrite (emitDelta_unknown _ _ Hv Ho) in He. injection He as Hst' Hout.
  assert (processingStates p' !! i = Some st0) as Hlk.
  { rewrite Hp'. simpl. rewrite lookup_insert_eq. by rewrite <- Hst'. }
  split; [done|]. split; [by exists st0|].
  unfold finalizeAt, resultToolName, resultAnthropicContent.
  rewrite Hget, Hlk, Hv. simpl. by destruct (functionClosed st0).
Qed.

End UnknownTool.

(** A name that is recognised when the tag is opened and grows into an
    unknown name afterwards: the arguments are still transcoded. *)
Lemma unknown_tool_counterexample :
  match processChunkTool testRegistry newProcessor
          [delta 0 (js "1") (js "read_file") (jsq "{'a':")] (js "openai") with
  | inr (p1, _) =>
    match processChunkTool testRegistry p1
            [delta 0 (js "1") (js "x") (jsq "1}")] (js "openai") with
    | inr (p2, r) =>
      option_map tc_name (array_get (accumulatedToolCalls p2) 0)
      = Some (js "read_filex")
      /\ isValidToolName testRegistry (js "read_filex") = false
      /\ chunkContent r = js "1</a>" ++ [c_nl]
    | inl _ => False
    end
  | inl _ => False
  end.
Proof. vm_compute. repeat split. Qed.

Lemma unknown_tool_suppression_witness :
  processDelta testRegistry newProcessor
    (delta 0 (js "1") (js "invalid_tool") (jsq "{'msg':'hello'}"))
  = inr (mkProcessor [Some (mkToolCall (js "1") (js "invalid_tool")
                              (jsq "{'msg':'hello'}"))]
           (<[0 := newState]> ∅), 0, [])
  /\ (finalizeAt testRegistry
        (mkProcessor [Some (mkToolCall (js "1") (js "invalid_tool")
                              (jsq "{'msg':'hello'}"))]
           (<[0 := newState]> ∅)) 0).2 = [].
Proof.
  assert (processDelta testRegistry newProcessor
            (delta 0 (js "1") (js "invalid_tool") (jsq "{'msg':'hello'}"))
          = inr (mkProcessor [Some (mkToolCall (js "1") (js "invalid_tool")
                                      (jsq "{'msg':'hello'}"))]
                   (<[0 := newState]> ∅), 0, [])) as H
    by (vm_compute; reflexivity).
  split; [exact H|].
  refine (proj1 (proj2 (proj2 (unknown_tool_suppression testRegistry _ _ _ _ _ H _ _)))).
  - intros st Hst. vm_compute in Hst. discriminate.
  - intros tc Htc. vm_compute in Htc. injection Htc as <-. vm_compute. reflexivity.
Defined.

(** ** No exception *)

(** C8 (no exception escapes the core), amended.  With the provider type
    [openai], the only one the methods accept, [processChunkTool] and
    [processChunk] return normally on every processor a caller can hold
    and every chunk, and leave such a processor behind; ([finalize] and
    [tryBuildTemporaryJson] are total functions without an error result,
    every [JSON.parse] of theirs being caught).  With any other provider
    type both methods throw [Unsupported provider type]. *)
Theorem no_exception_openai isToolSupported (p : Processor) (chunk : list Delta) :
  reachable isToolSupported p ->
  (exists p' r,
     processChunkTool isToolSupported p chunk (js "openai") = inr (p', r)
     /\ processChunk isToolSupported p chunk (js "openai") = inr (p', chunkContent r)
     /\ reachable isToolSupported p')
  /\ (forall providerType, providerType ≠ js "openai" ->
        processChunkTool isToolSupported p chunk providerType
        = inl (UnsupportedProviderType providerType)
        /\ processChunk isToolSupported p chunk providerType
           = inl (UnsupportedProviderType providerType)).
Proof.
  intros Hr. split.
  - pose proof (reachable_consistent _ _ Hr) as Hc.
    destruct (processDeltas_consistent isToolSupported chunk p 0 [] Hc)
      as (p1 & i1 & o1 & Hd & Hp1).
    assert (processChunkTool isToolSupported p chunk (js "openai")
            = inr (p1, mkToolCallParam (js "openai")
                         (resultToolName isToolSupported p1 i1)
                         (resultToolUserId p1 i1) o1
                         (resultAnthropicContent isToolSupported p1 i1)
                         (accumulatedToolCalls p1))) as Ht.
    { unfold processChunkTool, processChunkOpenAIFormat.
      change (jstr_eqb (js "openai") (js "openai")) with true. cbv iota.
      by rewrite Hd. }
    eexists _, _. split; [exact Ht|]. split.
    + unfold processChunk, processChunkOpenAIFormat.
      change (jstr_eqb (js "openai") (js "openai")) with true. cbv iota.
      by rewrite Hd.
    + by eapply reachable_chunk.
  - intros providerType Hne. unfold processChunkTool, processChunk, jstr_eqb.
    by rewrite bool_decide_eq_false_2.
Qed.

Lemma no_exception_counterexample :
  processChunk testRegistry newProcessor
    [delta 0 (js "1") (js "read_file") (jsq "{'msg':'hello'}")] (js "anthropic")
  = inl (UnsupportedProviderType (js "anthropic")).
Proof. reflexivity. Qed.

Lemma no_exception_openai_witness :
  reachable testRegistry newProcessor
  /\ exists p' r,
       processChunkTool testRegistry newProcessor
         [delta 0 (js "1") (js "attempt_completion") (jsq "{'a':")] (js "openai")
       = inr (p', r).
Proof.
  split; [constructor|].
  destruct (proj1 (no_exception_openai testRegistry newProcessor
              [delta 0 (js "1") (js "attempt_completion") (jsq "{'a':")]
              (reachable_new testRegistry))) as (p' & r & H & _).
  by exists p', r.
Defined.

(** ** Whole sessions *)

(** [xml "..."] writes an expected output: a vertical bar stands for a
    line feed and a tilde for a tab. *)
Definition xml (s : string) : jstr :=
  List.map (λ c, if (c =? 124)%N then c_nl else if (c =? 126)%N then c_tab else c)
    (js s).

(** The chunks fed one after the other to [processChunk], then
    [finalize]: the concatenation of everything the caller receives. *)
Fixpoint processChunks (isToolSupported : jstr -> bool) (p : Processor)
    (chunks : list (list Delta)) (received : jstr) : Exn + (Processor * jstr) :=
  match chunks with
  | [] => inr (p, received)
  | chunk :: rest =>
    match processChunk isToolSupported p chunk (js "openai") with
    | inr (p', xml) => processChunks isToolSupported p' rest (received ++ xml)
    | inl e => inl e
    end
  end.

Definition transcript (isToolSupported : jstr -> bool)
    (chunks : list (list Delta)) : Exn + jstr :=
  match processChunks isToolSupported newProcessor chunks [] with
  | inr (p, received) => inr (received ++ (finalize isToolSupported p).2)
  | inl e => inl e
  end.

(** C1 (chunk-invariance) at a failing input.  The arguments
    [{"a":[1]}] fed whole give one [a] block; cut between the colon and
    the bracket, the look-ahead of the colon finds the buffer exhausted,
    opens the tag at once, and the element opens it a second time. *)
Theorem chunk_invariance_fails :
  transcript testRegistry
    [[delta 0 (js "1") (js "read_file") (jsq "{'a':[1]}")]]
  = inr (xml "<read_file>|<a>1</a>|</read_file>||")
  /\ transcript testRegistry
       [[delta 0 (js "1") (js "read_file") (jsq "{'a':")];
        [delta 0 (js "1") [] (jsq "[1]}")]]
     = inr (xml "<read_file>|<a><a>1</a>|</read_file>||").
Proof. split; vm_compute; reflexivity. Qed.

(** C4 (finalize idempotence) at a failing input.  [finalize] closes the
    function tag of an open call without setting [functionClosed], so a
    second [finalize] emits the closing tag again. *)
Theorem finalize_twice_reemits :
  match processChunk testRegistry newProcessor
          [delta 0 (js "1") (js "search_files") (jsq "{'foo':'bar'")]
          (js "openai") with
  | inr (p1, out) =>
    out = xml "<search_files>|<foo>bar</foo>|"
    /\ (finalize testRegistry p1).2 = xml "</search_files>|"
    /\ (finalize testRegistry (finalize testRegistry p1).1).2
       = xml "</search_files>|"
  | inl _ => False
  end.
Proof. vm_compute. repeat split. Qed.

(** ** Shape of the output at inputs that break it *)

(** C2 (exact output shape and single closure) at failing inputs.  The
    arguments [{"path":"a.js","lines":[1,2]}] fed whole give exactly the
    shape of the claim.  Cut between the colon of [lines] and the
    bracket, the look-ahead of the colon finds the buffer exhausted and
    opens [lines] at once, the first element opens it again, and the
    fragments received hold a [lines] tag that nothing closes.  The
    arguments [{"a":1e5}], fed whole, lose their value: the exponent makes
    the primitive unrecognised, the closing brace is skipped, the call is
    closed by [finalize] only, with a single line feed behind the function
    tag, and a second [finalize] closes the function tag once more. *)
Theorem exact_shape_fails :
  transcript testRegistry
    [[delta 0 (js "1") (js "read_file") (jsq "{'path':'a.js','lines':[1,2]}")]]
  = inr (xml "<read_file>|<path>a.js</path>|<lines>1</lines>|<lines>2</lines>|</read_file>||")
  /\ transcript testRegistry
       [[delta 0 (js "1") (js "read_file") (jsq "{'path':'a.js','lines':")];
        [delta 0 (js "1") [] (jsq "[1,2]}")]]
     = inr (xml "<read_file>|<path>a.js</path>|<lines><lines>1</lines>|<lines>2</lines>|</read_file>||")
  /\ match processChunks testRegistry newProcessor
             [[delta 0 (js "1") (js "read_file") (jsq "{'a':1e5}")]] [] with
     | inr (p, received) =>
       received = xml "<read_file>|<a>"
       /\ (finalize testRegistry p).2 = xml "</a>|</read_file>|"
       /\ (finalize testRegistry (finalize testRegistry p).1).2 = xml "</read_file>|"
     | inl _ => False
     end.
Proof.
  split; [vm_compute; reflexivity|]. split; [vm_compute; reflexivity|].
  vm_compute. repeat split; reflexivity.
Qed.

(** C7 (array-of-objects repetition) at failing inputs.  The arguments
    [{"file":[{"path":"a.js"},{"path":"b.js"}]}] fed whole give one [file]
    block per element.  Cut between the colon and the bracket, the
    look-ahead of the colon finds the buffer exhausted and opens [file]
    at once, so the first block stands behind a [file] tag that nothing
    closes; an empty array cut at the same place gives an opening tag
    before its empty pair.  An array whose elements are arrays loses its
    elements after the first inner array: the closing bracket of the inner
    array pops the tag of the outer one. *)
Theorem array_repetition_fails :
  transcript testRegistry
    [[delta 0 (js "1") (js "read_file")
        (jsq "{'file':[{'path':'a.js'},{'path':'b.js'}]}")]]
  = inr (xml "<read_file>|<file>|~<path>a.js</path>|</file>|<file>|~<path>b.js</path>|</file>|</read_file>||")
  /\ transcript testRegistry
       [[delta 0 (js "1") (js "read_file") (jsq "{'file':")];
        [delta 0 (js "1") [] (jsq "[{'path':'a.js'},{'path':'b.js'}]}")]]
     = inr (xml "<read_file>|<file><file>|~<path>a.js</path>|</file>|<file>|~<path>b.js</path>|</file>|</read_file>||")
  /\ transcript testRegistry
       [[delta 0 (js "1") (js "read_file") (jsq "{'a':")];
        [delta 0 (js "1") [] (jsq "[]}")]]
     = inr (xml "<read_file>|<a><a></a>|</read_file>||")
  /\ transcript testRegistry
       [[delta 0 (js "1") (js "read_file") (jsq "{'a':[[1],[2]]}")]]
     = inr (xml "<read_file>|<a>1</a>|</read_file>||").
Proof. repeat split; vm_compute; reflexivity. Qed.

(** ** The structured fields of a result *)

Section Structured.

Variable isToolSupported : jstr -> bool.

Definition deltaIndex (d : Delta) : nat := default 0 (d_index d).

(** What the processor holds for one index. *)
Definition slot (p : Processor) (i : nat) : option ToolCall * option State :=
  (array_get (accumulatedToolCalls p) i, processingStates p !! i).

Lemma processDelta_index p d p' i out :
  processDelta isToolSupported p d = inr (p', i, out) -> i = deltaIndex d.
Proof. intros H. by apply processDelta_inv in H as [-> _]. Qed.

Lemma processDelta_slot p q d p' i out :
  slot p (deltaIndex d) = slot q (deltaIndex d) ->
  processDelta isToolSupported p d = inr (p', i, out) ->
  exists q', processDelta isToolSupported q d = inr (q', i, out)
             /\ slot p' i = slot q' i.
Proof.
  unfold slot, deltaIndex. intros [= Hc Hs] H.
  pose proof (processDelta_index _ _ _ _ _ H) as ->.
  unfold processDelta in *. fold (deltaIndex d) in *.
  rewrite <- Hc. destruct (array_get (accumulatedToolCalls p) (deltaIndex d)) eqn:Hg.
  - rewrite <- Hc, <- Hs. rewrite Hg in H.
    destruct (processingStates p !! deltaIndex d); [|done].
    destruct (emitDelta _ _ _) as [state2 out']. simplify_eq.
    eexists. split; [done|]. simpl. by rewrite !array_get_set_eq, !lookup_insert_eq.
  - simpl in *. rewrite array_get_set_eq, lookup_insert_eq in *.
    destruct (emitDelta _ _ _) as [state2 out']. simplify_eq.
    eexists. split; [done|]. simpl. by rewrite !array_get_set_eq, !lookup_insert_eq.
Qed.

Lemma processDeltas_app c1 c2 p index xmlOutput :
  processDeltas isToolSupported p index xmlOutput (c1 ++ c2)
  = match processDeltas isToolSupported p index xmlOutput c1 with
    | inr (p', index', out) => processDeltas isToolSupported p' index' out c2
    | inl e => inl e
    end.
Proof.
  revert p index xmlOutput. induction c1 as [|d c1 IH]; intros; simpl; [done|].
  destruct (processDelta isToolSupported p d) as [e|[[p' i'] out]]; [done|].
  apply IH.
Qed.

(** Only the deltas of index [i] matter for what the processor holds at
    [i]. *)
Lemma processDeltas_filter i chunk p q index index' xmlOutput xmlOutput' p1 i1 x1 :
  slot p i = slot q i ->
  processDeltas isToolSupported p index xmlOutput chunk = inr (p1, i1, x1) ->
  exists q1 i1' x1',
    processDeltas isToolSupported q index' xmlOutput'
      (filter (λ d, deltaIndex d = i) chunk) = inr (q1, i1', x1')
    /\ slot p1 i = slot q1 i.
Proof.
  revert p q index index' xmlOutput xmlOutput'.
  induction chunk as [|d chunk IH]; intros p q index index' xo xo' Hs H;
    simpl in H |- *.
  - injection H as -> -> ->. eexists _, _, _. split; [reflexivity | done].
  - destruct (processDelta isToolSupported p d) as [e|[[p' j] out]] eqn:Hd; [done|].
    pose proof (processDelta_index _ _ _ _ _ Hd) as ->.
    rewrite filter_cons. case_decide as Hi.
    + subst i. destruct (processDelta_slot p q d _ _ _ Hs Hd) as (q' & Hq & Hs').
      simpl. rewrite Hq. by eapply IH.
    + eapply IH; [|exact H].
      destruct (processDelta_frame _ _ _ _ _ _ i Hd) as [Hc Hst]; [done|].
      unfold slot in *. by rewrite Hc, Hst.
Qed.

Lemma result_slot p q i :
  slot p i = slot q i ->
  resultToolName isToolSupported p i = resultToolName isToolSupported q i
  /\ resultToolUserId p i = resultToolUserId q i
  /\ resultAnthropicContent isToolSupported p i
     = resultAnthropicContent isToolSupported q i.
Proof.
  unfold slot. intros [= Hc Hs].
  assert (resultToolName isToolSupported p i = resultToolName isToolSupported q i) as Hn
    by (unfold resultToolName; by rewrite Hc).
  assert (resultToolUserId p i = resultToolUserId q i) as Hu
    by (unfold resultToolUserId; by rewrite Hc).
  split; [done|]. split; [done|].
  unfold resultAnthropicContent. by rewrite Hc, Hs, Hn, Hu.
Qed.

(** C10 (the structured fields come from the last index of the batch).
    In the result of a batch that ends with the delta [d], the fields
    [toolName], [toolUserId] and [anthropicContent] are read from the call
    and state accumulated at the index of [d]; and they are the same as
    for the batch without its deltas for other indices, whose fragments
    only reach [chunkContent]. *)
Theorem structured_fields_from_last_index (p : Processor) (chunk : list Delta)
    (d : Delta) p1 r1 :
  processChunkOpenAIFormat isToolSupported p (chunk ++ [d]) = inr (p1, r1) ->
  (toolName r1 = resultToolName isToolSupported p1 (deltaIndex d)
   /\ toolUserId r1 = resultToolUserId p1 (deltaIndex d)
   /\ anthropicContent r1 = resultAnthropicContent isToolSupported p1 (deltaIndex d))
  /\ exists p2 r2,
       processChunkOpenAIFormat isToolSupported p
         (filter (λ d', deltaIndex d' = deltaIndex d) chunk ++ [d]) = inr (p2, r2)
       /\ toolName r1 = toolName r2
       /\ toolUserId r1 = toolUserId r2
       /\ anthropicContent r1 = anthropicContent r2.
Proof.
  unfold processChunkOpenAIFormat. intros H.
  rewrite processDeltas_app in H.
  destruct (processDeltas isToolSupported p 0 [] chunk) as [e|[[pa ia] xa]] eqn:Ha;
    [done|]. simpl in H.
  destruct (processDelta isToolSupported pa d) as [e|[[pb ib] xb]] eqn:Hb; [done|].
  pose proof (processDelta_index _ _ _ _ _ Hb) as ->. simplify_eq. simpl.
  split; [done|].
  destruct (processDeltas_filter (deltaIndex d) chunk p p 0 0 [] [] _ _ _ eq_refl Ha)
    as (qa & ia' & xa' & Hqa & Hs).
  rewrite processDeltas_app, Hqa. simpl.
  destruct (processDelta_slot pa qa d _ _ _ Hs Hb) as (qb & Hqb & Hs').
  rewrite Hqb. eexists _, _. split; [done|]. simpl.
  by apply result_slot.
Qed.

End Structured.

Lemma structured_fields_from_last_index_witness :
  match processChunkOpenAIFormat testRegistry newProcessor
          ([delta 0 (js "1") (js "execute_command") (jsq "{'a':1}")]
           ++ [delta 1 (js "2") (js "browser_action") (jsq "{'b':2}")]) with
  | inr (p1, r1) =>
    toolName r1 = js "browser_action" /\ toolUserId r1 = Some (js "2")
    /\ toolName r1 = resultToolName testRegistry p1 1
  | inl _ => False
  end.
Proof.
  destruct (processChunkOpenAIFormat testRegistry newProcessor
              ([delta 0 (js "1") (js "execute_command") (jsq "{'a':1}")]
               ++ [delta 1 (js "2") (js "browser_action") (jsq "{'b':2}")]))
    as [e|[p1 r1]] eqn:H; [vm_compute in H; discriminate|].
  pose proof (proj1 (structured_fields_from_last_index testRegistry _ _ _ _ _ H))
    as (Hn & Hu & _).
  split; [|split; [|exact Hn]].
  - vm_compute in H. injection H as _ <-. reflexivity.
  - vm_compute in H. injection H as _ <-. reflexivity.
Defined.

(** ** The repair of a lone [n] *)

(** A mode the lexer can be in when it meets the letter [n] of a text:
    the literal it may be reading does not contain that letter. *)
Definition noN (m : LexMode) : Prop :=
  match m with
  | LLit expected _ => Forall (λ c, c ≠ 110%N) expected
  | _ => True
  end.

Definition inStringMode (m : LexMode) : Prop :=
  match m with
  | LStr _ | LEsc _ | LUni _ _ _ => True
  | _ => False
  end.

Lemma lexer_unterminated rest m :
  inStringMode m -> c_quote ∉ rest -> lexer m rest = None.
Proof.
  revert m. induction rest as [|c r IH]; intros m Hm Hq.
  - by destruct m.
  - apply not_elem_of_cons in Hq as [Hc Hr].
    destruct m; try done; simpl.
    + rewrite (proj2 (N.eqb_neq c c_quote)) by done.
      repeat case_match; try done; by apply IH.
    + repeat case_match; try done; by apply IH.
    + repeat case_match; try done; by apply IH.
Qed.

Lemma emit_None t : emit t None = None.
Proof. done. Qed.

Lemma lexOut_None rec c :
  (forall m, noN m -> rec m = None) -> lexOut rec c = None.
Proof.
  intros H. unfold lexOut.
  repeat case_match; rewrite ?H, ?emit_None; try done;
    simpl; repeat constructor; done.
Qed.

Lemma lexer_at_n m rest :
  noN m -> c_quote ∉ rest -> head rest ≠ Some 117%N ->
  lexer m (110%N :: rest) = None.
Proof.
  intros Hm Hq Hu.
  assert (lexer (LLit [117; 108; 108]%N TNull) rest = None) as Hlit.
  { destruct rest as [|c r]; [done|]. simpl.
    rewrite (proj2 (N.eqb_neq c 117)); [done|]. intros ->. by apply Hu. }
  assert (forall acc, lexer (LStr acc) rest = None) as Hstr
    by (intros; by apply lexer_unterminated).
  destruct m as [|acc|acc|acc seen value|ns acc|expected tok].
  - simpl. unfold lexOut. simpl. exact Hlit.
  - simpl. apply Hstr.
  - simpl. apply Hstr.
  - done.
  - simpl. replace (numStep ns 110%N) with (@None NumState) by (by destruct ns).
    destruct (numAccepting ns); [|done]. unfold lexOut. simpl. by rewrite Hlit.
  - destruct expected as [|e expected']; [done|].
    simpl in Hm. apply Forall_cons in Hm as [He _].
    cbn -[N.eqb]. rewrite (proj2 (N.eqb_neq 110 e)); [done|]. congruence.
Qed.

(** A text in which an [n] is followed neither by [u] nor, later, by a
    quote is rejected: the [n] can neither start [null] nor sit in a
    string. *)
Lemma lexer_stuck pre m rest :
  noN m -> c_quote ∉ rest -> head rest ≠ Some 117%N ->
  lexer m (pre ++ 110%N :: rest) = None.
Proof.
  intros Hm Hq Hu. revert m Hm.
  induction pre as [|c pre IH]; intros m Hm; [by apply lexer_at_n|].
  simpl. destruct m as [|acc|acc|acc seen value|ns acc|expected tok].
  - by apply lexOut_None.
  - repeat case_match; rewrite ?IH, ?emit_None; done.
  - repeat case_match; rewrite ?IH, ?emit_None; done.
  - repeat case_match; rewrite ?IH, ?emit_None; done.
  - repeat case_match; rewrite ?IH, ?emit_None; try done.
    by rewrite lexOut_None.
  - destruct expected as [|e expected']; [done|].
    simpl in Hm. apply Forall_cons in Hm as [He Hm'].
    repeat case_match; rewrite ?IH, ?emit_None; done.
Qed.

Lemma JSON_parse_stuck pre rest :
  c_quote ∉ rest -> head rest ≠ Some 117%N ->
  JSON_parse (pre ++ 110%N :: rest) = None.
Proof. intros. unfold JSON_parse. by rewrite lexer_stuck. Qed.

Lemma trimTrailingComma_last s c :
  isSpace c = false -> c ≠ c_comma ->
  trimTrailingComma (s ++ [c]) = s ++ [c].
Proof.
  intros Hs Hc. induction s as [|a s IH]; simpl.
  - by rewrite (proj2 (N.eqb_neq c c_comma)).
  - rewrite IH. rewrite forallb_app. simpl. rewrite Hs.
    by rewrite andb_false_r, andb_false_r.
Qed.

Lemma closeBrackets_last stack s c :
  isSpace c = false -> c ≠ c_comma ->
  closeBrackets stack (s ++ [c]) = s ++ [c] ++ List.map closer stack.
Proof.
  revert s c. induction stack as [|b stack IH]; intros s c Hs Hc; simpl.
  - done.
  - rewrite trimTrailingComma_last by done.
    rewrite <- app_assoc. rewrite (app_assoc s), IH by (by destruct b).
    by rewrite <- app_assoc.
Qed.

Lemma not_quote_space ws : Forall (λ c, isSpace c = true) ws -> c_quote ∉ ws.
Proof.
  intros H Hin. rewrite Forall_forall in H. by specialize (H _ Hin).
Qed.

Lemma not_quote_closers stack : c_quote ∉ List.map closer stack.
Proof.
  induction stack as [|b stack IH]; simpl; [apply not_elem_of_nil|].
  apply not_elem_of_cons. split; [by destruct b | done].
Qed.

(** C9 (a lone [n] is not completed).  For a buffer whose pending
    primitive token is exactly [n] (the buffer ends with that letter, up
    to whitespace, and the parser is outside a string with [n] in
    [primitiveBuffer]), the repair does not turn the token into a
    primitive: the completion step appends the single letter [l], which
    gives [nl] and never [null], no parse attempt of the repaired text
    succeeds, and [tryBuildTemporaryJson] returns [null]. *)
Theorem lone_n_left_unrepaired (state : State) (pre ws : jstr) :
  inString state = false ->
  primitiveBuffer state = js "n" ->
  Forall (λ c, isSpace c = true) ws ->
  js "n" ++ completePrimitiveSuffix (primitiveBuffer state) = js "nl"
  /\ isValidPrimitive (js "n" ++ completePrimitiveSuffix (primitiveBuffer state)) = false
  /\ tryBuildTemporaryJson state (pre ++ js "n" ++ ws) = None.
Proof.
  intros Hin Hpb Hws. rewrite Hpb. split; [reflexivity|]. split; [reflexivity|].
  unfold tryBuildTemporaryJson. rewrite Hin, Hpb.
  destruct (bool_decide (pre ++ js "n" ++ ws = [])
            || bool_decide (trim (pre ++ js "n" ++ ws) = [])); [done|].
  change (bool_decide (0 < length (js "n"))) with true. cbv iota.
  change (completePrimitiveSuffix (js "n")) with [108%N].
  change (js "n") with [110%N].
  assert (isSpace 108 = false) as Hl by reflexivity.
  assert (108%N ≠ c_comma) as Hlc by done.
  rewrite trimTrailingComma_last by done.
  rewrite closeBrackets_last by done.
  set (closers := List.map closer (bracketStack state)).
  assert (c_quote ∉ ws ++ [108%N] ++ closers) as Hq1.
  { rewrite !not_elem_of_app. split; [by apply not_quote_space|].
    split; [|apply not_quote_closers]. rewrite list_elem_of_singleton. done. }
  assert (forall tl, head (ws ++ [108%N] ++ tl) ≠ Some 117%N) as Hu.
  { intros tl. destruct ws as [|w ws']; simpl; [done|].
    apply Forall_cons in Hws as [Hw _]. intros [= ->]. done. }
  replace ((pre ++ [110%N] ++ ws) ++ [108%N] ++ closers)
    with (pre ++ 110%N :: (ws ++ [108%N] ++ closers))
    by (by rewrite <- !app_assoc).
  rewrite JSON_parse_stuck by done.
  set (s := pre ++ 110%N :: ws ++ [108%N] ++ closers).
  assert (exists s' c, s = s' ++ [c] /\ isSpace c = false /\ c ≠ c_comma) as Hlast.
  { subst s closers. destruct (bracketStack state) as [|b bs] using rev_ind.
    - exists (pre ++ 110%N :: ws), 108%N. simpl. split; [|done].
      by simplify_list_eq.
    - exists (pre ++ 110%N :: ws ++ [108%N] ++ List.map closer bs), (closer b).
      rewrite map_app. simpl. split; [|by destruct b].
      by simplify_list_eq. }
  destruct Hlast as (s' & c & Hs & Hsp & Hc).
  assert (JSON_parse (trimTrailingComma
            (if bool_decide (findLastNonWhitespaceChar s = Some c_colon)
                || bool_decide (parserState state = EXPECT_VALUE)
             then s ++ js "null" else s)) = None) as H2.
  { destruct (bool_decide (findLastNonWhitespaceChar s = Some c_colon)
              || bool_decide (parserState state = EXPECT_VALUE)).
    - change (js "null") with ([110; 117; 108]%N ++ [108%N]).
      rewrite app_assoc, trimTrailingComma_last by done.
      subst s. rewrite <- !app_assoc. simpl.
      apply JSON_parse_stuck.
      + rewrite ?not_elem_of_app, ?not_elem_of_cons, ?not_elem_of_app,
          ?not_elem_of_cons.
        repeat split; try done; try apply not_quote_closers;
          try (by apply not_quote_space); apply not_elem_of_nil.
      + rewrite <- app_assoc. apply (Hu (closers ++ [110; 117; 108; 108]%N)).
    - rewrite Hs, trimTrailingComma_last by done. rewrite <- Hs.
      by apply JSON_parse_stuck. }
  rewrite H2. simpl. rewrite Hs, trimTrailingComma_last by done.
  unfold jstr_eqb. by rewrite bool_decide_eq_true_2.
Qed.

Lemma lone_n_left_unrepaired_witness :
  match processChunkTool testRegistry newProcessor
          [delta 0 (js "1") (js "read_file") (jsq "{'a':n ")] (js "openai") with
  | inr (p, r) =>
    match processingStates p !! 0 with
    | Some state =>
      inString state = false /\ primitiveBuffer state = js "n"
      /\ arguments state = jsq "{'a':" ++ js "n" ++ js " "
      /\ tryBuildTemporaryJson state (arguments state) = None
      /\ anthropicContent r = None
    | None => False
    end
  | inl _ => False
  end.
Proof.
  destruct (processChunkTool testRegistry newProcessor
              [delta 0 (js "1") (js "read_file") (jsq "{'a':n ")] (js "openai"))
    as [e|[p r]] eqn:H; vm_compute in H; [discriminate|].
  injection H as <- <-.
  change (match Some ?s with Some state => _ | None => False end)
    with (inString s = false /\ primitiveBuffer s = js "n"
          /\ arguments s = jsq "{'a':" ++ js "n" ++ js " "
          /\ tryBuildTemporaryJson s (arguments s) = None
          /\ @None ToolUseBlockParam = None).
  split; [reflexivity|]. split; [reflexivity|]. split; [reflexivity|].
  split; [|reflexivity].
  refine (proj2 (proj2 (lone_n_left_unrepaired _ (jsq "{'a':") (js " ") _ _ _)));
    [reflexivity | reflexivity | repeat constructor].
Defined.

(** * The rendering of well-formed arguments

    The texts the state machine renders as the specification describes:
    JSON texts with arbitrary whitespace between the tokens, in which every
    key decodes to a non-empty tag, every primitive is one the machine
    accepts ([true], [false], [null], a number without exponent) and no
    array is an element of an array. *)

(** ** Concrete syntax *)

(** An item of a string value: a plain character, a two-character escape
    or a unicode escape with its four hexadecimal digits. *)
Inductive StringItem :=
| SChar (c : N)
| SEsc (e : N)
| SUni (h1 h2 h3 h4 : N).

(** An item of a key: a plain character or a backslash with the character
    behind it. *)
Inductive KeyItem :=
| KChar (c : N)
| KEsc (e : N).

Record Member (V : Type) := mkMember {
  m_before : jstr;        (* whitespace before the key *)
  m_key : list KeyItem;
  m_afterKey : jstr;      (* whitespace between the key and the colon *)
  m_afterColon : jstr;    (* whitespace between the colon and the value *)
  m_value : V;
  m_after : jstr          (* whitespace after the value *)
}.
Arguments mkMember {V}.
Arguments m_before {V}.
Arguments m_key {V}.
Arguments m_afterKey {V}.
Arguments m_afterColon {V}.
Arguments m_value {V}.
Arguments m_after {V}.

Record Element (V : Type) := mkElement {
  e_before : jstr;
  e_value : V;
  e_after : jstr
}.
Arguments mkElement {V}.
Arguments e_before {V}.
Arguments e_value {V}.
Arguments e_after {V}.

Inductive Json :=
| VStr (items : list StringItem)
| VPrim (p : jstr)
| VObj (inner : jstr) (members : list (Member Json))
| VArr (inner : jstr) (elements : list (Element Json)).

Definition itemText (i : StringItem) : jstr :=
  match i with
  | SChar c => [c]
  | SEsc e => [c_backslash; e]
  | SUni h1 h2 h3 h4 => [c_backslash; c_u; h1; h2; h3; h4]
  end.

Definition keyItemText (i : KeyItem) : jstr :=
  match i with
  | KChar c => [c]
  | KEsc e => [c_backslash; e]
  end.

Definition keyText (key : list KeyItem) : jstr := concat (List.map keyItemText key).

(** The text of a list of members or elements: the items separated by
    commas. *)
Fixpoint commaSeparated (texts : list jstr) : jstr :=
  match texts with
  | [] => []
  | [t] => t
  | t :: rest => t ++ [c_comma] ++ commaSeparated rest
  end.

Fixpoint text (v : Json) : jstr :=
  match v with
  | VStr items => [c_quote] ++ concat (List.map itemText items) ++ [c_quote]
  | VPrim p => p
  | VObj inner members =>
    [c_lbrace] ++ inner
    ++ commaSeparated
         (List.map (λ m, m_before m ++ [c_quote] ++ keyText (m_key m) ++ [c_quote]
                         ++ m_afterKey m ++ [c_colon] ++ m_afterColon m
                         ++ text (m_value m) ++ m_after m) members)
    ++ [c_rbrace]
  | VArr inner elements =>
    [c_lbracket] ++ inner
    ++ commaSeparated
         (List.map (λ e, e_before e ++ text (e_value e) ++ e_after e) elements)
    ++ [c_rbracket]
  end.

Definition memberText (m : Member Json) : jstr :=
  m_before m ++ [c_quote] ++ keyText (m_key m) ++ [c_quote]
  ++ m_afterKey m ++ [c_colon] ++ m_afterColon m
  ++ text (m_value m) ++ m_after m.

Definition elementText (e : Element Json) : jstr :=
  e_before e ++ text (e_value e) ++ e_after e.

(** ** The expected rendering *)

(** The tag of a key: its text decoded by [JSON.parse], or the text itself
    when that throws. *)
Definition tagOf (key : list KeyItem) : jstr :=
  parseStringOr (keyText key) (keyText key).

(** What a string item contributes to the text content. *)
Definition itemOutput (i : StringItem) : jstr :=
  match i with
  | SChar c => [c]
  | _ => parseStringOr (itemText i) (itemText i)
  end.

(** The indentation at object depth [depth]. *)
Definition indentAt (depth : nat) : jstr := getIndent (Nat.max 0 (depth - 1)).

Definition isArray (v : Json) : bool :=
  match v with VArr _ _ => true | _ => false end.

(** [content depth v]: what stands between the opening and the closing tag
    of the value [v] met at object depth [depth].  [block] wraps it in the
    tag of its key; [renderMember] renders a member: one block, or one
    block per element when the value is an array, or an empty pair when
    the array is empty. *)
Fixpoint content (toolName : jstr) (depth : nat) (v : Json) {struct v} : jstr :=
  match v with
  | VStr items => concat (List.map itemOutput items)
  | VPrim p => p
  | VObj _ members =>
    [c_nl]
    ++ concat (List.map (λ m,
         let tag := tagOf (m_key m) in
         match m_value m with
         | VArr _ [] =>
           indentAt (S depth) ++ onOpenTag tag toolName ++ onCloseTag tag toolName
         | VArr _ elements =>
           concat (List.map (λ e,
             indentAt (S depth) ++ onOpenTag tag toolName
             ++ content toolName (S depth) (e_value e)
             ++ onCloseTag tag toolName) elements)
         | _ =>
           indentAt (S depth) ++ onOpenTag tag toolName
           ++ content toolName (S depth) (m_value m)
           ++ onCloseTag tag toolName
         end) members)
    ++ indentAt depth
  | VArr _ _ => []
  end.

Definition block (toolName tag : jstr) (depth : nat) (v : Json) : jstr :=
  indentAt depth ++ onOpenTag tag toolName ++ content toolName depth v
  ++ onCloseTag tag toolName.

Definition renderMember (toolName : jstr) (depth : nat) (m : Member Json) : jstr :=
  match m_value m with
  | VArr _ [] =>
    indentAt depth ++ onOpenTag (tagOf (m_key m)) toolName
    ++ onCloseTag (tagOf (m_key m)) toolName
  | VArr _ elements =>
    concat (List.map (λ e, block toolName (tagOf (m_key m)) depth (e_value e)) elements)
  | v => block toolName (tagOf (m_key m)) depth v
  end.

Lemma content_object toolName depth inner members :
  content toolName depth (VObj inner members)
  = [c_nl] ++ concat (List.map (renderMember toolName (S depth)) members)
    ++ indentAt depth.
Proof.
  simpl. rewrite (List.map_ext _ (renderMember toolName (S depth))); [done|].
  intros m. unfold renderMember, block.
  by destruct (m_value m).
Qed.

(** ** Well-formedness *)

Definition isWhitespace (w : jstr) : Prop := Forall (λ c, isSpace c = true) w.

Definition wfItem (i : StringItem) : Prop :=
  match i with
  | SChar c => c ≠ c_quote /\ c ≠ c_backslash
  | SEsc e => e ≠ c_u
  | SUni h1 h2 h3 h4 => forallb isHex [h1; h2; h3; h4] = true
  end.

Definition wfKeyItem (i : KeyItem) : Prop :=
  match i with
  | KChar c => c ≠ c_quote /\ c ≠ c_backslash
  | KEsc e => True
  end.

Definition wfKey (key : list KeyItem) : Prop :=
  Forall wfKeyItem key /\ tagOf key ≠ [].

Fixpoint wf (v : Json) : Prop :=
  match v with
  | VStr items => Forall wfItem items
  | VPrim p => isValidPrimitive p = true
  | VObj inner members =>
    isWhitespace inner
    /\ Forall (λ x, x) (List.map (λ m,
         isWhitespace (m_before m) /\ wfKey (m_key m)
         /\ isWhitespace (m_afterKey m) /\ isWhitespace (m_afterColon m)
         /\ wf (m_value m) /\ isWhitespace (m_after m)) members)
  | VArr inner elements =>
    isWhitespace inner
    /\ Forall (λ x, x) (List.map (λ e,
         isWhitespace (e_before e) /\ wf (e_value e) /\ isArray (e_value e) = false
         /\ isWhitespace (e_after e)) elements)
  end.

Definition wfMember (m : Member Json) : Prop :=
  isWhitespace (m_before m) /\ wfKey (m_key m)
  /\ isWhitespace (m_afterKey m) /\ isWhitespace (m_afterColon m)
  /\ wf (m_value m) /\ isWhitespace (m_after m).

Definition wfElement (e : Element Json) : Prop :=
  isWhitespace (e_before e) /\ wf (e_value e) /\ isArray (e_value e) = false
  /\ isWhitespace (e_after e).

Lemma wf_object inner members :
  wf (VObj inner members) <-> isWhitespace inner /\ Forall wfMember members.
Proof. simpl. by rewrite Forall_fmap. Qed.

Lemma wf_array inner elements :
  wf (VArr inner elements) <-> isWhitespace inner /\ Forall wfElement elements.
Proof. simpl. by rewrite Forall_fmap. Qed.

(** ** Runs over tokens *)

Lemma drop_lookup {A} (l : list A) cur c rest :
  drop cur l = c :: rest -> l !! cur = Some c.
Proof.
  intros H. rewrite <- (Nat.add_0_r cur), <- lookup_drop. by rewrite H.
Qed.

Lemma drop_next {A} (l : list A) cur tok rest :
  drop cur l = tok ++ rest -> drop (cur + length tok) l = rest.
Proof.
  intros H. rewrite <- drop_drop, H. by rewrite drop_app_length.
Qed.

Lemma drop_next1 {A} (l : list A) cur c rest :
  drop cur l = c :: rest -> drop (S cur) l = rest.
Proof.
  intros H. replace (S cur) with (cur + length [c]) by (simpl; lia).
  by apply drop_next.
Qed.

Lemma whenTag_tag tag f : tag ≠ [] -> whenTag (Some tag) f = f tag.
Proof. by destruct tag. Qed.

(** Symbolic execution of one iteration on an explicit state. *)
Ltac unfold_setters :=
  unfold advance, set_functionNameOutputted, set_functionClosed, set_arguments,
    set_cursor, set_parserState, set_inString, set_isEscaped,
    set_isStreamingStringValue, set_bracketStack, set_xmlTagStack,
    set_currentString, set_primitiveBuffer, set_justOpenedArray; simpl.

Section Runs.

Variables (toolName : jstr) (fno fc : bool) (args : jstr).

(** The state between two tokens: outside a string, nothing buffered but
    possibly a primitive. *)
Definition between (cur : nat) (ps : ParserState) (bs : list Bracket)
    (ts : list jstr) (pb : jstr) (joa : bool) : State :=
  mkState fno fc args cur ps false false false bs ts [] pb joa.

(** Inside a key. *)
Definition inKey (cur : nat) (bs : list Bracket) (ts : list jstr)
    (cs : jstr) (escaped : bool) (joa : bool) : State :=
  mkState fno fc args cur EXPECT_KEY true escaped false bs ts cs [] joa.

(** Inside a streamed string value. *)
Definition inValue (cur : nat) (bs : list Bracket) (ts : list jstr)
    (joa : bool) : State :=
  mkState fno fc args cur EXPECT_VALUE true false true bs ts [] [] joa.

Lemma steps_one st c st' out :
  arguments st !! cursor st = Some c ->
  step toolName st c = Next st' out ->
  steps toolName st out st'.
Proof.
  intros Hc Hs. rewrite <- (app_nil_r out). eapply steps_step; eauto. constructor.
Qed.

Lemma steps_step_eq st c st1 out st2 x y :
  arguments st !! cursor st = Some c ->
  step toolName st c = Next st1 out ->
  steps toolName st1 x st2 ->
  y = out ++ x ->
  steps toolName st y st2.
Proof. intros ? ? ? ->. by eapply steps_step. Qed.

Lemma steps_trans_eq st1 x st2 y st3 z :
  steps toolName st1 x st2 -> steps toolName st2 y st3 -> z = x ++ y ->
  steps toolName st1 z st3.
Proof. intros ? ? ->. by eapply steps_trans. Qed.

Lemma run_whitespace w cur rest ps bs ts pb joa :
  isWhitespace w -> drop cur args = w ++ rest ->
  steps toolName (between cur ps bs ts pb joa) []
    (between (cur + length w) ps bs ts pb joa).
Proof.
  intros Hw. revert cur. induction Hw as [|c w Hc Hw IH]; intros cur Hd; simpl.
  - rewrite Nat.add_0_r. constructor.
  - change [] with ([] ++ @nil N). eapply steps_step.
    + simpl. eapply drop_lookup. exact Hd.
    + unfold step. simpl. rewrite Hc. reflexivity.
    + replace (cur + S (length w)) with (S cur + length w) by lia.
      apply IH. by eapply drop_next1.
Qed.

Lemma run_key_items key : forall cur rest bs ts cs joa,
  Forall wfKeyItem key ->
  drop cur args = keyText key ++ rest ->
  steps toolName (inKey cur bs ts cs false joa) []
    (inKey (cur + length (keyText key)) bs ts (cs ++ keyText key) false joa).
Proof.
  induction key as [|i key IH]; intros cur rest bs ts cs joa Hwf Hd.
  - simpl. rewrite Nat.add_0_r, app_nil_r. constructor.
  - apply Forall_cons in Hwf as [Hi Hwf]. unfold keyText in *. simpl in *.
    rewrite <- app_assoc in Hd.
    destruct i as [c|e]; simpl in *.
    + destruct Hi as [Hq Hb].
      change [] with ([] ++ @nil N). eapply steps_step.
      * simpl. eapply drop_lookup. exact Hd.
      * unfold step, stepStringKey. simpl.
        rewrite (proj2 (N.eqb_neq c c_backslash)), (proj2 (N.eqb_neq c c_quote)) by done.
        reflexivity.
      * simpl.
        replace (cur + S (length (concat (List.map keyItemText key))))
          with (S cur + length (concat (List.map keyItemText key))) by lia.
        replace (cs ++ c :: concat (List.map keyItemText key))
          with ((cs ++ [c]) ++ concat (List.map keyItemText key))
          by (by rewrite <- app_assoc).
        eapply IH; [done|]. by eapply drop_next1.
    + change [] with ([] ++ [] ++ @nil N). eapply steps_step.
      * simpl. eapply drop_lookup. exact Hd.
      * unfold step, stepStringKey. simpl. reflexivity.
      * eapply steps_step.
        -- simpl. eapply drop_lookup. eapply drop_next1. exact Hd.
        -- unfold step, stepStringKey. simpl. rewrite !andb_false_r. reflexivity.
        -- simpl.
           replace (cur + S (S (length (concat (List.map keyItemText key)))))
             with (S (S cur) + length (concat (List.map keyItemText key))) by lia.
           replace (cs ++ c_backslash :: e :: concat (List.map keyItemText key))
             with (((cs ++ [c_backslash]) ++ [e])
                   ++ concat (List.map keyItemText key))
             by (by rewrite <- !app_assoc).
           eapply IH; [done|]. eapply drop_next1. eapply drop_next1. exact Hd.
Qed.

(** A key between its quotes, from [EXPECT_KEY] to [EXPECT_COLON]: the tag
    is pushed, nothing is emitted. *)
Lemma run_key key cur rest bs ts joa :
  Forall wfKeyItem key ->
  drop cur args = [c_quote] ++ keyText key ++ [c_quote] ++ rest ->
  steps toolName (between cur EXPECT_KEY bs ts [] joa) []
    (between (cur + length (keyText key) + 2) EXPECT_COLON bs
       (tagOf key :: ts) [] joa).
Proof.
  intros Hwf Hd.
  change [] with ([] ++ [] ++ [] ++ @nil N). eapply steps_step.
  { simpl. eapply drop_lookup. exact Hd. }
  { unfold step, switchAndAdvance, stepSwitch. simpl. reflexivity. }
  eapply steps_trans.
  { apply (run_key_items key (S cur) ([c_quote] ++ rest) bs ts [] joa Hwf).
    eapply drop_next1. exact Hd. }
  assert (drop (S cur + length (keyText key)) args = c_quote :: rest) as Hd2.
  { replace (S cur + length (keyText key))
      with (cur + length ([c_quote] ++ keyText key))
      by (rewrite length_app; simpl; lia).
    eapply drop_next. rewrite <- app_assoc. exact Hd. }
  eapply steps_one.
  { simpl. eapply drop_lookup. exact Hd2. }
  unfold step, stepStringKey, tagOf, inKey, between. simpl. unfold_setters.
  do 2 f_equal. lia.
Qed.

(** A colon: the parser expects a value and, unless an array follows, the
    tag of the key is opened. *)
Lemma run_colon tag cur rest bs ts joa :
  tag ≠ [] ->
  drop cur args = c_colon :: rest ->
  steps toolName (between cur EXPECT_COLON bs (tag :: ts) [] joa)
    (if bool_decide (firstNonWhitespace rest = Some c_lbracket) then []
     else indentAt (countBraces bs) ++ onOpenTag tag toolName)
    (between (S cur) EXPECT_VALUE bs (tag :: ts) [] joa).
Proof.
  intros Htag Hd. eapply steps_one.
  { simpl. eapply drop_lookup. exact Hd. }
  destruct tag as [|t0 tag']; [done|].
  unfold step, switchAndAdvance, stepSwitch, nextNonWhitespace, between. simpl.
  replace (cur + 1) with (S cur) by lia. rewrite (drop_next1 _ _ _ _ Hd).
  unfold xmlLevel, indentAt. simpl.
  repeat case_bool_decide; done.
Qed.

End Runs.

(** Closes the goal that an iteration leads to the expected state. *)
Ltac state_eq :=
  unfold between, inKey, inValue; unfold_setters;
  lazymatch goal with
  | |- Next _ _ = Next _ _ =>
    f_equal; first [reflexivity | lia | f_equal; first [reflexivity | lia]]
  end.

(** ** Facts on characters and primitives *)

Ltac bool_to_prop :=
  repeat match goal with
  | H : context [(?a <=? ?b)%N] |- _ => destruct (N.leb_spec a b)
  | H : context [(?a =? ?b)%N] |- _ => destruct (N.eqb_spec a b)
  | |- context [(?a <=? ?b)%N] => destruct (N.leb_spec a b)
  | |- context [(?a =? ?b)%N] => destruct (N.eqb_spec a b)
  end.

Lemma isPrimitiveChar_range c : isPrimitiveChar c = true -> (45 <= c <= 122)%N.
Proof.
  unfold isPrimitiveChar, isDigit, isLower, isUpper, c_minus, c_dot.
  intros H. bool_to_prop; simpl in H; try done; lia.
Qed.

Lemma isSpace_range c : isSpace c = true -> (c <= 32 \/ 160 <= c)%N.
Proof.
  unfold isSpace. intros H. bool_to_prop; simpl in H; try done; lia.
Qed.

Lemma isPrimitiveChar_not_space c : isPrimitiveChar c = true -> isSpace c = false.
Proof.
  intros H. apply isPrimitiveChar_range in H.
  destruct (isSpace c) eqn:Hs; [|done]. apply isSpace_range in Hs. lia.
Qed.

Lemma isDigit_primitive c : isDigit c = true -> isPrimitiveChar c = true.
Proof. unfold isPrimitiveChar. by intros ->. Qed.

Lemma spanDigits_spec s :
  s = (spanDigits s).1 ++ (spanDigits s).2
  /\ Forall (λ c, isDigit c = true) (spanDigits s).1.
Proof.
  induction s as [|c s [IH1 IH2]]; simpl; [by split|].
  destruct (isDigit c) eqn:Hc; [|by split].
  destruct (spanDigits s) as [d t]. simpl in *. split; [by f_equal|].
  by constructor.
Qed.

Lemma isNumberLiteral_chars p :
  isNumberLiteral p = true -> Forall (λ c, isPrimitiveChar c = true) p /\ p ≠ [].
Proof.
  unfold isNumberLiteral. intros H.
  set (unsigned := match p with
                   | c :: r => if (c =? c_minus)%N then r else p
                   | [] => p
                   end) in *.
  assert (Forall (λ c, isPrimitiveChar c = true) unsigned /\ unsigned ≠ []) as [Hu Hne].
  { destruct (spanDigits_spec unsigned) as [Heq Hd].
    destruct (spanDigits unsigned) as [int rest]. simpl in *.
    destruct int as [|i int]; [done|]. split; [|by rewrite Heq].
    rewrite Heq. apply Forall_app. split.
    - eapply Forall_impl; [exact Hd|]. intros c. apply isDigit_primitive.
    - destruct rest as [|c frac]; [constructor|].
      apply andb_true_iff in H as [H Hf]. apply andb_true_iff in H as [Hc _].
      apply N.eqb_eq in Hc. subst c. constructor; [done|].
      rewrite forallb_forall in Hf. rewrite Forall_forall. intros x Hx.
      apply isDigit_primitive, Hf. by apply list_elem_of_In. }
  subst unsigned. destruct p as [|c r]; [done|]. split; [|done].
  destruct (c =? c_minus)%N eqn:Hc; [|done].
  apply N.eqb_eq in Hc. subst c. by constructor.
Qed.

Lemma isValidPrimitive_chars p :
  isValidPrimitive p = true -> Forall (λ c, isPrimitiveChar c = true) p /\ p ≠ [].
Proof.
  unfold isValidPrimitive, jstr_eqb. intros H.
  repeat (apply orb_true_iff in H as [H|H]);
    try (apply bool_decide_eq_true in H; subst p; split; [by repeat constructor|done]).
  by apply isNumberLiteral_chars.
Qed.

Lemma trimStart_id s :
  head s ≠ None -> (forall c, head s = Some c -> isSpace c = false) -> trimStart s = s.
Proof.
  destruct s as [|c s]; [done|]. simpl. intros _ H. by rewrite (H c eq_refl).
Qed.

Lemma trim_id s : Forall (λ c, isSpace c = false) s -> trim s = s.
Proof.
  intros H. unfold trim.
  assert (forall l, Forall (λ c, isSpace c = false) l -> trimStart l = l) as Hid.
  { intros [|c l] Hl; [done|]. simpl. apply Forall_cons in Hl as [-> _]. done. }
  rewrite (Hid s H). rewrite Hid by (by apply Forall_rev). apply rev_involutive.
Qed.

Lemma getFullEscapeSequence_simple_drop str pos e rest :
  drop pos str = c_backslash :: e :: rest -> e ≠ c_u ->
  getFullEscapeSequence str pos = Some [c_backslash; e].
Proof.
  intros Hd He. unfold getFullEscapeSequence, substring.
  pose proof (drop_lookup _ _ _ _ Hd) as H0.
  pose proof (drop_lookup _ _ _ _ (drop_next1 _ _ _ _ Hd)) as H1.
  pose proof (lookup_lt_Some _ _ _ H1).
  rewrite bool_decide_eq_true_2 by done. simpl.
  rewrite bool_decide_eq_false_2 by lia.
  replace (pos + 1) with (S pos) by lia. rewrite H1.
  rewrite bool_decide_eq_false_2 by congruence.
  replace (pos + 2 - pos) with 2 by lia. by rewrite Hd.
Qed.

Lemma getFullEscapeSequence_unicode_drop str pos h1 h2 h3 h4 rest :
  drop pos str = c_backslash :: c_u :: h1 :: h2 :: h3 :: h4 :: rest ->
  forallb isHex [h1; h2; h3; h4] = true ->
  getFullEscapeSequence str pos = Some [c_backslash; c_u; h1; h2; h3; h4].
Proof.
  intros Hd Hh. unfold getFullEscapeSequence, substring.
  pose proof (drop_lookup _ _ _ _ Hd) as H0.
  pose proof (drop_lookup _ _ _ _ (drop_next1 _ _ _ _ Hd)) as H1.
  assert (length str = pos + length (drop pos str)) as Hlen.
  { rewrite length_drop. apply lookup_lt_Some in H0. lia. }
  rewrite Hd in Hlen. simpl in Hlen.
  rewrite bool_decide_eq_true_2 by done. simpl.
  rewrite bool_decide_eq_false_2 by lia.
  replace (pos + 1) with (S pos) by lia. rewrite H1.
  rewrite bool_decide_eq_true_2 by done.
  rewrite bool_decide_eq_false_2 by lia.
  replace (pos + 6 - (pos + 2)) with 4 by lia.
  replace (pos + 2) with (pos + length [c_backslash; c_u]) by (simpl; lia).
  rewrite (drop_next _ _ [c_backslash; c_u] _ Hd). simpl take.
  rewrite take_0. by rewrite Hh.
Qed.

Section RunsOfValues.

Variables (toolName : jstr) (fno fc : bool) (args : jstr).

Abbreviation Between := (between fno fc args).
Abbreviation InValue := (inValue fno fc args).

Definition itemsText (items : list StringItem) : jstr :=
  concat (List.map itemText items).

Lemma run_items items : forall cur rest bs ts joa,
  Forall wfItem items ->
  drop cur args = itemsText items ++ rest ->
  steps toolName (InValue cur bs ts joa) (concat (List.map itemOutput items))
    (InValue (cur + length (itemsText items)) bs ts joa).
Proof.
  unfold itemsText.
  induction items as [|i items IH]; intros cur rest bs ts joa Hwf Hd.
  - simpl. rewrite Nat.add_0_r. constructor.
  - apply Forall_cons in Hwf as [Hi Hwf]. simpl in Hd. rewrite <- app_assoc in Hd.
    simpl. rewrite length_app.
    replace (cur + (length (itemText i) + length (concat (List.map itemText items))))
      with ((cur + length (itemText i)) + length (concat (List.map itemText items)))
      by lia.
    pose proof (IH _ _ bs ts joa Hwf (drop_next _ _ _ _ Hd)) as Hrest.
    destruct i as [c|e|h1 h2 h3 h4]; simpl in *.
    + destruct Hi as [Hq Hb]. eapply steps_step_eq.
      3: exact Hrest.
      1: simpl; eapply drop_lookup; exact Hd.
      { unfold step, stepStringValue. simpl.
        rewrite (proj2 (N.eqb_neq c c_backslash)), (proj2 (N.eqb_neq c c_quote))
          by done.
        state_eq. }
      reflexivity.
    + eapply steps_step_eq.
      3: exact Hrest.
      1: simpl; eapply drop_lookup; exact Hd.
      { unfold step, stepStringValue. simpl.
        rewrite (getFullEscapeSequence_simple_drop _ _ _ _ Hd Hi).
        state_eq. }
      reflexivity.
    + eapply steps_step_eq.
      3: exact Hrest.
      1: simpl; eapply drop_lookup; exact Hd.
      { unfold step, stepStringValue. simpl.
        rewrite (getFullEscapeSequence_unicode_drop _ _ _ _ _ _ _ Hd Hi).
        state_eq. }
      reflexivity.
Qed.

End RunsOfValues.

(** ** Values in their context

    A value is read either as the value of a member (the top of the
    bracket stack is a brace; its tag was opened at the colon and is popped
    when the value ends) or as an element of an array (the top is a
    bracket; the tag of the array is opened and closed around the element
    and stays on the stack). *)

Definition isDelimiter (d : N) : Prop :=
  isSpace d = false /\ isPrimitiveChar d = false.

Definition tagsAfter (b : Bracket) (tag : jstr) (ts : list jstr) : list jstr :=
  match b with LBrace => ts | LBracket => tag :: ts end.

Definition openingOf (toolName : jstr) (b : Bracket) (tag : jstr) (depth : nat)
  : jstr :=
  match b with
  | LBrace => []
  | LBracket => indentAt depth ++ onOpenTag tag toolName
  end.

(** What the machine emits from the first character of the value to the
    delimiter behind it. *)
Definition valueOutput (toolName : jstr) (b : Bracket) (tag : jstr)
    (depth : nat) (v : Json) : jstr :=
  match v with
  | VArr _ [] => indentAt depth ++ onOpenTag tag toolName ++ onCloseTag tag toolName
  | VArr _ elements =>
    concat (List.map (λ e, block toolName tag depth (e_value e)) elements)
  | _ => openingOf toolName b tag depth ++ content toolName depth v
         ++ onCloseTag tag toolName
  end.

Lemma countBraces_bracket bs : countBraces (LBracket :: bs) = countBraces bs.
Proof. reflexivity. Qed.

Lemma countBraces_brace bs : countBraces (LBrace :: bs) = S (countBraces bs).
Proof. reflexivity. Qed.

(** Induction on a value with the property at hand for the values of its
    members and elements. *)
Fixpoint Json_nested_ind (P : Json -> Prop)
    (Hstr : forall items, P (VStr items))
    (Hprim : forall p, P (VPrim p))
    (Hobj : forall inner members,
        Forall (λ m, P (m_value m)) members -> P (VObj inner members))
    (Harr : forall inner elements,
        Forall (λ e, P (e_value e)) elements -> P (VArr inner elements))
    (v : Json) {struct v} : P v :=
  match v with
  | VStr items => Hstr items
  | VPrim p => Hprim p
  | VObj inner members =>
    Hobj inner members
      ((fix go (ms : list (Member Json)) : Forall (λ m, P (m_value m)) ms :=
          match ms with
          | [] => List.Forall_nil _
          | m :: ms' =>
            List.Forall_cons _ m ms'
              (Json_nested_ind P Hstr Hprim Hobj Harr (m_value m)) (go ms')
          end) members)
  | VArr inner elements =>
    Harr inner elements
      ((fix go (es : list (Element Json)) : Forall (λ e, P (e_value e)) es :=
          match es with
          | [] => List.Forall_nil _
          | e :: es' =>
            List.Forall_cons _ e es'
              (Json_nested_ind P Hstr Hprim Hobj Harr (e_value e)) (go es')
          end) elements)
  end.

Lemma firstNonWhitespace_skip w l :
  isWhitespace w -> firstNonWhitespace (w ++ l) = firstNonWhitespace l.
Proof.
  intros Hw. rewrite firstNonWhitespace_app.
  by rewrite (proj2 (firstNonWhitespace_None w) Hw).
Qed.

(** A value starts with a character that is not whitespace, and with an
    opening bracket exactly when it is an array. *)
Lemma text_head v :
  wf v ->
  exists c r, text v = c :: r /\ isSpace c = false
              /\ bool_decide (c = c_lbracket) = isArray v.
Proof.
  destruct v as [items|p|inner members|inner elements]; simpl; intros Hwf.
  - by eexists _, _.
  - destruct (isValidPrimitive_chars _ Hwf) as [Hchars Hne].
    destruct p as [|c r]; [done|]. apply Forall_cons in Hchars as [Hc _].
    exists c, r. split; [done|]. split; [by apply isPrimitiveChar_not_space|].
    apply bool_decide_eq_false. intros ->. done.
  - by eexists _, _.
  - by eexists _, _.
Qed.

Lemma firstNonWhitespace_value w v l :
  isWhitespace w -> wf v ->
  bool_decide (firstNonWhitespace (w ++ text v ++ l) = Some c_lbracket) = isArray v.
Proof.
  intros Hw Hwf. rewrite firstNonWhitespace_skip by done.
  destruct (text_head v Hwf) as (c & r & -> & Hc & Harr). simpl. rewrite Hc.
  rewrite <- Harr. apply bool_decide_ext. split; congruence.
Qed.

Lemma isDelimiter_comma : isDelimiter c_comma.
Proof. by split. Qed.
Lemma isDelimiter_rbrace : isDelimiter c_rbrace.
Proof. by split. Qed.
Lemma isDelimiter_rbracket : isDelimiter c_rbracket.
Proof. by split. Qed.

(** Closes an equation between two ways of writing the same output. *)
Ltac out_eq :=
  unfold valueOutput, openingOf, block, xmlLevel, indentAt, tagsAfter,
    onOpenTag, onCloseTag;
  simpl; rewrite <- ?app_assoc; simpl; rewrite <- ?app_assoc; try reflexivity.

Section RunsInContext.

Variables (toolName : jstr) (fno fc : bool) (args : jstr).

Abbreviation Between := (between fno fc args).
Abbreviation InValue := (inValue fno fc args).

Lemma run_one st c st' out rest :
  drop (cursor st) (arguments st) = c :: rest ->
  step toolName st c = Next st' out ->
  steps toolName st out st'.
Proof. intros Hd. eapply steps_one. by eapply drop_lookup. Qed.

Lemma run_string items cur rest b bs tag ts joa :
  Forall wfItem items -> tag ≠ [] ->
  drop cur args = text (VStr items) ++ rest ->
  steps toolName (Between cur EXPECT_VALUE (b :: bs) (tag :: ts) [] joa)
    (valueOutput toolName b tag (countBraces (b :: bs)) (VStr items))
    (Between (cur + length (text (VStr items))) EXPECT_COMMA_OR_CLOSING
       (b :: bs) (tagsAfter b tag ts) [] joa).
Proof.
  intros Hwf Htag Hd. destruct tag as [|t0 tag']; [done|].
  simpl in Hd. fold (itemsText items) in Hd. rewrite <- app_assoc in Hd.
  assert (drop (S cur) args = itemsText items ++ c_quote :: rest) as Hd1
    by (by eapply drop_next1).
  assert (drop (S cur + length (itemsText items)) args = c_quote :: rest) as Hd2
    by (by eapply drop_next).
  pose proof (run_items toolName fno fc args items (S cur) _ (b :: bs)
                ((t0 :: tag') :: ts) joa Hwf Hd1) as Hitems.
  assert (cur + length (text (VStr items)) = S (S cur + length (itemsText items)))
    as -> by (simpl; fold (itemsText items); rewrite length_app; simpl; lia).
  destruct b;
    (eapply steps_trans_eq; [|eapply steps_trans_eq; [exact Hitems| |reflexivity]|];
     [ eapply run_one; [exact Hd|];
       unfold step, switchAndAdvance, stepSwitch, between; simpl;
       unfold inValue; unfold_setters; reflexivity
     | eapply run_one; [exact Hd2|];
       unfold step, stepStringValue, inValue; simpl;
       unfold between; unfold_setters; reflexivity
     | out_eq ]).
Qed.

Lemma run_primitive_chars q : forall cur rest bs ts pb joa,
  Forall (λ c, isPrimitiveChar c = true) q ->
  drop cur args = q ++ rest ->
  steps toolName (Between cur EXPECT_VALUE bs ts pb joa) []
    (Between (cur + length q) EXPECT_VALUE bs ts (pb ++ q) joa).
Proof.
  induction q as [|c q IH]; intros cur rest bs ts pb joa Hq Hd.
  - simpl. rewrite Nat.add_0_r, app_nil_r. constructor.
  - apply Forall_cons in Hq as [Hc Hq]. simpl in Hd.
    replace (cur + length (c :: q)) with (S cur + length q) by (simpl; lia).
    replace (pb ++ c :: q) with ((pb ++ [c]) ++ q) by (by rewrite <- app_assoc).
    eapply steps_trans_eq.
    + eapply run_one; [exact Hd|].
      unfold step, between. simpl.
      rewrite (isPrimitiveChar_not_space _ Hc), Hc. unfold_setters. reflexivity.
    + eapply IH; [done|]. by eapply drop_next1.
    + reflexivity.
Qed.

Lemma run_primitive p w d rest cur b bs tag ts joa :
  isValidPrimitive p = true -> tag ≠ [] -> isWhitespace w -> isDelimiter d ->
  drop cur args = p ++ w ++ d :: rest ->
  steps toolName (Between cur EXPECT_VALUE (b :: bs) (tag :: ts) [] joa)
    (valueOutput toolName b tag (countBraces (b :: bs)) (VPrim p))
    (Between (cur + length p + length w) EXPECT_COMMA_OR_CLOSING
       (b :: bs) (tagsAfter b tag ts) [] joa).
Proof.
  intros Hp Htag Hw [Hsp Hpc] Hd. destruct tag as [|t0 tag']; [done|].
  destruct (isValidPrimitive_chars _ Hp) as [Hchars Hne].
  assert (trim p = p) as Htrim.
  { apply trim_id. eapply Forall_impl; [exact Hchars|].
    intros c. apply isPrimitiveChar_not_space. }
  assert (bool_decide (0 < length p) = true) as Hlen.
  { apply bool_decide_eq_true. destruct p; [done|simpl; lia]. }
  pose proof (run_primitive_chars p cur _ (b :: bs) ((t0 :: tag') :: ts) [] joa
                Hchars Hd) as H1.
  pose proof (run_whitespace toolName fno fc args w (cur + length p) _
                EXPECT_VALUE (b :: bs) ((t0 :: tag') :: ts) p joa Hw
                (drop_next _ _ _ _ Hd)) as H2.
  assert (drop (cur + length p + length w) args = d :: rest) as Hd3.
  { eapply drop_next. eapply drop_next. exact Hd. }
  destruct b;
    (eapply steps_trans_eq; [exact H1|eapply steps_trans_eq; [exact H2| |reflexivity]|];
     [ eapply run_one; [exact Hd3|];
       unfold step, between; simpl;
       rewrite Hsp, Hpc, Hlen, Htrim, Hp;
       unfold commitPrimitive; simpl; unfold_setters; reflexivity
     | out_eq ]).
Qed.

(** The run of a value in its context, up to the delimiter behind it. *)
Definition ValueRun (v : Json) : Prop :=
  forall cur w d rest b bs tag ts joa,
    wf v -> (b = LBracket -> isArray v = false) -> tag ≠ [] ->
    isWhitespace w -> isDelimiter d ->
    drop cur args = text v ++ w ++ d :: rest ->
    exists joa',
      steps toolName (Between cur EXPECT_VALUE (b :: bs) (tag :: ts) [] joa)
        (valueOutput toolName b tag (countBraces (b :: bs)) v)
        (Between (cur + length (text v) + length w) EXPECT_COMMA_OR_CLOSING
           (b :: bs) (tagsAfter b tag ts) [] joa').

Lemma renderMember_valueOutput depth m :
  renderMember toolName depth m
  = (if isArray (m_value m) then []
     else indentAt depth ++ onOpenTag (tagOf (m_key m)) toolName)
    ++ valueOutput toolName LBrace (tagOf (m_key m)) depth (m_value m).
Proof.
  unfold renderMember.
  destruct (m_value m) as [| | |inner [|e es]]; out_eq.
Qed.

Lemma run_member m :
  ValueRun (m_value m) -> wfMember m ->
  forall cur d rest bs ts joa,
    isDelimiter d ->
    drop cur args = memberText m ++ d :: rest ->
    exists joa',
      steps toolName (Between cur EXPECT_KEY (LBrace :: bs) ts [] joa)
        (renderMember toolName (countBraces (LBrace :: bs)) m)
        (Between (cur + length (memberText m)) EXPECT_COMMA_OR_CLOSING
           (LBrace :: bs) ts [] joa').
Proof.
  intros Hv (Hw1 & [Hkey Htag] & Hw2 & Hw3 & Hwf & Hw4) cur d rest bs ts joa Hdel Hd.
  unfold memberText in *. rewrite <- !app_assoc in Hd.
  set (k := keyText (m_key m)) in *.
  (* whitespace before the key *)
  pose proof (run_whitespace toolName fno fc args _ cur _ EXPECT_KEY (LBrace :: bs)
                ts [] joa Hw1 Hd) as H1.
  pose proof (drop_next _ _ _ _ Hd) as Hd1.
  (* the key *)
  pose proof (run_key toolName fno fc args (m_key m) _ _ (LBrace :: bs) ts joa
                Hkey Hd1) as H2.
  fold k in H2.
  assert (drop (cur + length (m_before m) + length k + 2) args
          = m_afterKey m ++ [c_colon] ++ m_afterColon m ++ text (m_value m)
            ++ m_after m ++ d :: rest) as Hd2.
  { replace (cur + length (m_before m) + length k + 2)
      with (cur + length (m_before m) + length ([c_quote] ++ k ++ [c_quote]))
      by (rewrite !length_app; simpl; lia).
    eapply drop_next. rewrite <- !app_assoc. exact Hd1. }
  (* whitespace, colon, whitespace *)
  pose proof (run_whitespace toolName fno fc args _ _ _ EXPECT_COLON (LBrace :: bs)
                (tagOf (m_key m) :: ts) [] joa Hw2 Hd2) as H3.
  pose proof (drop_next _ _ _ _ Hd2) as Hd3.
  pose proof (run_colon toolName fno fc args _ _ _ (LBrace :: bs) ts joa Htag Hd3)
    as H4.
  rewrite (firstNonWhitespace_value _ _ _ Hw3 Hwf) in H4.
  pose proof (drop_next1 _ _ _ _ Hd3) as Hd4.
  pose proof (run_whitespace toolName fno fc args _ _ _ EXPECT_VALUE (LBrace :: bs)
                (tagOf (m_key m) :: ts) [] joa Hw3 Hd4) as H5.
  pose proof (drop_next _ _ _ _ Hd4) as Hd5.
  (* the value *)
  destruct (Hv _ _ _ _ LBrace bs _ ts joa Hwf ltac:(done) Htag Hw4 Hdel Hd5)
    as (joa' & H6).
  exists joa'. rewrite renderMember_valueOutput.
  eapply steps_trans_eq; [exact H1| |reflexivity].
  eapply steps_trans_eq; [exact H2| |reflexivity].
  eapply steps_trans_eq; [exact H3| |reflexivity].
  eapply steps_trans_eq; [exact H4| |reflexivity].
  eapply steps_trans_eq; [exact H5| |reflexivity].
  replace (cur + length (m_before m ++ [c_quote] ++ k ++ [c_quote] ++ m_afterKey m
                         ++ [c_colon] ++ m_afterColon m ++ text (m_value m)
                         ++ m_after m))
    with (S (cur + length (m_before m) + length k + 2 + length (m_afterKey m))
          + length (m_afterColon m) + length (text (m_value m)) + length (m_after m))
    by (rewrite !length_app; simpl; lia).
  exact H6.
Qed.

Definition membersText (members : list (Member Json)) : jstr :=
  commaSeparated (List.map memberText members).

Definition elementsText (elements : list (Element Json)) : jstr :=
  commaSeparated (List.map elementText elements).

(** The members of an object, from the first key to the closing brace. *)
Lemma run_members m members :
  Forall (λ m, ValueRun (m_value m)) (m :: members) ->
  Forall wfMember (m :: members) ->
  forall cur rest bs ts joa,
    drop cur args = membersText (m :: members) ++ c_rbrace :: rest ->
    exists joa',
      steps toolName (Between cur EXPECT_KEY (LBrace :: bs) ts [] joa)
        (concat (List.map (renderMember toolName (countBraces (LBrace :: bs)))
                   (m :: members)))
        (Between (cur + length (membersText (m :: members)))
           EXPECT_COMMA_OR_CLOSING (LBrace :: bs) ts [] joa').
Proof.
  revert m. induction members as [|m' members IH]; intros m Hv Hwf cur rest bs ts joa Hd.
  - apply Forall_cons in Hv as [Hv _]. apply Forall_cons in Hwf as [Hwf _].
    unfold membersText in *. simpl in *. rewrite app_nil_r.
    by eapply run_member; [| |apply isDelimiter_rbrace|].
  - apply Forall_cons in Hv as [Hv Hvs]. apply Forall_cons in Hwf as [Hwf Hwfs].
    unfold membersText in *.
    change (commaSeparated (List.map memberText (m :: m' :: members)))
      with (memberText m ++ [c_comma]
            ++ commaSeparated (List.map memberText (m' :: members))) in *.
    rewrite <- !app_assoc in Hd.
    destruct (run_member m Hv Hwf cur c_comma _ bs ts joa isDelimiter_comma Hd)
      as (joa1 & H1).
    pose proof (drop_next _ _ _ _ Hd) as Hd1.
    destruct (IH m' Hvs Hwfs (S (cur + length (memberText m))) rest bs ts joa1)
      as (joa2 & H2); [by eapply drop_next1|].
    exists joa2.
    change (List.map ?f (m :: ?l)) with (f m :: List.map f l).
    change (concat (?x :: ?l)) with (x ++ concat l).
    eapply steps_trans_eq; [exact H1| |reflexivity].
    replace (cur + length (memberText m ++ [c_comma]
                           ++ commaSeparated (List.map memberText (m' :: members))))
      with (S (cur + length (memberText m))
            + length (commaSeparated (List.map memberText (m' :: members))))
      by (rewrite !length_app; simpl; lia).
    eapply steps_trans_eq.
    2: exact H2.
    1: { eapply run_one; [exact Hd1|].
         unfold step, switchAndAdvance, stepSwitch, between. simpl.
         unfold_setters. reflexivity. }
    reflexivity.
Qed.

Lemma run_element e :
  ValueRun (e_value e) -> wfElement e ->
  forall cur d rest bs tag ts joa,
    tag ≠ [] -> isDelimiter d ->
    drop cur args = elementText e ++ d :: rest ->
    exists joa',
      steps toolName (Between cur EXPECT_VALUE (LBracket :: bs) (tag :: ts) [] joa)
        (block toolName tag (countBraces (LBracket :: bs)) (e_value e))
        (Between (cur + length (elementText e)) EXPECT_COMMA_OR_CLOSING
           (LBracket :: bs) (tag :: ts) [] joa').
Proof.
  intros Hv (Hw1 & Hwf & Hna & Hw2) cur d rest bs tag ts joa Htag Hdel Hd.
  unfold elementText in *. rewrite <- !app_assoc in Hd.
  pose proof (run_whitespace toolName fno fc args _ cur _ EXPECT_VALUE
                (LBracket :: bs) (tag :: ts) [] joa Hw1 Hd) as H1.
  pose proof (drop_next _ _ _ _ Hd) as Hd1.
  destruct (Hv _ _ _ _ LBracket bs _ ts joa Hwf ltac:(done) Htag Hw2 Hdel Hd1)
    as (joa' & H2).
  exists joa'.
  replace (cur + length (e_before e ++ text (e_value e) ++ e_after e))
    with (cur + length (e_before e) + length (text (e_value e)) + length (e_after e))
    by (rewrite !length_app; lia).
  replace (block toolName tag (countBraces (LBracket :: bs)) (e_value e))
    with (valueOutput toolName LBracket tag (countBraces (LBracket :: bs)) (e_value e))
    by (destruct (e_value e); [out_eq | out_eq | out_eq | done]).
  eapply steps_trans_eq; [exact H1|exact H2|reflexivity].
Qed.

(** The elements of an array, from the first one to the closing bracket. *)
Lemma run_elements e elements :
  Forall (λ e, ValueRun (e_value e)) (e :: elements) ->
  Forall wfElement (e :: elements) ->
  forall cur rest bs tag ts joa,
    tag ≠ [] ->
    drop cur args = elementsText (e :: elements) ++ c_rbracket :: rest ->
    exists joa',
      steps toolName (Between cur EXPECT_VALUE (LBracket :: bs) (tag :: ts) [] joa)
        (concat (List.map (λ e, block toolName tag (countBraces (LBracket :: bs))
                                  (e_value e)) (e :: elements)))
        (Between (cur + length (elementsText (e :: elements)))
           EXPECT_COMMA_OR_CLOSING (LBracket :: bs) (tag :: ts) [] joa').
Proof.
  revert e. induction elements as [|e' elements IH];
    intros e Hv Hwf cur rest bs tag ts joa Htag Hd.
  - apply Forall_cons in Hv as [Hv _]. apply Forall_cons in Hwf as [Hwf _].
    unfold elementsText in *. simpl in *. rewrite app_nil_r.
    by eapply run_element; [| | |apply isDelimiter_rbracket|].
  - apply Forall_cons in Hv as [Hv Hvs]. apply Forall_cons in Hwf as [Hwf Hwfs].
    unfold elementsText in *.
    change (commaSeparated (List.map elementText (e :: e' :: elements)))
      with (elementText e ++ [c_comma]
            ++ commaSeparated (List.map elementText (e' :: elements))) in *.
    rewrite <- !app_assoc in Hd.
    destruct (run_element e Hv Hwf cur c_comma _ bs tag ts joa Htag
                isDelimiter_comma Hd) as (joa1 & H1).
    pose proof (drop_next _ _ _ _ Hd) as Hd1.
    destruct (IH e' Hvs Hwfs (S (cur + length (elementText e))) rest bs tag ts joa1
                Htag) as (joa2 & H2); [by eapply drop_next1|].
    exists joa2.
    change (List.map ?f (e :: ?l)) with (f e :: List.map f l).
    change (concat (?x :: ?l)) with (x ++ concat l).
    eapply steps_trans_eq; [exact H1| |reflexivity].
    replace (cur + length (elementText e ++ [c_comma]
                           ++ commaSeparated (List.map elementText (e' :: elements))))
      with (S (cur + length (elementText e))
            + length (commaSeparated (List.map elementText (e' :: elements))))
      by (rewrite !length_app; simpl; lia).
    eapply steps_trans_eq.
    2: exact H2.
    1: { eapply run_one; [exact Hd1|].
         unfold step, switchAndAdvance, stepSwitch, between. simpl.
         unfold_setters. reflexivity. }
    reflexivity.
Qed.


(** The brackets. *)
Lemma run_open_brace cur rest b bs tag ts joa :
  tag ≠ [] -> drop cur args = c_lbrace :: rest ->
  steps toolName (Between cur EXPECT_VALUE (b :: bs) (tag :: ts) [] joa)
    (openingOf toolName b tag (countBraces (b :: bs)) ++ [c_nl])
    (Between (S cur) EXPECT_KEY (LBrace :: b :: bs) (tag :: ts) [] false).
Proof.
  intros Htag Hd. destruct tag as [|t0 tag']; [done|].
  eapply run_one; [exact Hd|].
  unfold step, switchAndAdvance, stepSwitch, between. simpl.
  destruct b; simpl; unfold_setters; reflexivity.
Qed.

Lemma run_close_brace cur rest ps b bs tag ts joa :
  tag ≠ [] -> ps = EXPECT_KEY \/ ps = EXPECT_COMMA_OR_CLOSING ->
  drop cur args = c_rbrace :: rest ->
  steps toolName (Between cur ps (LBrace :: b :: bs) (tag :: ts) [] joa)
    (indentAt (countBraces (b :: bs)) ++ onCloseTag tag toolName)
    (Between (S cur) EXPECT_COMMA_OR_CLOSING (b :: bs) (tagsAfter b tag ts) [] joa).
Proof.
  intros Htag Hps Hd. destruct tag as [|t0 tag']; [done|].
  eapply run_one; [exact Hd|].
  unfold step, switchAndAdvance, stepSwitch, between.
  destruct Hps as [-> | ->]; destruct b; simpl; unfold_setters; reflexivity.
Qed.

Lemma run_open_bracket cur rest bs ts joa :
  drop cur args = c_lbracket :: rest ->
  steps toolName (Between cur EXPECT_VALUE bs ts [] joa) []
    (Between (S cur) EXPECT_VALUE (LBracket :: bs) ts [] true).
Proof.
  intros Hd. eapply run_one; [exact Hd|].
  unfold step, switchAndAdvance, stepSwitch, between. simpl.
  unfold_setters. reflexivity.
Qed.

Lemma run_close_empty_array cur rest bs tag ts :
  tag ≠ [] -> drop cur args = c_rbracket :: rest ->
  steps toolName (Between cur EXPECT_VALUE (LBracket :: bs) (tag :: ts) [] true)
    (indentAt (countBraces bs) ++ onOpenTag tag toolName ++ onCloseTag tag toolName)
    (Between (S cur) EXPECT_COMMA_OR_CLOSING bs ts [] false).
Proof.
  intros Htag Hd. destruct tag as [|t0 tag']; [done|].
  eapply run_one; [exact Hd|].
  unfold step, switchAndAdvance, stepSwitch, between. simpl.
  unfold_setters. reflexivity.
Qed.

Lemma run_close_array cur rest bs tag ts joa :
  drop cur args = c_rbracket :: rest ->
  steps toolName
    (Between cur EXPECT_COMMA_OR_CLOSING (LBracket :: bs) (tag :: ts) [] joa) []
    (Between (S cur) EXPECT_COMMA_OR_CLOSING bs ts [] false).
Proof.
  intros Hd. eapply run_one; [exact Hd|].
  unfold step, switchAndAdvance, stepSwitch, between. simpl.
  unfold_setters. reflexivity.
Qed.

Lemma text_object inner members :
  text (VObj inner members) = [c_lbrace] ++ inner ++ membersText members ++ [c_rbrace].
Proof. reflexivity. Qed.

Lemma text_array inner elements :
  text (VArr inner elements)
  = [c_lbracket] ++ inner ++ elementsText elements ++ [c_rbracket].
Proof. reflexivity. Qed.

(** Every well-formed value is rendered as [valueOutput] says. *)
Theorem value_run v : ValueRun v.
Proof.
  induction v as [items|p|inner members IH|inner elements IH] using Json_nested_ind;
    intros cur w d rest b bs tag ts joa Hwf Hctx Htag Hw Hdel Hd.
  - (* a string *)
    exists joa.
    eapply steps_trans_eq;
      [by eapply run_string|eapply run_whitespace; [exact Hw|]|].
    + eapply drop_next. exact Hd.
    + by rewrite app_nil_r.
  - (* a primitive *)
    exists joa. by eapply run_primitive.
  - (* an object *)
    apply wf_object in Hwf as [Hinner Hmembers].
    rewrite text_object in *. rewrite <- !app_assoc in Hd.
    pose proof (run_open_brace cur _ b bs tag ts joa Htag Hd) as H1.
    pose proof (drop_next1 _ _ _ _ Hd) as Hd1.
    pose proof (run_whitespace toolName fno fc args inner (S cur) _ EXPECT_KEY
                  (LBrace :: b :: bs) (tag :: ts) [] false Hinner Hd1) as H2.
    pose proof (drop_next _ _ _ _ Hd1) as Hd2.
    assert (exists ps joa1,
              (ps = EXPECT_KEY \/ ps = EXPECT_COMMA_OR_CLOSING)
              /\ steps toolName
                   (Between (S cur + length inner) EXPECT_KEY (LBrace :: b :: bs)
                      (tag :: ts) [] false)
                   (concat (List.map
                      (renderMember toolName (S (countBraces (b :: bs)))) members))
                   (Between (S cur + length inner + length (membersText members))
                      ps (LBrace :: b :: bs) (tag :: ts) [] joa1))
      as (ps & joa1 & Hps & H3).
    { destruct members as [|m members].
      - exists EXPECT_KEY, false. split; [by left|].
        simpl. rewrite Nat.add_0_r. constructor.
      - destruct (run_members m members IH Hmembers _ _ (b :: bs) (tag :: ts) false Hd2)
          as (joa1 & H3).
        exists EXPECT_COMMA_OR_CLOSING, joa1. split; [by right|]. exact H3. }
    pose proof (drop_next _ _ _ _ Hd2) as Hd3.
    pose proof (run_close_brace _ _ ps b bs tag ts joa1 Htag Hps Hd3) as H4.
    pose proof (drop_next1 _ _ _ _ Hd3) as Hd4.
    pose proof (run_whitespace toolName fno fc args w _ _ EXPECT_COMMA_OR_CLOSING
                  (b :: bs) (tagsAfter b tag ts) [] joa1 Hw Hd4) as H5.
    exists joa1.
    replace (cur + length ([c_lbrace] ++ inner ++ membersText members ++ [c_rbrace])
             + length w)
      with (S (S cur + length inner + length (membersText members)) + length w)
      by (rewrite !length_app; simpl; lia).
    eapply steps_trans_eq; [exact H1| |].
    2: { unfold valueOutput. rewrite content_object.
         rewrite <- !app_assoc. reflexivity. }
    eapply steps_trans_eq; [exact H2| |reflexivity].
    eapply steps_trans_eq; [exact H3| |reflexivity].
    eapply steps_trans_eq; [exact H4|exact H5|].
    by rewrite app_nil_r.
  - (* an array *)
    destruct b; [|by specialize (Hctx eq_refl)]. clear Hctx.
    apply wf_array in Hwf as [Hinner Helements].
    rewrite text_array in *. rewrite <- !app_assoc in Hd.
    pose proof (run_open_bracket cur _ (LBrace :: bs) (tag :: ts) joa Hd) as H1.
    pose proof (drop_next1 _ _ _ _ Hd) as Hd1.
    pose proof (run_whitespace toolName fno fc args inner (S cur) _ EXPECT_VALUE
                  (LBracket :: LBrace :: bs) (tag :: ts) [] true Hinner Hd1) as H2.
    pose proof (drop_next _ _ _ _ Hd1) as Hd2.
    pose proof (drop_next _ _ _ _ Hd2) as Hd3.
    pose proof (drop_next1 _ _ _ _ Hd3) as Hd4.
    pose proof (run_whitespace toolName fno fc args w _ _ EXPECT_COMMA_OR_CLOSING
                  (LBrace :: bs) ts [] false Hw Hd4) as H5.
    exists false.
    replace (cur + length ([c_lbracket] ++ inner ++ elementsText elements
                           ++ [c_rbracket]) + length w)
      with (S (S cur + length inner + length (elementsText elements)) + length w)
      by (rewrite !length_app; simpl; lia).
    eapply steps_trans_eq; [exact H1| |reflexivity].
    eapply steps_trans_eq; [exact H2| |reflexivity].
    destruct elements as [|e elements].
    + simpl in *. rewrite Nat.add_0_r in *.
      eapply steps_trans_eq; [by eapply run_close_empty_array|exact H5|].
      by rewrite app_nil_r.
    + destruct (run_elements e elements IH Helements _ _ (LBrace :: bs) tag ts true
                  Htag Hd2) as (joa1 & H3).
      eapply steps_trans_eq; [exact H3| |].
      * eapply steps_trans_eq; [by eapply run_close_array|exact H5|reflexivity].
      * by rewrite app_nil_r.
Qed.

(** The root object: no tag is open around it. *)
Lemma run_root_open cur rest joa :
  drop cur args = c_lbrace :: rest ->
  steps toolName (Between cur EXPECT_ROOT [] [] [] joa) [c_nl]
    (Between (S cur) EXPECT_KEY [LBrace] [] [] false).
Proof.
  intros Hd. eapply run_one; [exact Hd|].
  unfold step, switchAndAdvance, stepSwitch, between. simpl.
  unfold_setters. reflexivity.
Qed.

Lemma run_root_close cur rest ps joa :
  ps = EXPECT_KEY \/ ps = EXPECT_COMMA_OR_CLOSING ->
  drop cur args = c_rbrace :: rest ->
  steps toolName (Between cur ps [LBrace] [] [] joa) []
    (Between (S cur) EXPECT_COMMA_OR_CLOSING [] [] [] joa).
Proof.
  intros Hps Hd. eapply run_one; [exact Hd|].
  unfold step, switchAndAdvance, stepSwitch, between.
  destruct Hps as [-> | ->]; simpl; unfold_setters; reflexivity.
Qed.

(** The whole buffer: a well-formed object between two runs of
    whitespace. *)
Lemma run_root before inner members after :
  wf (VObj inner members) -> isWhitespace before -> isWhitespace after ->
  args = before ++ text (VObj inner members) ++ after ->
  exists joa',
    steps toolName (Between 0 EXPECT_ROOT [] [] [] false)
      ([c_nl] ++ concat (List.map (renderMember toolName 1) members))
      (Between (length args) EXPECT_COMMA_OR_CLOSING [] [] [] joa').
Proof.
  intros Hwf Hb Ha Hargs.
  apply wf_object in Hwf as [Hinner Hmembers].
  assert (drop 0 args = before ++ [c_lbrace] ++ inner ++ membersText members
                        ++ [c_rbrace] ++ after ++ []) as Hd.
  { rewrite Hargs, text_object. simpl. by rewrite <- !app_assoc, app_nil_r. }
  pose proof (run_whitespace toolName fno fc args before 0 _ EXPECT_ROOT [] [] []
                false Hb Hd) as H0.
  pose proof (drop_next _ _ _ _ Hd) as Hd0.
  pose proof (run_root_open _ _ false Hd0) as H1.
  pose proof (drop_next1 _ _ _ _ Hd0) as Hd1.
  pose proof (run_whitespace toolName fno fc args inner _ _ EXPECT_KEY
                [LBrace] [] [] false Hinner Hd1) as H2.
  pose proof (drop_next _ _ _ _ Hd1) as Hd2.
  assert (exists ps joa1,
            (ps = EXPECT_KEY \/ ps = EXPECT_COMMA_OR_CLOSING)
            /\ steps toolName
                 (Between (S (0 + length before) + length inner) EXPECT_KEY
                    [LBrace] [] [] false)
                 (concat (List.map (renderMember toolName 1) members))
                 (Between (S (0 + length before) + length inner
                           + length (membersText members))
                    ps [LBrace] [] [] joa1))
    as (ps & joa1 & Hps & H3).
  { destruct members as [|m members].
    - exists EXPECT_KEY, false. split; [by left|].
      simpl. rewrite Nat.add_0_r. constructor.
    - assert (Forall (λ m, ValueRun (m_value m)) (m :: members)) as Hall.
      { apply Forall_forall. intros x _. apply value_run. }
      destruct (run_members m members Hall Hmembers _ _ [] [] false Hd2)
        as (joa1 & H3).
      exists EXPECT_COMMA_OR_CLOSING, joa1. split; [by right|]. exact H3. }
  pose proof (drop_next _ _ _ _ Hd2) as Hd3.
  pose proof (run_root_close _ _ ps joa1 Hps Hd3) as H4.
  pose proof (drop_next1 _ _ _ _ Hd3) as Hd4.
  pose proof (run_whitespace toolName fno fc args after _ _ EXPECT_COMMA_OR_CLOSING
                [] [] [] joa1 Ha Hd4) as H5.
  exists joa1.
  replace (length args)
    with (S (S (0 + length before) + length inner + length (membersText members))
          + length after)
    by (rewrite Hargs, text_object, !length_app; simpl; lia).
  rewrite <- (app_nil_r (concat _)).
  eapply steps_trans_eq; [exact H0| |reflexivity].
  eapply steps_trans_eq; [exact H1| |reflexivity].
  eapply steps_trans_eq; [exact H2| |reflexivity].
  eapply steps_trans_eq; [exact H3| |reflexivity].
  eapply steps_trans_eq; [exact H4|exact H5|reflexivity].
Qed.

End RunsInContext.

(** ** The rendering of a whole call *)

Section Rendering.

Variable isToolSupported : jstr -> bool.

Lemma halted_at_end toolName fno fc args ps bs ts pb joa :
  halted toolName (between fno fc args (length args) ps bs ts pb joa).
Proof.
  unfold halted. simpl. by rewrite lookup_ge_None_2.
Qed.

Lemma text_nonempty v : wf v -> 0 < length (text v).
Proof.
  intros Hwf. destruct (text_head v Hwf) as (c & r & -> & _). simpl. lia.
Qed.

(** The state machine on a well-formed object, started on a new state
    whose function tag has just been opened. *)
Lemma processArguments_object name before inner members after :
  wf (VObj inner members) -> isWhitespace before -> isWhitespace after ->
  exists joa',
    processArguments
      (set_arguments (before ++ text (VObj inner members) ++ after)
         (set_functionNameOutputted true newState)) name
    = (between true false (before ++ text (VObj inner members) ++ after)
         (length (before ++ text (VObj inner members) ++ after))
         EXPECT_COMMA_OR_CLOSING [] [] [] joa',
       [c_nl] ++ concat (List.map (renderMember name 1) members)).
Proof.
  intros Hwf Hb Ha.
  destruct (run_root name true false _ before inner members after Hwf Hb Ha eq_refl)
    as (joa' & Hrun).
  exists joa'. apply steps_processArguments; [exact Hrun|apply halted_at_end].
Qed.

(** Once closed, a call stays closed and its closing tag is not emitted
    again. *)
Lemma closed_stays_closed toolCall state :
  functionClosed state = true ->
  closeWhenComplete isToolSupported toolCall state = (state, [])
  /\ functionClosed (emitDelta isToolSupported toolCall state).1 = true
  /\ (emitDelta isToolSupported toolCall state).2
     = (emitArguments isToolSupported toolCall state).2.
Proof.
  intros Hc.
  assert (forall st, functionClosed st = true ->
                     closeWhenComplete isToolSupported toolCall st = (st, [])) as Hcl.
  { intros st Hst. unfold closeWhenComplete. rewrite Hst. simpl.
    by rewrite andb_false_r. }
  split; [by apply Hcl|].
  assert (functionClosed (emitArguments isToolSupported toolCall state).1 = true) as H1.
  { unfold emitArguments.
    destruct (isValidToolName isToolSupported (tc_name toolCall)
              && negb (functionNameOutputted state)).
    - destruct (bool_decide (0 < length (tc_arguments toolCall))); [|done].
      pose proof (processArguments_frame
                    (set_arguments (tc_arguments toolCall)
                       (set_functionNameOutputted true state))
                    (tc_name toolCall)) as (_ & _ & Hf).
      destruct (processArguments _ _) as [st' out']. simpl in Hf |- *.
      by rewrite Hf.
    - destruct (functionNameOutputted state
                && bool_decide (length (arguments state)
                                < length (tc_arguments toolCall))); [|done].
      pose proof (processArguments_frame
                    (set_arguments (tc_arguments toolCall) state)
                    (tc_name toolCall)) as (_ & _ & Hf).
      by rewrite Hf. }
  unfold emitDelta.
  destruct (emitArguments isToolSupported toolCall state) as [st1 out1].
  simpl in H1. rewrite (Hcl st1 H1). simpl. by rewrite app_nil_r.
Qed.

Lemma processDelta_object (p : Processor) index id name before inner members after :
  array_get (accumulatedToolCalls p) index = None ->
  isValidToolName isToolSupported name = true ->
  wf (VObj inner members) -> isWhitespace before -> isWhitespace after ->
  exists joa',
    processDelta isToolSupported p
      (delta index id name (before ++ text (VObj inner members) ++ after))
    = inr (mkProcessor
             (array_set index
                (mkToolCall id name (before ++ text (VObj inner members) ++ after))
                (array_set index (mkToolCall id [] []) (accumulatedToolCalls p)))
             (<[index :=
                  set_functionClosed true
                    (between true false (before ++ text (VObj inner members) ++ after)
                       (length (before ++ text (VObj inner members) ++ after))
                       EXPECT_COMMA_OR_CLOSING [] [] [] joa')]>
                (<[index := newState]> (processingStates p))),
           index,
           openFunctionTag name ++ [c_nl]
           ++ concat (List.map (renderMember name 1) members)
           ++ closeFunctionTag name).
Proof.
  intros Hfresh Hvalid Hwf Hb Ha.
  destruct (processArguments_object name before inner members after Hwf Hb Ha)
    as (joa' & Hrun).
  exists joa'.
  assert (0 < length (before ++ text (VObj inner members) ++ after)) as Hlen.
  { pose proof (text_nonempty _ Hwf). rewrite !length_app. lia. }
  revert Hrun Hlen. generalize (before ++ text (VObj inner members) ++ after).
  intros args Hrun Hlen.
  unfold processDelta, delta. simpl. rewrite Hfresh. simpl.
  rewrite array_get_set_eq, lookup_insert_eq.
  unfold emitDelta, emitArguments, accumulate. simpl. rewrite Hvalid. simpl.
  rewrite bool_decide_eq_true_2 by done.
  rewrite Hrun. unfold closeWhenComplete. simpl. rewrite Hvalid. simpl.
  rewrite bool_decide_eq_true_2 by done.
  rewrite drop_all. simpl.
  do 2 f_equal. by rewrite <- !app_assoc.
Qed.

End Rendering.

(** * Further properties of the transcoder *)

(** ** Escape sequences *)

Lemma getFullEscapeSequence_bound str pos esc :
  getFullEscapeSequence str pos = Some esc ->
  pos + length esc <= length str.
Proof.
  unfold getFullEscapeSequence, substring. intros H.
  repeat (case_bool_decide || case_match); simplify_eq; simpl.
  - rewrite length_take, length_drop. lia.
  - rewrite length_take, length_drop. lia.
Qed.

(** A sequence returned by [getFullEscapeSequence] is the text of the
    buffer at [pos]: it starts with the backslash, is two code units long
    (a simple escape) or six (a unicode escape with four hexadecimal
    digits) and lies within the buffer, so that moving the cursor by its
    length skips exactly what was decoded. *)
Theorem escape_sequence_is_buffer_text str pos esc :
  getFullEscapeSequence str pos = Some esc ->
  esc = take (length esc) (drop pos str)
  /\ head esc = Some c_backslash
  /\ pos + length esc <= length str
  /\ (length esc = 2 /\ str !! (pos + 1) <> Some c_u
      \/ length esc = 6 /\ str !! (pos + 1) = Some c_u
         /\ forallb isHex (drop 2 esc) = true).
Proof.
  unfold getFullEscapeSequence, substring. intros H.
  destruct (bool_decide (str !! pos = Some c_backslash)) eqn:H0; [|done].
  apply bool_decide_eq_true in H0. simpl in H.
  case_bool_decide as H1; [done|].
  pose proof (take_drop_middle str pos c_backslash H0) as Hsplit.
  assert (drop pos str = c_backslash :: drop (S pos) str) as Hd.
  { by apply drop_S. }
  case_bool_decide as H2.
  - case_bool_decide as H3; [done|].
    destruct (forallb isHex _) eqn:Hhex; [|done]. simplify_eq.
    assert (drop (S pos) str = c_u :: drop (pos + 2) str) as Hd2.
    { replace (pos + 2) with (S (S pos)) by lia. apply drop_S.
      by replace (S pos) with (pos + 1) by lia. }
    replace (pos + 6 - (pos + 2)) with 4 in * by lia.
    assert (length (take 4 (drop (pos + 2) str)) = 4) as Hlen.
    { rewrite length_take, length_drop. lia. }
    simpl. rewrite Hlen, Hd, Hd2. simpl.
    repeat split; try done; try lia.
    right. by rewrite drop_0.
  - simplify_eq. replace (pos + 2 - pos) with 2 by lia.
    assert (length (take 2 (drop pos str)) = 2) as Hlen.
    { rewrite length_take, length_drop. lia. }
    rewrite Hlen. split; [done|]. split; [by rewrite Hd|].
    split; [lia|]. by left.
Qed.

Lemma escape_sequence_is_buffer_text_witness :
  js "\u00e9" = take 6 (drop 2 (js "ab\u00e9cd"))
  /\ head (js "\u00e9") = Some c_backslash.
Proof.
  pose proof (escape_sequence_is_buffer_text (js "ab\u00e9cd") 2 (js "\u00e9")
                ltac:(vm_compute; reflexivity)) as (H1 & H2 & _).
  split; [exact H1 | exact H2].
Defined.

(** ** The loop of [processArguments] *)

Lemma step_cursor_bound toolName st c st' out :
  arguments st !! cursor st = Some c ->
  step toolName st c = Next st' out ->
  cursor st' <= length (arguments st).
Proof.
  intros Hc. apply lookup_lt_Some in Hc. revert Hc.
  unfold step, stepStringValue, stepStringKey, switchAndAdvance.
  repeat case_match; intros; simplify_eq; simpl;
    repeat match goal with
    | H : stepSwitch _ _ _ = _ |- _ => apply stepSwitch_frame in H; simpl in H
    | H : commitPrimitive _ _ _ = _ |- _ => apply commitPrimitive_frame in H
    | H : getFullEscapeSequence _ _ = Some _ |- _ =>
        apply getFullEscapeSequence_bound in H
    end; try (intuition (simpl in *; (congruence || lia))).
Qed.

Lemma steps_cursor toolName st x st' :
  steps toolName st x st' ->
  cursor st <= cursor st'
  /\ (cursor st <= length (arguments st) -> cursor st' <= length (arguments st)).
Proof.
  induction 1 as [|st c st1 out st2 x Hc Hs Hst IH]; [done|].
  pose proof (step_cursor_bound _ _ _ _ _ Hc Hs) as Hb.
  apply step_progress in Hs as [Ha Hs]. rewrite Ha in IH.
  destruct IH as [IH1 IH2]. split; [lia|]. intros _. by apply IH2.
Qed.

Lemma step_Return toolName st c :
  step toolName st c = Return_ ->
  inString st = true /\ isStreamingStringValue st = true /\ c = c_backslash
  /\ getFullEscapeSequence (arguments st) (cursor st) = None.
Proof.
  unfold step, stepStringValue, stepStringKey, switchAndAdvance.
  repeat case_match; intros; simplify_eq.
  repeat split; try done. by apply N.eqb_eq.
Qed.

Lemma getFullEscapeSequence_None args pos :
  args !! pos = Some c_backslash ->
  getFullEscapeSequence args pos = None ->
  length args <= pos + 1
  \/ args !! (pos + 1) = Some c_u
     /\ (length args <= pos + 5
         \/ pos + 5 < length args
            /\ forallb isHex (substring (pos + 2) (pos + 6) args) = false).
Proof.
  intros H0. unfold getFullEscapeSequence.
  rewrite bool_decide_eq_true_2 by done. simpl.
  case_bool_decide as H1; [by left|].
  case_bool_decide as H2; [|done]. right. split; [done|].
  case_bool_decide as H3; [by left|]. right. split; [lia|].
  by destruct (forallb isHex _).
Qed.

Lemma getFullEscapeSequence_invalid args s2 pos :
  args !! pos = Some c_backslash -> args !! (pos + 1) = Some c_u ->
  pos + 5 < length args ->
  forallb isHex (substring (pos + 2) (pos + 6) args) = false ->
  getFullEscapeSequence (args ++ s2) pos = None.
Proof.
  intros H0 H1 Hlen Hhex. unfold getFullEscapeSequence.
  rewrite (bool_decide_eq_true_2 _ (lookup_app_l_Some _ _ _ _ H0)). simpl.
  rewrite bool_decide_eq_false_2 by (rewrite length_app; lia).
  rewrite (bool_decide_eq_true_2 _ (lookup_app_l_Some _ _ _ _ H1)).
  rewrite bool_decide_eq_false_2 by (rewrite length_app; lia).
  replace (substring (pos + 2) (pos + 6) (args ++ s2))
    with (substring (pos + 2) (pos + 6) args); [by rewrite Hhex|].
  unfold substring. rewrite drop_app_le by lia.
  rewrite take_app_le; [done|]. rewrite length_drop. lia.
Qed.

(** [processArguments] leaves the buffer alone, moves the cursor forward
    only and never past the end of the buffer, and returns in one of these
    situations only: the buffer is consumed; or the cursor is on the
    backslash of a streamed string value and the escape is not buffered in
    full (nothing, or [u] and fewer than four characters, behind the
    backslash); or the cursor is on such a backslash followed by [u] and
    four buffered characters that are not all hexadecimal digits.  In the
    last situation the run does not move past the backslash any more,
    whatever is appended to the buffer. *)
Theorem processArguments_consumes_buffer (st : State) (toolName : jstr) :
  let st' := (processArguments st toolName).1 in
  arguments st' = arguments st
  /\ cursor st <= cursor st'
  /\ (cursor st <= length (arguments st) -> cursor st' <= length (arguments st))
  /\ (length (arguments st) <= cursor st'
      \/ inString st' = true /\ isStreamingStringValue st' = true
         /\ arguments st !! cursor st' = Some c_backslash
         /\ (length (arguments st) <= cursor st' + 1
             \/ arguments st !! (cursor st' + 1) = Some c_u
                /\ length (arguments st) <= cursor st' + 5
             \/ arguments st !! (cursor st' + 1) = Some c_u
                /\ cursor st' + 5 < length (arguments st)
                /\ forallb isHex
                     (substring (cursor st' + 2) (cursor st' + 6) (arguments st))
                   = false
                /\ forall s2 : jstr,
                     processArguments (extend s2 st') toolName
                     = (extend s2 st', []))).
Proof.
  intros st'. subst st'.
  pose proof (processArguments_steps toolName st) as Hst.
  pose proof (processArguments_halts toolName st) as Hh.
  pose proof (steps_arguments _ _ _ _ Hst) as Ha.
  destruct (steps_cursor _ _ _ _ Hst) as [Hle Hb].
  split; [done|]. split; [done|]. split; [done|].
  unfold halted in Hh. rewrite Ha in Hh.
  destruct (arguments st !! cursor (processArguments st toolName).1) as [c|] eqn:Hc.
  - right. apply step_Return in Hh as (H1 & H2 & -> & H4).
    rewrite Ha in H4. split; [done|]. split; [done|]. split; [done|].
    destruct (getFullEscapeSequence_None _ _ Hc H4) as [Hlone|[Hu [Hshort|[Hlong Hhex]]]].
    + by left.
    + right. by left.
    + right. right. split; [done|]. split; [done|]. split; [done|].
      intros s2. apply halted_processArguments.
      unfold halted. simpl. rewrite Ha.
      rewrite (lookup_app_l_Some _ _ _ _ Hc).
      unfold step, stepStringValue. simpl. rewrite H1, H2. simpl. rewrite Ha.
      by rewrite (getFullEscapeSequence_invalid _ s2 _ Hc Hu Hlong Hhex).
  - left. by apply lookup_ge_None_1.
Qed.

(** ** Feeding the buffer in parts *)

(** Feeding a buffer in two parts gives the state and the output of
    feeding it in one piece whenever the first part ends inside a string,
    or the second part does not start, after whitespace, with an opening
    square bracket (the character the look-ahead of a colon waits for). *)
Theorem split_preserves_output (toolName : jstr) (st : State) (s2 : jstr) :
  inString (processArguments st toolName).1 = true
  \/ firstNonWhitespace s2 <> Some c_lbracket ->
  processArguments (extend s2 st) toolName
  = ((processArguments (extend s2 (processArguments st toolName).1) toolName).1,
     (processArguments st toolName).2
     ++ (processArguments (extend s2 (processArguments st toolName).1) toolName).2).
Proof.
  intros H. apply processArguments_split.
  pose proof (processArguments_steps toolName st) as Hst.
  destruct H as [Hin|Hnb].
  - by apply steps_extend_inString.
  - by apply steps_extend_noBracket.
Qed.

Lemma split_preserves_output_witness :
  processArguments (extend (jsq "1,'b':'x'}") (set_arguments (jsq "{'a':") newState))
    (js "read_file")
  = ((processArguments
        (extend (jsq "1,'b':'x'}")
           (processArguments (set_arguments (jsq "{'a':") newState)
              (js "read_file")).1) (js "read_file")).1,
     (processArguments (set_arguments (jsq "{'a':") newState) (js "read_file")).2
     ++ (processArguments
           (extend (jsq "1,'b':'x'}")
              (processArguments (set_arguments (jsq "{'a':") newState)
                 (js "read_file")).1) (js "read_file")).2).
Proof.
  apply (split_preserves_output (js "read_file")
           (set_arguments (jsq "{'a':") newState) (jsq "1,'b':'x'}")).
  right. vm_compute. discriminate.
Defined.

(** ** Streamed string values *)

Lemma set_cursor_id st : set_cursor (cursor st) st = st.
Proof. by destruct st. Qed.

Lemma steps_plain toolName chunk : forall st rest,
  inString st = true -> isStreamingStringValue st = true ->
  drop (cursor st) (arguments st) = chunk ++ rest ->
  Forall (λ c, c ≠ c_quote /\ c ≠ c_backslash) chunk ->
  steps toolName st chunk (set_cursor (cursor st + length chunk) st).
Proof.
  induction chunk as [|c chunk IH]; intros st rest Hin Hsv Hd Hall.
  - simpl. rewrite Nat.add_0_r, set_cursor_id. constructor.
  - inversion Hall as [|? ? [Hq Hb] Hall']; subst.
    replace (set_cursor (cursor st + length (c :: chunk)) st)
      with (set_cursor (cursor (advance st) + length chunk) (advance st))
      by (destruct st; simpl; unfold advance, set_cursor; simpl; f_equal; lia).
    change (c :: chunk) with ([c] ++ chunk).
    eapply steps_step.
    + eapply drop_lookup. exact Hd.
    + unfold step. rewrite Hin, Hsv. unfold stepStringValue.
      rewrite (proj2 (N.eqb_neq _ _) Hb), (proj2 (N.eqb_neq _ _) Hq). reflexivity.
    + apply (IH (advance st) rest Hin Hsv); [|done]. simpl.
      rewrite <- (Nat.add_1_r (cursor st)), <- drop_drop, Hd. done.
Qed.

(** Inside a string value whose text so far is consumed, a delta of
    characters other than the quote and the backslash is emitted as it
    is, at once and in full; the state only moves its cursor to the end of
    the buffer. *)
Theorem string_value_streams_verbatim (toolName : jstr) (st : State) (chunk : jstr) :
  inString st = true -> isStreamingStringValue st = true ->
  cursor st = length (arguments st) ->
  Forall (λ c, c ≠ c_quote /\ c ≠ c_backslash) chunk ->
  processArguments (extend chunk st) toolName
  = (set_cursor (length (arguments st) + length chunk) (extend chunk st), chunk).
Proof.
  intros Hin Hsv Hcur Hall.
  apply steps_processArguments.
  - rewrite <- Hcur.
    change (cursor st) with (cursor (extend chunk st)) at 1.
    apply (steps_plain toolName chunk (extend chunk st) []); try done.
    simpl. rewrite Hcur, drop_app_length. by rewrite app_nil_r.
  - unfold halted. simpl. rewrite lookup_ge_None_2; [done|].
    rewrite length_app. lia.
Qed.

Lemma string_value_streams_verbatim_witness :
  processArguments
    (extend (js "lo wor")
       (processArguments (set_arguments (jsq "{'msg':'hel") newState)
          (js "read_file")).1) (js "read_file")
  = (set_cursor 17
       (extend (js "lo wor")
          (processArguments (set_arguments (jsq "{'msg':'hel") newState)
             (js "read_file")).1), js "lo wor").
Proof.
  apply (string_value_streams_verbatim (js "read_file")
           (processArguments (set_arguments (jsq "{'msg':'hel") newState)
              (js "read_file")).1 (js "lo wor")).
  - vm_compute. reflexivity.
  - vm_compute. reflexivity.
  - vm_compute. reflexivity.
  - vm_compute. repeat constructor; discriminate.
Defined.

(** ** Closed calls *)

Section ClosedCalls.

Variable isToolSupported : jstr -> bool.

Lemma finalizeAt_closed (p : Processor) i :
  (forall st, processingStates p !! i = Some st -> functionClosed st = true) ->
  finalizeAt isToolSupported p i = (p, []).
Proof.
  intros H. unfold finalizeAt.
  destruct (processingStates p !! i) as [st|]; [|done].
  rewrite (H st eq_refl). by destruct (array_get (accumulatedToolCalls p) i).
Qed.

Lemma finalizeFrom_closed (p : Processor) indices finalXml :
  (forall i st, processingStates p !! i = Some st -> functionClosed st = true) ->
  finalizeFrom isToolSupported p finalXml indices = (p, finalXml).
Proof.
  intros H. revert finalXml.
  induction indices as [|i indices IH]; intros finalXml; simpl; [done|].
  rewrite finalizeAt_closed by (intros st; apply H).
  by rewrite IH, app_nil_r.
Qed.

(** [finalize] has nothing to do on a processor all of whose calls are
    closed (in particular on a new processor): it returns the empty string
    and leaves the processor as it is. *)
Theorem finalize_nothing_left_open (p : Processor) :
  (forall i st, processingStates p !! i = Some st -> functionClosed st = true) ->
  finalize isToolSupported p = (p, []).
Proof. intros H. by apply finalizeFrom_closed. Qed.

(** Once a call is closed, a further delta for its index appends to the
    output what the state machine emits for the new characters and
    nothing else: the closing tag of the function is not written a second
    time, the call stays closed, and [finalize] passes over it. *)
Theorem closed_call_stays_closed (p : Processor) (d : Delta) tc st p' i out :
  array_get (accumulatedToolCalls p) (default 0 (d_index d)) = Some tc ->
  processingStates p !! default 0 (d_index d) = Some st ->
  functionClosed st = true ->
  processDelta isToolSupported p d = inr (p', i, out) ->
  out = (emitArguments isToolSupported (accumulate tc d) st).2
  /\ (exists st', processingStates p' !! i = Some st' /\ functionClosed st' = true)
  /\ finalizeAt isToolSupported p' i = (p', []).
Proof.
  intros Htc Hst Hc H. unfold processDelta in H. rewrite Htc in H.
  rewrite Htc, Hst in H.
  destruct (emitDelta isToolSupported (accumulate tc d) st) as [st2 out2] eqn:He.
  simplify_eq.
  destruct (closed_stays_closed isToolSupported (accumulate tc d) st Hc)
    as (_ & Hcl & Hout).
  rewrite He in Hcl, Hout. simpl in Hcl, Hout.
  split; [done|]. split.
  - exists st2. simpl. by rewrite lookup_insert_eq.
  - apply finalizeAt_closed. simpl. rewrite lookup_insert_eq. by intros ? [= <-].
Qed.

End ClosedCalls.

(** ** The rendering of a complete call *)

(** Writing example texts: a key or a string without escapes, a member and
    an element without whitespace around them. *)
Definition plainKey (s : string) : list KeyItem := List.map KChar (js s).
Definition plainString (s : string) : Json := VStr (List.map SChar (js s)).
Definition member (key : string) (v : Json) : Member Json :=
  mkMember [] (plainKey key) [] [] v [].
Definition element (v : Json) : Element Json := mkElement [] v [].

Section CompleteCall.

Variable isToolSupported : jstr -> bool.

(** A call that arrives whole.  When the first delta of a call brings a
    recognised tool name and, as arguments, a well-formed object (with any
    whitespace around and inside it), the chunk is rendered as the opening
    tag of the function, a line feed, the members of the object in order
    (one block per member, one block per element for a member that is an
    array, an empty pair for an empty array, nested objects indented by
    tabs) and the closing tag of the function with its two line feeds.
    The result names the tool and carries the parsed arguments as input;
    the call is closed, so [finalize] adds nothing for it. *)
Theorem complete_call_rendering (p : Processor) (index : nat) (id name : jstr)
    (before inner : jstr) (members : list (Member Json)) (after : jstr) :
  array_get (accumulatedToolCalls p) index = None ->
  isValidToolName isToolSupported name = true ->
  wf (VObj inner members) -> isWhitespace before -> isWhitespace after ->
  exists p' r,
    processChunkTool isToolSupported p
      [delta index id name (before ++ text (VObj inner members) ++ after)]
      (js "openai") = inr (p', r)
    /\ chunkContent r
       = openFunctionTag name ++ [c_nl]
         ++ concat (List.map (renderMember name 1) members)
         ++ closeFunctionTag name
    /\ toolName r = name
    /\ anthropicContent r
       = Some (mkToolUse (match id with [] => None | _ => Some id end) name
                 (match JSON_parse (before ++ text (VObj inner members) ++ after) with
                  | Some input => input
                  | None => JString []
                  end))
    /\ finalizeAt isToolSupported p' index = (p', [])
    /\ ((forall i st, processingStates p !! i = Some st -> functionClosed st = true) ->
        finalize isToolSupported p' = (p', [])).
Proof.
  intros Hfresh Hvalid Hwf Hb Ha.
  destruct (processDelta_object isToolSupported p index id name before inner members
              after Hfresh Hvalid Hwf Hb Ha) as (joa' & Hd).
  unfold processChunkTool, processChunkOpenAIFormat.
  change (jstr_eqb (js "openai") (js "openai")) with true. cbv iota.
  unfold processDeltas. rewrite Hd. clear Hd.
  eexists _, _. split; [reflexivity|].
  unfold resultAnthropicContent, resultToolName, resultToolUserId.
  cbn [chunkContent toolName anthropicContent accumulatedToolCalls processingStates].
  rewrite !array_get_set_eq, lookup_insert_eq.
  cbn [tc_name tc_id tc_arguments functionClosed set_functionClosed].
  rewrite Hvalid.
  split; [done|]. split; [done|]. split; [by destruct id|]. split.
  - apply finalizeAt_closed.
    cbn [processingStates]. rewrite lookup_insert_eq. by intros ? [= <-].
  - intros Hall. apply finalizeFrom_closed.
    cbn [processingStates]. intros i st.
    destruct (decide (i = index)) as [->|Hne].
    + rewrite lookup_insert_eq. by intros [= <-].
    + rewrite !lookup_insert_ne by done. apply Hall.
Qed.

End CompleteCall.

Definition exampleMembers : list (Member Json) :=
  [member "file"
     (VArr [] [element (VObj [] [member "path" (plainString "a.js")]);
               element (VObj [] [member "path" (plainString "b.js")])]);
   member "tags" (VArr [] []);
   member "recursive" (VPrim (js "true"))].

Lemma exampleMembers_wf : wf (VObj [] exampleMembers).
Proof.
  cbn. repeat (first [split | constructor]);
    try discriminate; vm_compute; discriminate.
Qed.

Lemma complete_call_rendering_witness :
  text (VObj [] exampleMembers)
  = jsq "{'file':[{'path':'a.js'},{'path':'b.js'}],'tags':[],'recursive':true}"
  /\ exists p' r,
       processChunkTool testRegistry newProcessor
         [delta 0 (js "1") (js "read_file") ([] ++ text (VObj [] exampleMembers) ++ [])]
         (js "openai") = inr (p', r)
       /\ chunkContent r
          = xml "<read_file>|<file>|~<path>a.js</path>|</file>|<file>|~<path>b.js</path>|</file>|<tags></tags>|<recursive>true</recursive>|</read_file>||"
       /\ toolName r = js "read_file"
       /\ finalize testRegistry p' = (p', []).
Proof.
  split; [vm_compute; reflexivity|].
  destruct (complete_call_rendering testRegistry newProcessor 0 (js "1")
              (js "read_file") [] [] exampleMembers [])
    as (p' & r & Hr & Hc & Hn & _ & _ & Hf).
  - reflexivity.
  - vm_compute. reflexivity.
  - exact exampleMembers_wf.
  - constructor.
  - constructor.
  - exists p', r. split; [exact Hr|]. split; [|split; [exact Hn|]].
    + rewrite Hc. vm_compute. reflexivity.
    + apply Hf. intros i st Hi. vm_compute in Hi. discriminate.
Defined.

(** A processor that holds one closed call. *)
Definition closedState : State :=
  set_functionClosed true
    (processArguments
       (set_arguments (jsq "{'a':1}") (set_functionNameOutputted true newState))
       (js "read_file")).1.

Definition closedCall : ToolCall :=
  mkToolCall (js "1") (js "read_file") (jsq "{'a':1}").

Definition closedExample : Processor :=
  mkProcessor [Some closedCall] (<[0 := closedState]> ∅).

Lemma closedExample_closed i st :
  processingStates closedExample !! i = Some st -> functionClosed st = true.
Proof.
  unfold closedExample. cbn [processingStates]. intros H.
  apply lookup_insert_Some in H as [[_ <-]|[_ H]]; [reflexivity|].
  by rewrite lookup_empty in H.
Qed.

Lemma finalize_nothing_left_open_witness :
  processChunk testRegistry newProcessor
    [delta 0 (js "1") (js "read_file") (jsq "{'a':1}")] (js "openai")
  = inr (closedExample, xml "<read_file>|<a>1</a>|</read_file>||")
  /\ finalize testRegistry closedExample = (closedExample, []).
Proof.
  split; [vm_compute; reflexivity|].
  apply (finalize_nothing_left_open testRegistry closedExample).
  exact closedExample_closed.
Defined.

Lemma closed_call_stays_closed_witness :
  match processDelta testRegistry closedExample
          (mkDelta (Some 0) None None (Some (js " "))) with
  | inr (p', i, out) =>
    out = [] /\ finalizeAt testRegistry p' i = (p', [])
  | inl _ => False
  end.
Proof.
  destruct (processDelta testRegistry closedExample
              (mkDelta (Some 0) None None (Some (js " "))))
    as [e|[[p' i] out]] eqn:H; [vm_compute in H; discriminate|].
  destruct (closed_call_stays_closed testRegistry closedExample
              (mkDelta (Some 0) None None (Some (js " ")))
              closedCall closedState p' i out)
    as (Hout & _ & Hf).
  - reflexivity.
  - reflexivity.
  - reflexivity.
  - exact H.
  - split; [|exact Hf]. rewrite Hout. vm_compute. reflexivity.
Defined.

(** ** Calls of different indices *)

Section Indices.

Variable isToolSupported : jstr -> bool.

(** The name and the arguments accumulated at an index; empty when the
    index holds no call. *)
Definition nameAt (p : Processor) (i : nat) : jstr :=
  match array_get (accumulatedToolCalls p) i with
  | Some tc => tc_name tc
  | None => []
  end.

Definition argumentsAt (p : Processor) (i : nat) : jstr :=
  match array_get (accumulatedToolCalls p) i with
  | Some tc => tc_arguments tc
  | None => []
  end.

(** The fragments of a field in the deltas of index [i], in order. *)
Definition fragments (field : Delta -> option jstr) (i : nat) (chunk : list Delta)
  : jstr :=
  concat (List.map (λ d, default [] (field d))
            (filter (λ d, deltaIndex d = i) chunk)).

Lemma processDelta_accumulates p d p' i out :
  processDelta isToolSupported p d = inr (p', i, out) ->
  nameAt p' i = nameAt p i ++ default [] (d_name d)
  /\ argumentsAt p' i = argumentsAt p i ++ default [] (d_arguments d).
Proof.
  intros H. apply processDelta_inv in H
    as (_ & tc0 & st0 & p0 & Htc0 & _ & Hnew & Hold & _ & _ & ->).
  unfold nameAt, argumentsAt. simpl. rewrite array_get_set_eq. simpl.
  destruct (array_get (accumulatedToolCalls p) i) as [tc|] eqn:Hg.
  - destruct (Hold tc eq_refl) as [-> _].
    by destruct (d_name d), (d_arguments d); simpl; rewrite ?app_nil_r.
  - destruct (Hnew eq_refl) as [-> _]. simpl.
    by destruct (d_name d), (d_arguments d).
Qed.

(** The name and the arguments a chunk leaves at an index are those the
    processor held there followed by the fragments of the deltas of that
    index, in the order of the chunk; deltas of other indices do not
    contribute. *)
Theorem chunk_accumulates_fragments (p : Processor) (chunk : list Delta) p' r i :
  processChunkOpenAIFormat isToolSupported p chunk = inr (p', r) ->
  nameAt p' i = nameAt p i ++ fragments d_name i chunk
  /\ argumentsAt p' i = argumentsAt p i ++ fragments d_arguments i chunk.
Proof.
  unfold processChunkOpenAIFormat.
  destruct (processDeltas isToolSupported p 0 [] chunk) as [e|[[p1 i1] x1]] eqn:H;
    [done|]. intros [= <- _]. clear r.
  revert p H. generalize 0 at 1. generalize (@nil N) at 1.
  induction chunk as [|d chunk IH]; intros x0 i0 p H; simpl in H.
  - injection H as <- _ _. unfold fragments. simpl. by rewrite !app_nil_r.
  - destruct (processDelta isToolSupported p d) as [e|[[pa ia] xa]] eqn:Hd; [done|].
    pose proof (processDelta_index _ _ _ _ _ _ Hd) as ->.
    destruct (IH _ _ _ H) as [IHn IHa]. rewrite IHn, IHa.
    unfold fragments. rewrite !filter_cons. case_decide as Hi.
    + subst i. destruct (processDelta_accumulates _ _ _ _ _ Hd) as [-> ->].
      simpl. by rewrite <- !app_assoc.
    + destruct (processDelta_frame _ _ _ _ _ _ i Hd) as [Hc _]; [done|].
      unfold nameAt, argumentsAt. by rewrite Hc.
Qed.

(** A chunk without a delta of index [j] leaves the call and the state of
    index [j] as they were. *)
Theorem chunk_leaves_other_indices (p : Processor) (chunk : list Delta) p' r j :
  processChunkOpenAIFormat isToolSupported p chunk = inr (p', r) ->
  Forall (λ d, deltaIndex d ≠ j) chunk ->
  array_get (accumulatedToolCalls p') j = array_get (accumulatedToolCalls p) j
  /\ processingStates p' !! j = processingStates p !! j.
Proof.
  unfold processChunkOpenAIFormat.
  destruct (processDeltas isToolSupported p 0 [] chunk) as [e|[[p1 i1] x1]] eqn:H;
    [done|]. intros [= <- _] Hall. clear r.
  revert p H. generalize 0 at 1. generalize (@nil N) at 1.
  induction Hall as [|d chunk Hd Hall IH]; intros x0 i0 p H; simpl in H.
  - by injection H as <- _ _.
  - destruct (processDelta isToolSupported p d) as [e|[[pa ia] xa]] eqn:Hpd; [done|].
    pose proof (processDelta_index _ _ _ _ _ _ Hpd) as ->.
    destruct (IH _ _ _ H) as [-> ->].
    by apply (processDelta_frame _ _ _ _ _ _ j Hpd).
Qed.

End Indices.

(** ** [finalize], call by call *)

Section Finalize.

Variable isToolSupported : jstr -> bool.

Lemma finalizeAt_frame (p : Processor) i :
  accumulatedToolCalls (finalizeAt isToolSupported p i).1 = accumulatedToolCalls p
  /\ forall j, j ≠ i ->
       processingStates (finalizeAt isToolSupported p i).1 !! j
       = processingStates p !! j.
Proof.
  unfold finalizeAt.
  destruct (processingStates p !! i) as [st|]; [|done].
  destruct (array_get (accumulatedToolCalls p) i) as [tc|]; [|done].
  destruct (functionClosed st); [done|].
  destruct (negb (isValidToolName isToolSupported (tc_name tc))); [done|].
  destruct (if bool_decide _ then _ else _) as [state1 out1]. simpl.
  split; [done|]. intros j Hne. by rewrite lookup_insert_ne.
Qed.

Lemma finalizeAt_local (p q : Processor) i :
  slot p i = slot q i ->
  (finalizeAt isToolSupported p i).2 = (finalizeAt isToolSupported q i).2
  /\ processingStates (finalizeAt isToolSupported p i).1 !! i
     = processingStates (finalizeAt isToolSupported q i).1 !! i.
Proof.
  unfold slot. intros [= Hc Hs]. unfold finalizeAt. rewrite <- Hc, <- Hs.
  destruct (processingStates p !! i) as [st|] eqn:Hst;
    [|simpl; split; congruence].
  destruct (array_get (accumulatedToolCalls p) i) as [tc|];
    [|simpl; split; congruence].
  destruct (functionClosed st); [simpl; split; congruence|].
  destruct (negb (isValidToolName isToolSupported (tc_name tc)));
    [simpl; split; congruence|].
  destruct (if bool_decide _ then _ else _) as [state1 out1]. simpl.
  by rewrite !lookup_insert_eq.
Qed.

Lemma finalizeFrom_spec indices : NoDup indices -> forall (p : Processor) x,
  accumulatedToolCalls (finalizeFrom isToolSupported p x indices).1
  = accumulatedToolCalls p
  /\ (finalizeFrom isToolSupported p x indices).2
     = x ++ concat (List.map (λ i, (finalizeAt isToolSupported p i).2) indices)
  /\ (forall i, i ∈ indices ->
        processingStates (finalizeFrom isToolSupported p x indices).1 !! i
        = processingStates (finalizeAt isToolSupported p i).1 !! i)
  /\ (forall i, i ∉ indices ->
        processingStates (finalizeFrom isToolSupported p x indices).1 !! i
        = processingStates p !! i).
Proof.
  induction 1 as [|i indices Hni Hnd IH]; intros p x; simpl.
  - rewrite app_nil_r. repeat split; try done. intros i Hi. by apply elem_of_nil in Hi.
  - destruct (finalizeAt_frame p i) as [Hacc Hfr].
    destruct (finalizeAt isToolSupported p i) as [p1 out] eqn:Hf. simpl in Hacc, Hfr.
    destruct (IH p1 (x ++ out)) as (IH1 & IH2 & IH3 & IH4).
    assert (forall j, j ∈ indices -> slot p1 j = slot p j) as Hslot.
    { intros j Hj. unfold slot. rewrite Hacc, Hfr; [done|]. by intros ->. }
    split; [congruence|]. split; [|split].
    + rewrite IH2, <- app_assoc.
      rewrite (List.map_ext_in (λ j, (finalizeAt isToolSupported p1 j).2)
                 (λ j, (finalizeAt isToolSupported p j).2)); [done|].
      intros j Hj. apply list_elem_of_In in Hj.
      by apply finalizeAt_local, Hslot.
    + intros j Hj. apply elem_of_cons in Hj as [->|Hj].
      * rewrite IH4 by done. by rewrite Hf.
      * rewrite IH3 by done. by apply finalizeAt_local, Hslot.
    + intros j Hj. apply not_elem_of_cons in Hj as [Hne Hj].
      rewrite IH4 by done. by apply Hfr.
Qed.

(** [finalize] treats the calls independently of one another: its output
    is the concatenation, in the order of the indices, of what closing each
    call of the processor it was given emits, and it leaves the
    accumulated calls as they are. *)
Theorem finalize_call_by_call (p : Processor) :
  (finalize isToolSupported p).2
  = concat (List.map (λ i, (finalizeAt isToolSupported p i).2)
              (seq 0 (length (accumulatedToolCalls p))))
  /\ accumulatedToolCalls (finalize isToolSupported p).1 = accumulatedToolCalls p.
Proof.
  unfold finalize.
  destruct (finalizeFrom_spec (seq 0 (length (accumulatedToolCalls p)))
              (NoDup_seq _ _) p []) as (H1 & H2 & _).
  split; [exact H2 | exact H1].
Qed.


End Finalize.

Lemma chunk_accumulates_fragments_witness :
  match processChunkOpenAIFormat testRegistry newProcessor
          [delta 0 (js "1") (js "read_") (jsq "{'a'");
           delta 1 (js "2") (js "list_files") (jsq "{");
           mkDelta (Some 0) None (Some (js "file")) (Some (jsq ":1}"))] with
  | inr (p', _) =>
    nameAt p' 0 = js "read_file" /\ argumentsAt p' 0 = jsq "{'a':1}"
  | inl _ => False
  end.
Proof.
  destruct (processChunkOpenAIFormat testRegistry newProcessor
              [delta 0 (js "1") (js "read_") (jsq "{'a'");
               delta 1 (js "2") (js "list_files") (jsq "{");
               mkDelta (Some 0) None (Some (js "file")) (Some (jsq ":1}"))])
    as [e|[p' r]] eqn:H; [vm_compute in H; discriminate|].
  destruct (chunk_accumulates_fragments testRegistry _ _ _ _ 0 H) as [Hn Ha].
  split; [rewrite Hn | rewrite Ha]; vm_compute; reflexivity.
Defined.

Lemma chunk_leaves_other_indices_witness :
  match processChunkOpenAIFormat testRegistry closedExample
          [delta 1 (js "2") (js "list_files") (jsq "{'path':'.'}");
           delta 3 (js "4") (js "read_file") (jsq "{")] with
  | inr (p', _) =>
    array_get (accumulatedToolCalls p') 0 = Some closedCall
    /\ processingStates p' !! 0 = Some closedState
  | inl _ => False
  end.
Proof.
  destruct (processChunkOpenAIFormat testRegistry closedExample
              [delta 1 (js "2") (js "list_files") (jsq "{'path':'.'}");
               delta 3 (js "4") (js "read_file") (jsq "{")])
    as [e|[p' r]] eqn:H; [vm_compute in H; discriminate|].
  destruct (chunk_leaves_other_indices testRegistry _ _ _ _ 0 H) as [Hc Hs].
  - repeat constructor; vm_compute; discriminate.
  - split; [rewrite Hc | rewrite Hs]; reflexivity.
Defined.

(** ** What every processor keeps *)

Section Invariants.

Variable isToolSupported : jstr -> bool.

(** The relation between an accumulated call and its state. *)
Definition callInvariant (tc : ToolCall) (st : State) : Prop :=
  cursor st <= length (arguments st)
  /\ (isValidToolName isToolSupported (tc_name tc) = true ->
      functionNameOutputted st = true)
  /\ (functionNameOutputted st = false -> st = newState)
  /\ (functionNameOutputted st = true -> arguments st = tc_arguments tc)
  /\ (functionClosed st = true -> functionNameOutputted st = true).

Definition processorInvariant (p : Processor) : Prop :=
  forall i tc, array_get (accumulatedToolCalls p) i = Some tc ->
    exists st, processingStates p !! i = Some st /\ callInvariant tc st.

Lemma processArguments_cursor_bound st toolName :
  cursor st <= length (arguments st) ->
  cursor (processArguments st toolName).1
  <= length (arguments (processArguments st toolName).1).
Proof.
  intros H. pose proof (processArguments_steps toolName st) as Hst.
  rewrite (steps_arguments _ _ _ _ Hst).
  by apply (steps_cursor _ _ _ _ Hst).
Qed.

Lemma emitDelta_invariant tc0 st0 d st2 out :
  callInvariant tc0 st0 ->
  emitDelta isToolSupported (accumulate tc0 d) st0 = (st2, out) ->
  callInvariant (accumulate tc0 d) st2.
Proof.
  intros (Hcur & _ & Hnew & Hargs & Hclosed) He.
  set (tc := accumulate tc0 d) in *.
  assert (length (tc_arguments tc0) <= length (tc_arguments tc)) as Hgrow.
  { subst tc. simpl. destruct (d_arguments d); simpl; rewrite ?length_app; lia. }
  assert (length (tc_arguments tc) <= length (tc_arguments tc0) ->
          tc_arguments tc = tc_arguments tc0) as Hsame.
  { subst tc. simpl. destruct (d_arguments d) as [a|]; simpl; [|done].
    rewrite length_app. intros Hl. destruct a; [by rewrite app_nil_r | simpl in Hl; lia]. }
  clearbody tc. unfold emitDelta in He.
  destruct (emitArguments isToolSupported tc st0) as [st1 out1] eqn:H1.
  assert (callInvariant tc st1) as (Hcur1 & Hv1 & Hnew1 & Hargs1 & Hclosed1).
  { unfold emitArguments in H1.
    destruct (isValidToolName isToolSupported (tc_name tc)) eqn:Hv;
      destruct (functionNameOutputted st0) eqn:Hfno; simpl in H1.
    - (* the tag is open *)
      specialize (Hargs eq_refl).
      rewrite Hargs in Hcur.
      case_bool_decide as Hlen; rewrite Hargs in Hlen.
      + pose proof (processArguments_frame (set_arguments (tc_arguments tc) st0)
                      (tc_name tc)) as (Ha & Hf & Hc).
        pose proof (processArguments_cursor_bound
                      (set_arguments (tc_arguments tc) st0) (tc_name tc)) as Hb.
        rewrite H1 in Ha, Hf, Hc, Hb. simpl in Ha, Hf, Hc, Hb.
        unfold callInvariant. split; [apply Hb; lia|]. rewrite Ha, Hf, Hfno.
        split; [done|]. split; [done|]. split; [done|]. done.
      + simplify_eq. unfold callInvariant. rewrite Hfno, Hargs.
        split; [done|]. split; [done|]. split; [done|].
        split; [intros _; symmetry; apply Hsame; lia | done].
    - (* the tag is opened now *)
      rewrite (Hnew eq_refl) in *. clear Hnew Hargs Hclosed.
      case_bool_decide as Hlen.
      + destruct (processArguments _ _) as [st' x] eqn:Hp. simplify_eq.
        pose proof (processArguments_frame
                      (set_arguments (tc_arguments tc)
                         (set_functionNameOutputted true newState))
                      (tc_name tc)) as (Ha & Hf & Hc).
        pose proof (processArguments_cursor_bound
                      (set_arguments (tc_arguments tc)
                         (set_functionNameOutputted true newState))
                      (tc_name tc)) as Hb.
        rewrite Hp in Ha, Hf, Hc, Hb. simpl in Ha, Hf, Hc, Hb.
        unfold callInvariant. split; [apply Hb; lia|]. rewrite Ha, Hf.
        split; [done|]. split; [done|]. split; [done|]. done.
      + simplify_eq. unfold callInvariant. simpl.
        repeat split; try done. destruct (tc_arguments tc); [done|simpl in Hlen; lia].
    - specialize (Hargs eq_refl).
      rewrite Hargs in Hcur.
      case_bool_decide as Hlen; rewrite Hargs in Hlen.
      + pose proof (processArguments_frame (set_arguments (tc_arguments tc) st0)
                      (tc_name tc)) as (Ha & Hf & Hc).
        pose proof (processArguments_cursor_bound
                      (set_arguments (tc_arguments tc) st0) (tc_name tc)) as Hb.
        rewrite H1 in Ha, Hf, Hc, Hb. simpl in Ha, Hf, Hc, Hb.
        unfold callInvariant. split; [apply Hb; lia|]. rewrite Ha, Hf, Hfno.
        split; [done|]. split; [done|]. split; [done|]. done.
      + simplify_eq. unfold callInvariant. rewrite Hfno, Hargs.
        split; [done|]. split; [done|]. split; [done|].
        split; [intros _; symmetry; apply Hsame; lia | done].
    - simplify_eq. unfold callInvariant. rewrite Hfno.
      split; [done|]. split; [congruence|]. split; [done|]. split; [done|].
      done. }
  unfold closeWhenComplete in He.
  destruct (isValidToolName isToolSupported (tc_name tc)
            && negb (functionClosed st1)
            && bool_decide (length (bracketStack st1) = 0)
            && bool_decide (0 < cursor st1)) eqn:Hcond.
  - case_bool_decide as Hrem; simplify_eq; [|done].
    unfold callInvariant. simpl. repeat split; try done.
    + intros Hf. specialize (Hnew1 Hf). rewrite Hnew1 in Hcond. simpl in Hcond.
      by rewrite andb_false_r in Hcond.
    + intros _. destruct (functionNameOutputted st1) eqn:Hf; [done|].
      specialize (Hnew1 eq_refl). rewrite Hnew1 in Hcond. simpl in Hcond.
      by rewrite andb_false_r in Hcond.
  - by simplify_eq.
Qed.

Lemma newState_invariant id : callInvariant (mkToolCall id [] []) newState.
Proof. unfold callInvariant. simpl. repeat split; done. Qed.

Lemma processDelta_invariant p d p' i out :
  processorInvariant p ->
  processDelta isToolSupported p d = inr (p', i, out) ->
  processorInvariant p'.
Proof.
  intros Hp H. apply processDelta_inv in H
    as (_ & tc0 & st0 & p0 & Htc0 & Hst0 & Hnew & Hold & Hfr & He & ->).
  assert (callInvariant tc0 st0) as H0.
  { destruct (array_get (accumulatedToolCalls p) i) as [tc|] eqn:Hg.
    - destruct (Hold tc eq_refl) as [-> Hs].
      destruct (Hp i tc Hg) as (st & Hst & Hinv). congruence.
    - destruct (Hnew eq_refl) as [-> ->]. apply newState_invariant. }
  intros j tc. simpl. destruct (decide (j = i)) as [->|Hne].
  - rewrite array_get_set_eq, lookup_insert_eq. intros [= <-].
    eexists. split; [done|]. by eapply emitDelta_invariant.
  - rewrite array_get_set_ne, lookup_insert_ne by done.
    destruct (Hfr j Hne) as [-> ->]. apply Hp.
Qed.

Lemma processDeltas_invariant chunk p index x p' index' x' :
  processorInvariant p ->
  processDeltas isToolSupported p index x chunk = inr (p', index', x') ->
  processorInvariant p'.
Proof.
  revert p index x. induction chunk as [|d chunk IH]; intros p index x Hp H; simpl in H.
  - by simplify_eq.
  - destruct (processDelta isToolSupported p d) as [e|[[pa ia] xa]] eqn:Hd; [done|].
    eapply IH; [|exact H]. by eapply processDelta_invariant.
Qed.

Lemma finalizeAt_invariant p i :
  processorInvariant p -> processorInvariant (finalizeAt isToolSupported p i).1.
Proof.
  intros Hp. unfold finalizeAt.
  destruct (processingStates p !! i) as [st|] eqn:Hst; [|done].
  destruct (array_get (accumulatedToolCalls p) i) as [tc|] eqn:Htc; [|done].
  destruct (functionClosed st) eqn:Hc; [done|].
  destruct (isValidToolName isToolSupported (tc_name tc)) eqn:Hv; [|done]. simpl.
  destruct (Hp i tc Htc) as (st0 & Hst0 & Hcur & Hfno & Hnew & Hargs & Hclosed).
  assert (st0 = st) as -> by congruence.
  specialize (Hfno Hv). specialize (Hargs Hfno).
  assert (exists state1 out1,
            (if bool_decide (length (arguments st) < length (tc_arguments tc))
             then processArguments (set_arguments (tc_arguments tc) st) (tc_name tc)
             else (st, [])) = (state1, out1)
            /\ callInvariant tc state1) as (state1 & out1 & -> & Hinv).
  { case_bool_decide as Hlen.
    - rewrite Hargs in Hlen. lia.
    - eexists _, _. split; [done|]. unfold callInvariant. by rewrite Hfno. }
  destruct Hinv as (Hcur1 & Hfno1 & Hnew1 & Hargs1 & Hclosed1).
  intros j tc'. simpl. destruct (decide (j = i)) as [->|Hne].
  - rewrite lookup_insert_eq. rewrite Htc. intros [= <-].
    eexists. split; [done|]. unfold callInvariant. simpl.
    repeat split; try done.
    intros Hf. specialize (Hfno1 Hv). congruence.
  - rewrite lookup_insert_ne by done. apply Hp.
Qed.

Lemma finalizeFrom_invariant indices p x :
  processorInvariant p ->
  processorInvariant (finalizeFrom isToolSupported p x indices).1.
Proof.
  revert p x. induction indices as [|i indices IH]; intros p x Hp; simpl; [done|].
  pose proof (finalizeAt_invariant p i Hp) as H.
  destruct (finalizeAt isToolSupported p i) as [p' out]. by apply IH.
Qed.

(** In every processor a caller can hold, each accumulated call has a
    state; the cursor of the state lies within its buffer; the function
    tag of a call whose name is recognised has been opened; a state whose
    function tag has not been opened is still the initial state (no
    character of the arguments has been consumed); once the tag is open
    the buffer of the state machine is the accumulated arguments; and only
    a call whose tag was opened is ever closed. *)
Theorem reachable_invariants (p : Processor) (i : nat) (tc : ToolCall) :
  reachable isToolSupported p ->
  array_get (accumulatedToolCalls p) i = Some tc ->
  exists st, processingStates p !! i = Some st
    /\ cursor st <= length (arguments st)
    /\ (isValidToolName isToolSupported (tc_name tc) = true ->
        functionNameOutputted st = true)
    /\ (functionNameOutputted st = false -> st = newState)
    /\ (functionNameOutputted st = true -> arguments st = tc_arguments tc)
    /\ (functionClosed st = true -> functionNameOutputted st = true).
Proof.
  intros Hr. revert i tc.
  change (processorInvariant p).
  induction Hr as [|p chunk p' r Hr IH Hc|p Hr IH|p Hr IH].
  - intros i tc H. by destruct i.
  - unfold processChunkTool, processChunkOpenAIFormat in Hc.
    change (jstr_eqb (js "openai") (js "openai")) with true in Hc. simpl in Hc.
    destruct (processDeltas isToolSupported p 0 [] chunk) as [e|[[p1 i1] x1]] eqn:Hd;
      [done|]. simplify_eq. by eapply processDeltas_invariant.
  - by apply finalizeFrom_invariant.
  - intros i tc H. by destruct i.
Qed.

End Invariants.

Lemma reachable_invariants_witness :
  match processChunkTool testRegistry newProcessor
          [delta 0 (js "1") (js "read_file") (jsq "{'a':'b")] (js "openai") with
  | inr (p, _) =>
    exists st, processingStates p !! 0 = Some st
      /\ cursor st <= length (arguments st)
      /\ arguments st = jsq "{'a':'b"
  | inl _ => False
  end.
Proof.
  destruct (processChunkTool testRegistry newProcessor
              [delta 0 (js "1") (js "read_file") (jsq "{'a':'b")] (js "openai"))
    as [e|[p r]] eqn:H; [vm_compute in H; discriminate|].
  assert (reachable testRegistry p) as Hr.
  { eapply reachable_chunk; [apply reachable_new | exact H]. }
  assert (array_get (accumulatedToolCalls p) 0
          = Some (mkToolCall (js "1") (js "read_file") (jsq "{'a':'b"))) as Htc.
  { vm_compute in H. injection H as <- _. reflexivity. }
  destruct (reachable_invariants testRegistry p 0 _ Hr Htc)
    as (st & Hst & Hcur & Hv & _ & Hargs & _).
  exists st. split; [exact Hst|]. split; [exact Hcur|].
  apply Hargs, Hv. vm_compute. reflexivity.
Defined.

(** ** Primitive values *)

Lemma steps_primitive toolName chunk : forall st rest,
  inString st = false -> parserState st = EXPECT_VALUE ->
  drop (cursor st) (arguments st) = chunk ++ rest ->
  Forall (λ c, isPrimitiveChar c = true) chunk ->
  steps toolName st []
    (set_primitiveBuffer (primitiveBuffer st ++ chunk)
       (set_cursor (cursor st + length chunk) st)).
Proof.
  induction chunk as [|c chunk IH]; intros st rest Hin Hps Hd Hall.
  - simpl. rewrite Nat.add_0_r, app_nil_r. destruct st; constructor.
  - inversion Hall as [|? ? Hc Hall']; subst.
    replace (set_primitiveBuffer (primitiveBuffer st ++ c :: chunk)
               (set_cursor (cursor st + length (c :: chunk)) st))
      with (set_primitiveBuffer
              (primitiveBuffer
                 (advance (set_primitiveBuffer (primitiveBuffer st ++ [c]) st))
               ++ chunk)
              (set_cursor
                 (cursor (advance (set_primitiveBuffer (primitiveBuffer st ++ [c]) st))
                  + length chunk)
                 (advance (set_primitiveBuffer (primitiveBuffer st ++ [c]) st))))
      by (destruct st; simpl; unfold advance, set_cursor, set_primitiveBuffer; simpl;
          rewrite <- app_assoc; f_equal; lia).
    change (@nil N) with ([] ++ @nil N).
    eapply steps_step.
    + eapply drop_lookup. exact Hd.
    + unfold step. rewrite Hin, Hps, Hc.
      rewrite (isPrimitiveChar_not_space _ Hc).
      rewrite bool_decide_eq_true_2 by done. reflexivity.
    + apply (IH _ rest); try done. simpl.
      rewrite <- (Nat.add_1_r (cursor st)), <- drop_drop, Hd. done.
Qed.

(** A primitive value is buffered, not streamed: where a value is
    expected, a delta of letters, digits, minus signs and dots emits
    nothing; its characters are appended to [primitiveBuffer], to be
    written when the character that ends the value arrives. *)
Theorem primitive_value_is_buffered (toolName : jstr) (st : State) (chunk : jstr) :
  inString st = false -> parserState st = EXPECT_VALUE ->
  cursor st = length (arguments st) ->
  Forall (λ c, isPrimitiveChar c = true) chunk ->
  processArguments (extend chunk st) toolName
  = (set_primitiveBuffer (primitiveBuffer st ++ chunk)
       (set_cursor (length (arguments st) + length chunk) (extend chunk st)), []).
Proof.
  intros Hin Hps Hcur Hall.
  apply steps_processArguments.
  - rewrite <- Hcur.
    change (cursor st) with (cursor (extend chunk st)) at 1.
    change (primitiveBuffer st) with (primitiveBuffer (extend chunk st)).
    apply (steps_primitive toolName chunk (extend chunk st) []); try done.
    simpl. rewrite Hcur, drop_app_length. by rewrite app_nil_r.
  - unfold halted. simpl. rewrite lookup_ge_None_2; [done|].
    rewrite length_app. lia.
Qed.

Lemma primitive_value_is_buffered_witness :
  processArguments
    (extend (js "12")
       (processArguments (set_arguments (jsq "{'n':") newState) (js "read_file")).1)
    (js "read_file")
  = (set_primitiveBuffer (js "12")
       (set_cursor 7
          (extend (js "12")
             (processArguments (set_arguments (jsq "{'n':") newState)
                (js "read_file")).1)), []).
Proof.
  apply (primitive_value_is_buffered (js "read_file")
           (processArguments (set_arguments (jsq "{'n':") newState)
              (js "read_file")).1 (js "12")).
  - vm_compute. reflexivity.
  - vm_compute. reflexivity.
  - vm_compute. reflexivity.
  - repeat constructor.
Defined.

(** ** Arguments without an object *)

Section EdgeArguments.

Variable isToolSupported : jstr -> bool.

Lemma processArguments_whitespace name (ws : jstr) :
  isWhitespace ws ->
  processArguments (set_arguments ws (set_functionNameOutputted true newState)) name
  = (between true false ws (length ws) EXPECT_ROOT [] [] [] false, []).
Proof.
  intros Hws. apply steps_processArguments; [|apply halted_at_end].
  apply (run_whitespace name true false ws ws 0 [] EXPECT_ROOT [] [] [] false Hws).
  by rewrite app_nil_r.
Qed.

(** The first delta of a call with a recognised name.  Without arguments
    it only opens the function tag and the call stays open.  With
    arguments that are nothing but whitespace the completion check
    already holds (no open bracket, the cursor past position 0, nothing
    left to read): the function tag is opened and closed at once, and the
    call is closed before any argument has arrived. *)
Theorem whitespace_arguments_close_call (p : Processor) (index : nat)
    (id name ws : jstr) :
  array_get (accumulatedToolCalls p) index = None ->
  isValidToolName isToolSupported name = true ->
  isWhitespace ws -> ws ≠ [] ->
  (exists p0 st0,
     processChunk isToolSupported p
       [mkDelta (Some index) (Some id) (Some name) None] (js "openai")
     = inr (p0, openFunctionTag name)
     /\ processingStates p0 !! index = Some st0 /\ functionClosed st0 = false)
  /\ (exists p1 st1,
        processChunk isToolSupported p [delta index id name ws] (js "openai")
        = inr (p1, openFunctionTag name ++ closeFunctionTag name)
        /\ processingStates p1 !! index = Some st1 /\ functionClosed st1 = true).
Proof.
  intros Hfresh Hvalid Hws Hne.
  assert (0 < length ws) as Hlen by (destruct ws; [done | simpl; lia]).
  unfold processChunk, processChunkOpenAIFormat.
  change (jstr_eqb (js "openai") (js "openai")) with true. cbv iota.
  unfold processDeltas, processDelta, delta. simpl. rewrite Hfresh. simpl.
  rewrite array_get_set_eq, lookup_insert_eq.
  unfold emitDelta, emitArguments, accumulate. simpl. rewrite Hvalid. simpl.
  split.
  - unfold closeWhenComplete. simpl. rewrite Hvalid. simpl.
    eexists _, _. split; [by rewrite app_nil_r|]. simpl.
    by rewrite lookup_insert_eq.
  - rewrite bool_decide_eq_true_2 by done.
    rewrite (processArguments_whitespace name ws Hws).
    unfold closeWhenComplete. simpl. rewrite Hvalid. simpl.
    rewrite bool_decide_eq_true_2 by done.
    rewrite drop_all. simpl.
    eexists _, _. split; [by rewrite app_nil_r|]. simpl.
    by rewrite lookup_insert_eq.
Qed.

(** ** A name that is recognised late *)

Lemma emitDelta_object id name before inner members after :
  isValidToolName isToolSupported name = true ->
  wf (VObj inner members) -> isWhitespace before -> isWhitespace after ->
  exists st',
    emitDelta isToolSupported
      (mkToolCall id name (before ++ text (VObj inner members) ++ after)) newState
    = (st', openFunctionTag name ++ [c_nl]
            ++ concat (List.map (renderMember name 1) members)
            ++ closeFunctionTag name)
    /\ functionClosed st' = true.
Proof.
  intros Hvalid Hwf Hb Ha.
  destruct (processArguments_object name before inner members after Hwf Hb Ha)
    as (joa' & Hrun).
  assert (0 < length (before ++ text (VObj inner members) ++ after)) as Hlen.
  { pose proof (text_nonempty _ Hwf). rewrite !length_app. lia. }
  revert Hrun Hlen. generalize (before ++ text (VObj inner members) ++ after).
  intros args Hrun Hlen.
  unfold emitDelta, emitArguments. simpl. rewrite Hvalid. simpl.
  rewrite bool_decide_eq_true_2 by done.
  rewrite Hrun. unfold closeWhenComplete. simpl. rewrite Hvalid. simpl.
  rewrite bool_decide_eq_true_2 by done.
  rewrite drop_all. simpl.
  eexists. split; [f_equal; by rewrite <- !app_assoc | reflexivity].
Qed.

(** Arguments that arrive before the tool name is recognised are not
    lost.  While the accumulated name is not a recognised tool the state
    of the call stays the initial one; the delta that completes the name
    renders everything accumulated so far together with its own
    fragment: for a well-formed object, the whole call. *)
Theorem late_name_renders_buffered_arguments (p : Processor) (index : nat)
    (tc0 : ToolCall) (name2 args2 : jstr)
    (before inner : jstr) (members : list (Member Json)) (after : jstr) :
  array_get (accumulatedToolCalls p) index = Some tc0 ->
  processingStates p !! index = Some newState ->
  isValidToolName isToolSupported (tc_name tc0 ++ name2) = true ->
  tc_arguments tc0 ++ args2 = before ++ text (VObj inner members) ++ after ->
  wf (VObj inner members) -> isWhitespace before -> isWhitespace after ->
  exists p',
    processChunk isToolSupported p
      [mkDelta (Some index) None (Some name2) (Some args2)] (js "openai")
    = inr (p', openFunctionTag (tc_name tc0 ++ name2) ++ [c_nl]
               ++ concat (List.map (renderMember (tc_name tc0 ++ name2) 1) members)
               ++ closeFunctionTag (tc_name tc0 ++ name2)).
Proof.
  intros Htc Hst Hvalid Hargs Hwf Hb Ha.
  destruct (emitDelta_object (tc_id tc0) (tc_name tc0 ++ name2) before inner members
              after Hvalid Hwf Hb Ha) as (st' & He & _).
  unfold processChunk, processChunkOpenAIFormat.
  change (jstr_eqb (js "openai") (js "openai")) with true. cbv iota.
  unfold processDeltas, processDelta. simpl. rewrite Htc. rewrite Htc, Hst.
  unfold accumulate. simpl. rewrite Hargs, He. simpl.
  by eexists.
Qed.

End EdgeArguments.

Lemma whitespace_arguments_close_call_witness :
  (exists p0 st0,
     processChunk testRegistry newProcessor
       [mkDelta (Some 0) (Some (js "1")) (Some (js "read_file")) None] (js "openai")
     = inr (p0, xml "<read_file>")
     /\ processingStates p0 !! 0 = Some st0 /\ functionClosed st0 = false)
  /\ (exists p1 st1,
        processChunk testRegistry newProcessor
          [delta 0 (js "1") (js "read_file") (js " ")] (js "openai")
        = inr (p1, xml "<read_file></read_file>||")
        /\ processingStates p1 !! 0 = Some st1 /\ functionClosed st1 = true).
Proof.
  apply (whitespace_arguments_close_call testRegistry newProcessor 0 (js "1")
           (js "read_file") (js " ")).
  - reflexivity.
  - vm_compute. reflexivity.
  - repeat constructor.
  - discriminate.
Defined.

(** A processor that holds a call whose name is not complete yet. *)
Definition pendingExample : Processor :=
  mkProcessor [Some (mkToolCall (js "1") (js "read_") (jsq "{'a':"))]
    (<[0 := newState]> ∅).

Lemma late_name_renders_buffered_arguments_witness :
  processChunk testRegistry newProcessor
    [delta 0 (js "1") (js "read_") (jsq "{'a':")] (js "openai")
  = inr (pendingExample, [])
  /\ exists p',
       processChunk testRegistry pendingExample
         [mkDelta (Some 0) None (Some (js "file")) (Some (jsq "1}"))] (js "openai")
       = inr (p', xml "<read_file>|<a>1</a>|</read_file>||").
Proof.
  split; [vm_compute; reflexivity|].
  apply (late_name_renders_buffered_arguments testRegistry pendingExample 0
           (mkToolCall (js "1") (js "read_") (jsq "{'a':")) (js "file") (jsq "1}")
           [] [] [member "a" (VPrim (js "1"))] []).
  - reflexivity.
  - reflexivity.
  - vm_compute. reflexivity.
  - vm_compute. reflexivity.
  - cbn. repeat (first [split | constructor]); try discriminate;
      vm_compute; discriminate.
  - constructor.
  - constructor.
Defined.

(** ** The temporary input of a call in progress *)

(** A character that stands for itself in a JSON string. *)
Definition plain (c : N) : Prop :=
  (32 <= c)%N /\ c ≠ c_quote /\ c ≠ c_backslash.

Lemma lexer_plain cs : forall acc r,
  Forall plain cs ->
  lexer (LStr acc) (cs ++ c_quote :: r) = emit (TString (acc ++ cs)) (lexer LOut r).
Proof.
  induction cs as [|c cs IH]; intros acc r Hall.
  - simpl. by rewrite app_nil_r.
  - inversion Hall as [|? ? (Hge & Hq & Hb) Hall']; subst.
    cbn -[N.eqb N.ltb].
    rewrite (proj2 (N.eqb_neq _ _) Hq), (proj2 (N.eqb_neq _ _) Hb).
    rewrite (proj2 (N.ltb_ge _ _) Hge).
    rewrite IH by done. by rewrite <- app_assoc.
Qed.

Lemma JSON_parse_plain_string k :
  Forall plain k -> JSON_parse ([c_quote] ++ k ++ [c_quote]) = Some (JString k).
Proof.
  intros Hk. unfold JSON_parse. cbn -[lexer app].
  change (lexer LOut ([c_quote] ++ k ++ [c_quote]))
    with (lexer (LStr []) (k ++ c_quote :: [])).
  by rewrite lexer_plain.
Qed.

Lemma tagOf_plain k : Forall plain k -> tagOf (List.map KChar k) = k.
Proof.
  intros Hk. unfold tagOf, parseStringOr, keyText.
  assert (concat (List.map keyItemText (List.map KChar k)) = k) as ->.
  { clear Hk. induction k as [|c k IH]; simpl; [done|]. by rewrite IH. }
  by rewrite JSON_parse_plain_string.
Qed.

Lemma keyText_plain k : keyText (List.map KChar k) = k.
Proof. unfold keyText. induction k as [|c k IH]; simpl; [done|]. by rewrite IH. Qed.

Lemma wfKeyItem_plain k : Forall plain k -> Forall wfKeyItem (List.map KChar k).
Proof.
  intros Hk. apply Forall_fmap. eapply Forall_impl; [exact Hk|].
  intros c (_ & Hq & Hb). by split.
Qed.

(** The text of an object cut inside the string value of its first
    member. *)
Definition cutInString (k v : jstr) : jstr :=
  [c_lbrace; c_quote] ++ k ++ [c_quote; c_colon; c_quote] ++ v.

Lemma JSON_parse_cutInString k v :
  Forall plain k -> Forall plain v ->
  JSON_parse (cutInString k v ++ [c_quote] ++ [c_rbrace])
  = Some (JObject [(k, JString v)]).
Proof.
  intros Hk Hv. unfold JSON_parse, cutInString.
  replace (([c_lbrace; c_quote] ++ k ++ [c_quote; c_colon; c_quote] ++ v)
           ++ [c_quote] ++ [c_rbrace])
    with (c_lbrace :: c_quote :: k
          ++ c_quote :: c_colon :: c_quote :: v ++ c_quote :: [c_rbrace])
    by (simpl; rewrite <- !app_assoc; reflexivity).
  change (lexer LOut (c_lbrace :: c_quote :: k
                      ++ c_quote :: c_colon :: c_quote :: v ++ c_quote :: [c_rbrace]))
    with (emit TLBrace
            (lexer (LStr []) (k ++ c_quote :: c_colon :: c_quote :: v
                              ++ c_quote :: [c_rbrace]))).
  rewrite lexer_plain by done.
  change (lexer LOut (c_colon :: c_quote :: v ++ c_quote :: [c_rbrace]))
    with (emit TColon (lexer (LStr []) (v ++ c_quote :: [c_rbrace]))).
  rewrite lexer_plain by done. reflexivity.
Qed.

Lemma trimStart_nil s : trimStart s = [] -> Forall (λ c, isSpace c = true) s.
Proof.
  induction s as [|c s IH]; simpl; [constructor|].
  destruct (isSpace c) eqn:Hc; [|done]. intros H. constructor; auto.
Qed.

Lemma trim_nil s : trim s = [] -> Forall (λ c, isSpace c = true) s.
Proof.
  unfold trim. intros H.
  assert (trimStart (rev (trimStart s)) = []) as H1.
  { destruct (trimStart (rev (trimStart s))) as [|a l]; [done|].
    simpl in H. by destruct (rev l). }
  apply trimStart_nil, Forall_rev in H1. rewrite rev_involutive in H1.
  destruct (trimStart s) as [|c r] eqn:Hs; [by apply trimStart_nil|].
  clear H. revert Hs. induction s as [|a s IH]; simpl; [done|].
  destruct (isSpace a) eqn:Ha.
  - intros Hs. constructor; [done | by apply IH].
  - intros [= -> ->]. apply Forall_cons in H1 as [Hc _]. congruence.
Qed.

Lemma lastIndexOfBackslashU_None l : forall i,
  Forall (λ c, c ≠ c_backslash) l -> lastIndexOfBackslashU i None l = None.
Proof.
  induction l as [|a l IH]; intros i Hall; simpl; [done|].
  inversion Hall as [|? ? Ha Hall']; subst.
  rewrite (proj2 (N.eqb_neq _ _) Ha). simpl.
  destruct l; by apply IH.
Qed.

Lemma last_Forall {A} (P : A -> Prop) (l : list A) :
  Forall P l -> l ≠ [] -> exists c, last l = Some c /\ P c.
Proof.
  intros Hall Hne. destruct (last l) as [c|] eqn:Hl.
  - exists c. split; [done|]. rewrite Forall_forall in Hall. apply Hall.
    apply last_Some in Hl as [l' ->]. set_solver.
  - by apply last_None in Hl.
Qed.

Lemma cutInString_no_backslash k v :
  Forall plain k -> Forall plain v ->
  Forall (λ c, c ≠ c_backslash) (cutInString k v).
Proof.
  intros Hk Hv. unfold cutInString.
  assert (forall l, Forall plain l -> Forall (λ c, c ≠ c_backslash) l) as Hp.
  { intros l Hl. eapply Forall_impl; [exact Hl|]. by intros c (_ & _ & Hb). }
  repeat (apply Forall_app; split); try (by apply Hp); repeat constructor; done.
Qed.

(** The repair of a buffer that ends inside the first string value of the
    object: the string and the object are closed. *)
Lemma tryBuildTemporaryJson_cutInString (state : State) k v :
  Forall plain k -> Forall plain v ->
  inString state = true -> bracketStack state = [LBrace] ->
  tryBuildTemporaryJson state (cutInString k v) = Some (JObject [(k, JString v)]).
Proof.
  intros Hk Hv Hin Hbs. unfold tryBuildTemporaryJson.
  rewrite bool_decide_eq_false_2 by done.
  rewrite bool_decide_eq_false_2.
  2: { intros H. apply trim_nil in H. by apply Forall_cons in H as [H _]. }
  cbn [orb]. rewrite Hin, Hbs.
  destruct (last_Forall _ _ (cutInString_no_backslash k v Hk Hv)) as (c & -> & Hc);
    [done|].
  rewrite (proj2 (N.eqb_neq _ _) Hc).
  unfold stripIncompleteUnicodeAtEnd.
  rewrite lastIndexOfBackslashU_None by (by apply cutInString_no_backslash).
  rewrite trimTrailingComma_last by done.
  change (closeBrackets [LBrace] (cutInString k v ++ [c_quote]))
    with (trimTrailingComma (cutInString k v ++ [c_quote]) ++ [c_rbrace]).
  rewrite trimTrailingComma_last by done.
  rewrite <- app_assoc.
  by rewrite (JSON_parse_cutInString k v Hk Hv).
Qed.

Lemma run_cutInString name k v :
  Forall plain k -> k ≠ [] -> Forall plain v ->
  processArguments
    (set_arguments (cutInString k v) (set_functionNameOutputted true newState)) name
  = (inValue true false (cutInString k v) (length (cutInString k v)) [LBrace] [k] false,
     [c_nl] ++ onOpenTag k name ++ v).
Proof.
  intros Hk Hne Hv.
  assert (Forall (λ c, c ≠ c_quote /\ c ≠ c_backslash) v) as Hv'.
  { eapply Forall_impl; [exact Hv|]. by intros c (_ & Hq & Hb). }
  remember (cutInString k v) as args eqn:Hdef.
  assert (args = [c_lbrace] ++ ([c_quote] ++ keyText (List.map KChar k) ++ [c_quote]
                                ++ c_colon :: c_quote :: v)) as Hargs.
  { rewrite Hdef. unfold cutInString. by rewrite keyText_plain. }
  clear Hdef.
  assert (drop (1 + length (keyText (List.map KChar k)) + 2) args
          = c_colon :: c_quote :: v) as Hd3.
  { rewrite Hargs.
    rewrite (app_assoc [c_quote]), (app_assoc _ [c_quote]), (app_assoc [c_lbrace]).
    apply drop_app_length'. rewrite !length_app. simpl. lia. }
  apply steps_processArguments.
  2: { unfold halted. simpl. by rewrite lookup_ge_None_2. }
  change (set_arguments args (set_functionNameOutputted true newState))
    with (between true false args 0 EXPECT_ROOT [] [] [] false).
  remember (1 + length (keyText (List.map KChar k)) + 2) as cur eqn:Hcur.
  pose proof (run_root_open name true false args 0 _ false
                ltac:(by rewrite Hargs)) as H1.
  pose proof (run_key name true false args (List.map KChar k) 1
                (c_colon :: c_quote :: v) [LBrace] [] false
                (wfKeyItem_plain k Hk) ltac:(by rewrite Hargs)) as H2.
  rewrite tagOf_plain in H2 by done. rewrite <- Hcur in H2.
  pose proof (run_colon name true false args k cur _ [LBrace] [] false Hne Hd3) as H3.
  rewrite bool_decide_eq_false_2 in H3 by (intros Hf; cbv in Hf; discriminate).
  assert (steps name (between true false args (S cur) EXPECT_VALUE [LBrace] [k] [] false)
            [] (inValue true false args (S (S cur)) [LBrace] [k] false)) as H4.
  { eapply steps_one.
    - simpl. eapply drop_lookup. eapply drop_next1. exact Hd3.
    - unfold step, switchAndAdvance, stepSwitch, between. simpl. unfold_setters.
      reflexivity. }
  pose proof (steps_plain name v
                (inValue true false args (S (S cur)) [LBrace] [k] false) []
                eq_refl eq_refl) as H5.
  simpl in H5. rewrite app_nil_r in H5.
  assert (drop (S (S cur)) args = v) as Hd5.
  { replace (S (S cur)) with (cur + 2) by lia. by rewrite <- drop_drop, Hd3. }
  specialize (H5 Hd5 Hv').
  replace (length args) with (S (S (cur + length v))).
  2: { rewrite Hcur, Hargs, !length_app. simpl. rewrite ?length_app. simpl. lia. }
  exact (steps_trans _ _ _ _ _ _ H1
           (steps_trans _ _ _ _ _ _ H2
              (steps_trans _ _ _ _ _ _ H3 (steps_trans _ _ _ _ _ _ H4 H5)))).
Qed.

Section TemporaryInput.

Variable isToolSupported : jstr -> bool.

(** While a string value is being streamed the result already carries a
    usable input.  For a first delta that brings a recognised name and an
    object cut inside the string value of its first member (key and
    value written without escapes, the key not empty), the chunk opens the
    function tag and the tag of the key and streams the characters received
    so far; the call stays open; and [anthropicContent.input] is the
    object with that one member, its string closed where the stream
    stands. *)
Theorem streaming_string_has_temporary_input (p : Processor) (index : nat)
    (id name k v : jstr) :
  array_get (accumulatedToolCalls p) index = None ->
  isValidToolName isToolSupported name = true ->
  Forall plain k -> k ≠ [] -> Forall plain v ->
  exists p' r,
    processChunkTool isToolSupported p [delta index id name (cutInString k v)]
      (js "openai") = inr (p', r)
    /\ chunkContent r = openFunctionTag name ++ [c_nl] ++ onOpenTag k name ++ v
    /\ toolName r = name
    /\ anthropicContent r
       = Some (mkToolUse (toolUserId r) name (JObject [(k, JString v)]))
    /\ exists st, processingStates p' !! index = Some st
                  /\ functionClosed st = false /\ inString st = true.
Proof.
  intros Hfresh Hvalid Hk Hne Hv.
  pose proof (run_cutInString name k v Hk Hne Hv) as Hrun.
  pose proof (tryBuildTemporaryJson_cutInString
                (inValue true false (cutInString k v) (length (cutInString k v))
                   [LBrace] [k] false) k v Hk Hv eq_refl eq_refl) as Htry.
  assert (0 < length (cutInString k v)) as Hlen by (unfold cutInString; simpl; lia).
  revert Hrun Htry Hlen. generalize (cutInString k v). intros args Hrun Htry Hlen.
  unfold processChunkTool, processChunkOpenAIFormat.
  change (jstr_eqb (js "openai") (js "openai")) with true. cbv iota.
  unfold processDeltas, processDelta, delta. simpl. rewrite Hfresh. simpl.
  rewrite array_get_set_eq, lookup_insert_eq.
  unfold emitDelta, emitArguments, accumulate. simpl. rewrite Hvalid. simpl.
  rewrite bool_decide_eq_true_2 by done.
  rewrite Hrun. unfold closeWhenComplete. simpl. rewrite Hvalid. simpl.
  eexists _, _. split; [reflexivity|].
  unfold resultAnthropicContent, resultToolName. simpl.
  rewrite !array_get_set_eq, lookup_insert_eq. simpl.
  rewrite Hvalid, Htry.
  split; [by rewrite app_nil_r, <- !app_assoc|]. split; [done|]. split; [done|].
  eexists. split; [reflexivity|]. done.
Qed.

End TemporaryInput.

Lemma streaming_string_has_temporary_input_witness :
  cutInString (js "path") (js "src/ma") = jsq "{'path':'src/ma"
  /\ exists p' r,
       processChunkTool testRegistry newProcessor
         [delta 0 (js "1") (js "read_file") (cutInString (js "path") (js "src/ma"))]
         (js "openai") = inr (p', r)
       /\ chunkContent r = xml "<read_file>|<path>src/ma"
       /\ anthropicContent r
          = Some (mkToolUse (Some (js "1")) (js "read_file")
                    (JObject [(js "path", JString (js "src/ma"))])).
Proof.
  split; [vm_compute; reflexivity|].
  destruct (streaming_string_has_temporary_input testRegistry newProcessor 0
              (js "1") (js "read_file") (js "path") (js "src/ma"))
    as (p' & r & Hr & Hc & _ & Ha & _).
  - reflexivity.
  - vm_compute. reflexivity.
  - repeat constructor; (vm_compute; congruence) || discriminate.
  - discriminate.
  - repeat constructor; (vm_compute; congruence) || discriminate.
  - exists p', r. split; [exact Hr|]. split.
    + rewrite Hc. vm_compute. reflexivity.
    + rewrite Ha. f_equal. f_equal.
      vm_compute in Hr. injection Hr as _ <-. reflexivity.
Defined.

(** ** The repairs of [tryBuildTemporaryJson] *)

Lemma lastIndexOfBackslashU_found l : forall i found,
  Forall (λ c, c ≠ c_backslash) l -> lastIndexOfBackslashU i found l = found.
Proof.
  induction l as [|a l IH]; intros i found Hall; simpl; [done|].
  inversion Hall as [|? ? Ha Hall']; subst.
  rewrite (proj2 (N.eqb_neq _ _) Ha). simpl.
  destruct l; by apply IH.
Qed.

Lemma lastIndexOfBackslashU_last pre tail : forall i found,
  Forall (λ c, c ≠ c_backslash) tail ->
  lastIndexOfBackslashU i found (pre ++ c_backslash :: c_u :: tail)
  = Some (i + length pre).
Proof.
  induction pre as [|a pre IH]; intros i found Htail.
  - cbn -[N.eqb]. rewrite !N.eqb_refl. cbn -[N.eqb].
    rewrite Nat.add_0_r.
    destruct tail as [|t tail']; [done|].
    change (c_u =? c_backslash)%N with false. cbn -[N.eqb lastIndexOfBackslashU].
    by apply lastIndexOfBackslashU_found.
  - simpl. rewrite IH by done. f_equal. lia.
Qed.

(** The treatment of a unicode escape at the end of an in-flight string.
    For a buffer whose last [\u] is followed by [tail] (a tail without
    backslash), the buffer is kept when [tail] is exactly four hexadecimal
    digits and cut just before that [\u] in every other case: when the
    escape is incomplete, and also when text follows a complete escape. *)
Theorem unicode_escape_at_end (pre tail : jstr) :
  Forall (λ c, c ≠ c_backslash) tail ->
  stripIncompleteUnicodeAtEnd (pre ++ [c_backslash; c_u] ++ tail)
  = if bool_decide (length tail = 4) && forallb isHex tail
    then pre ++ [c_backslash; c_u] ++ tail
    else pre.
Proof.
  intros Htail. unfold stripIncompleteUnicodeAtEnd.
  change (pre ++ [c_backslash; c_u] ++ tail)
    with (pre ++ c_backslash :: c_u :: tail).
  rewrite lastIndexOfBackslashU_last by done. simpl.
  replace (drop (length pre + 2) (pre ++ c_backslash :: c_u :: tail)) with tail.
  2: { change (pre ++ c_backslash :: c_u :: tail)
         with (pre ++ [c_backslash; c_u] ++ tail).
       rewrite app_assoc. symmetry. apply drop_app_length'.
       rewrite length_app. simpl. lia. }
  destruct (bool_decide (length tail = 4) && forallb isHex tail); simpl; [done|].
  rewrite drop_app_length. by rewrite take_app_length.
Qed.

Lemma unicode_escape_at_end_witness :
  stripIncompleteUnicodeAtEnd (jsq "{'k':'a" ++ [c_backslash; c_u] ++ js "00")
  = jsq "{'k':'a"
  /\ stripIncompleteUnicodeAtEnd (jsq "{'k':'a" ++ [c_backslash; c_u] ++ js "0041bc")
     = jsq "{'k':'a".
Proof.
  split.
  - apply (unicode_escape_at_end (jsq "{'k':'a") (js "00")).
    repeat constructor; discriminate.
  - apply (unicode_escape_at_end (jsq "{'k':'a") (js "0041bc")).
    repeat constructor; discriminate.
Defined.

Lemma trimTrailingComma_comma s ws :
  Forall (λ c, isSpace c = true) ws ->
  trimTrailingComma (s ++ c_comma :: ws) = s ++ ws.
Proof.
  intros Hws. induction s as [|a s IH]; simpl.
  - replace (forallb isSpace ws) with true; [done|].
    symmetry. apply forallb_forall. intros c Hc.
    rewrite Forall_forall in Hws. apply Hws. by apply list_elem_of_In.
  - rewrite forallb_app. simpl. rewrite andb_false_r, andb_false_r. by rewrite IH.
Qed.

Lemma trimTrailingComma_whitespace ws :
  Forall (λ c, isSpace c = true) ws -> trimTrailingComma ws = ws.
Proof.
  induction 1 as [|b ws Hb Hws IH]; simpl; [done|].
  replace (b =? c_comma)%N with false; [by rewrite IH|].
  symmetry. apply N.eqb_neq. intros ->. done.
Qed.

Lemma trimTrailingComma_token s c ws :
  isSpace c = false -> c ≠ c_comma -> Forall (λ c, isSpace c = true) ws ->
  trimTrailingComma (s ++ c :: ws) = s ++ c :: ws.
Proof.
  intros Hs Hc Hws. induction s as [|a s IH]; simpl.
  - rewrite (proj2 (N.eqb_neq c c_comma)) by done. simpl.
    by rewrite trimTrailingComma_whitespace.
  - rewrite IH. rewrite forallb_app. simpl. rewrite Hs.
    by rewrite andb_false_r, andb_false_r.
Qed.

(** The text of an object after its first member, a string, and the comma
    that follows it. *)
Definition cutAfterComma (k v ws : jstr) : jstr :=
  cutInString k v ++ [c_quote] ++ [c_comma] ++ ws.

(** A trailing comma is repaired.  For a buffer that stops after the
    comma that follows the first member of the object (and any
    whitespace), outside a string and with no primitive pending, the
    comma is removed, the object is closed and the temporary input is the
    object with that member. *)
Theorem trailing_comma_is_repaired (state : State) (k v ws : jstr) :
  Forall plain k -> Forall plain v -> Forall (λ c, isJsonWs c = true) ws ->
  inString state = false -> primitiveBuffer state = [] ->
  bracketStack state = [LBrace] ->
  tryBuildTemporaryJson state (cutAfterComma k v ws)
  = Some (JObject [(k, JString v)]).
Proof.
  intros Hk Hv Hws Hin Hpb Hbs.
  assert (Forall (λ c, isSpace c = true) ws) as Hws'.
  { eapply Forall_impl; [exact Hws|]. intros c Hc. unfold isJsonWs in Hc.
    repeat (apply orb_prop in Hc as [Hc|Hc]); apply N.eqb_eq in Hc; by subst c. }
  unfold tryBuildTemporaryJson, cutAfterComma.
  replace (cutInString k v ++ [c_quote] ++ [c_comma] ++ ws)
    with ((cutInString k v ++ [c_quote]) ++ c_comma :: ws)
    by (by rewrite <- app_assoc).
  rewrite bool_decide_eq_false_2 by done.
  rewrite bool_decide_eq_false_2.
  2: { intros H. apply trim_nil in H. unfold cutInString in H. simpl in H.
       by apply Forall_cons in H as [H _]. }
  cbn [orb]. rewrite Hin, Hpb, Hbs. simpl bool_decide. cbv iota.
  rewrite trimTrailingComma_comma by done.
  change (closeBrackets [LBrace] ((cutInString k v ++ [c_quote]) ++ ws))
    with (trimTrailingComma ((cutInString k v ++ [c_quote]) ++ ws) ++ [c_rbrace]).
  replace ((cutInString k v ++ [c_quote]) ++ ws)
    with (cutInString k v ++ c_quote :: ws) by (by rewrite <- app_assoc).
  rewrite trimTrailingComma_token by done.
  replace ((cutInString k v ++ c_quote :: ws) ++ [c_rbrace])
    with (cutInString k v ++ [c_quote] ++ ws ++ [c_rbrace])
    by (by rewrite <- !app_assoc).
  replace (JSON_parse (cutInString k v ++ [c_quote] ++ ws ++ [c_rbrace]))
    with (Some (JObject [(k, JString v)])); [done|].
  symmetry. unfold JSON_parse, cutInString.
  replace (([c_lbrace; c_quote] ++ k ++ [c_quote; c_colon; c_quote] ++ v)
           ++ [c_quote] ++ ws ++ [c_rbrace])
    with (c_lbrace :: c_quote :: k
          ++ c_quote :: c_colon :: c_quote :: v ++ c_quote :: ws ++ [c_rbrace])
    by (simpl; rewrite <- !app_assoc; reflexivity).
  change (lexer LOut (c_lbrace :: c_quote :: k
                      ++ c_quote :: c_colon :: c_quote :: v
                      ++ c_quote :: ws ++ [c_rbrace]))
    with (emit TLBrace
            (lexer (LStr []) (k ++ c_quote :: c_colon :: c_quote :: v
                              ++ c_quote :: ws ++ [c_rbrace]))).
  rewrite lexer_plain by done.
  change (lexer LOut (c_colon :: c_quote :: v ++ c_quote :: ws ++ [c_rbrace]))
    with (emit TColon (lexer (LStr []) (v ++ c_quote :: ws ++ [c_rbrace]))).
  rewrite lexer_plain by done.
  replace (lexer LOut (ws ++ [c_rbrace])) with (Some [TRBrace]); [done|].
  clear -Hws. induction Hws as [|c ws Hc Hws IH]; [done|].
  simpl. unfold lexOut. by rewrite Hc.
Qed.

Lemma trailing_comma_is_repaired_witness :
  cutAfterComma (js "a") (js "x") (js " ") = jsq "{'a':'x', "
  /\ tryBuildTemporaryJson
       (processArguments (set_arguments (jsq "{'a':'x', ") newState)
          (js "read_file")).1
       (cutAfterComma (js "a") (js "x") (js " "))
     = Some (JObject [(js "a", JString (js "x"))]).
Proof.
  split; [vm_compute; reflexivity|].
  apply (trailing_comma_is_repaired
           (processArguments (set_arguments (jsq "{'a':'x', ") newState)
              (js "read_file")).1 (js "a") (js "x") (js " ")).
  - repeat constructor; (vm_compute; congruence) || discriminate.
  - repeat constructor; (vm_compute; congruence) || discriminate.
  - repeat constructor.
  - vm_compute. reflexivity.
  - vm_compute. reflexivity.
  - vm_compute. reflexivity.
Defined.

(** The text of an object up to the colon of its first member. *)
Definition objPrefix (k : jstr) : jstr :=
  [c_lbrace; c_quote] ++ k ++ [c_quote; c_colon].

Lemma JSON_parse_objPrefix k rest :
  Forall plain k ->
  JSON_parse (objPrefix k ++ rest)
  = match lexer LOut rest with
    | Some ts => parseTokens [] PValue (TLBrace :: TString k :: TColon :: ts)
    | None => None
    end.
Proof.
  intros Hk. unfold JSON_parse, objPrefix.
  replace (([c_lbrace; c_quote] ++ k ++ [c_quote; c_colon]) ++ rest)
    with (c_lbrace :: c_quote :: k ++ c_quote :: c_colon :: rest)
    by (simpl; rewrite <- !app_assoc; reflexivity).
  change (lexer LOut (c_lbrace :: c_quote :: k ++ c_quote :: c_colon :: rest))
    with (emit TLBrace (lexer (LStr []) (k ++ c_quote :: c_colon :: rest))).
  rewrite lexer_plain by done.
  change (lexer LOut (c_colon :: rest)) with (emit TColon (lexer LOut rest)).
  by destruct (lexer LOut rest).
Qed.

Lemma trimTrailingComma_ends P L c :
  last L = Some c -> isSpace c = false -> c ≠ c_comma ->
  trimTrailingComma (P ++ L) = P ++ L.
Proof.
  intros Hl Hs Hc. apply last_Some in Hl as [L' ->].
  rewrite app_assoc. by apply trimTrailingComma_last.
Qed.

(** The literal a pending primitive is completed to: only a literal that
    lacks its last letter becomes a value. *)
Definition completedLiteral (pb : jstr) : option JValue :=
  if jstr_eqb pb (js "tru") then Some (JBool true)
  else if jstr_eqb pb (js "fals") then Some (JBool false)
  else if jstr_eqb pb (js "nul") then Some JNull
  else None.

Lemma tryBuildTemporaryJson_literal (state : State) (k pb : jstr) r :
  Forall plain k ->
  inString state = false -> primitiveBuffer state = pb ->
  bracketStack state = [LBrace] ->
  0 < length pb ->
  (exists c, last (pb ++ completePrimitiveSuffix pb) = Some c
             /\ isSpace c = false /\ c ≠ c_comma) ->
  match lexer LOut (pb ++ completePrimitiveSuffix pb ++ [c_rbrace]) with
  | Some ts => parseTokens [] PValue (TLBrace :: TString k :: TColon :: ts)
  | None => None
  end = r ->
  (r = None ->
   lexer LOut (pb ++ completePrimitiveSuffix pb ++ [c_rbrace] ++ js "null") = None) ->
  tryBuildTemporaryJson state (objPrefix k ++ pb) = r.
Proof.
  intros Hk Hin Hpb Hbs Hlen (c & Hlast & Hsp & Hcomma) Hparse Hnull.
  unfold tryBuildTemporaryJson.
  rewrite bool_decide_eq_false_2 by done.
  rewrite bool_decide_eq_false_2.
  2: { intros H. apply trim_nil in H. by apply Forall_cons in H as [H _]. }
  cbn [orb]. rewrite Hin, Hpb, Hbs.
  rewrite bool_decide_eq_true_2 by done.
  rewrite <- app_assoc.
  rewrite (trimTrailingComma_ends _ _ c) by done.
  change (closeBrackets [LBrace] (objPrefix k ++ pb ++ completePrimitiveSuffix pb))
    with (trimTrailingComma (objPrefix k ++ pb ++ completePrimitiveSuffix pb)
          ++ [c_rbrace]).
  rewrite (trimTrailingComma_ends _ _ c) by done.
  rewrite <- !app_assoc.
  rewrite (JSON_parse_objPrefix k _ Hk), Hparse.
  destruct r as [v|]; [done|]. specialize (Hnull eq_refl).
  assert (trimTrailingComma (objPrefix k ++ pb ++ completePrimitiveSuffix pb ++ [c_rbrace])
          = objPrefix k ++ pb ++ completePrimitiveSuffix pb ++ [c_rbrace]) as Htrim.
  { rewrite !app_assoc. apply trimTrailingComma_last; done. }
  replace (JSON_parse _) with (@None JValue).
  - unfold finalFallback. rewrite Htrim. unfold jstr_eqb.
    by rewrite bool_decide_eq_true_2.
  - symmetry. destruct (_ || _).
    + rewrite <- ?app_assoc.
      replace (objPrefix k ++ pb ++ completePrimitiveSuffix pb ++ [c_rbrace]
               ++ js "null")
        with ((objPrefix k ++ pb ++ completePrimitiveSuffix pb ++ [c_rbrace]
               ++ js "nul") ++ [108%N])
        by (rewrite <- !app_assoc; reflexivity).
      rewrite trimTrailingComma_last by done.
      replace ((objPrefix k ++ pb ++ completePrimitiveSuffix pb ++ [c_rbrace]
                ++ js "nul") ++ [108%N])
        with (objPrefix k ++ pb ++ completePrimitiveSuffix pb ++ [c_rbrace]
              ++ js "null")
        by (rewrite <- !app_assoc; reflexivity).
      by rewrite (JSON_parse_objPrefix k _ Hk), Hnull.
    + rewrite Htrim. by rewrite (JSON_parse_objPrefix k _ Hk), Hparse.
Qed.

(** The completion of a literal that is being received as the value of
    the first member of the object.  A literal that lacks its last letter
    ([tru], [fals], [nul]) is completed and the temporary input is the
    object with that member.  For a shorter prefix the one letter that is
    appended does not make a literal, no attempt parses, and there is no
    temporary input. *)
Theorem literal_prefix_completion (state : State) (k pb : jstr) :
  Forall plain k ->
  inString state = false -> primitiveBuffer state = pb ->
  bracketStack state = [LBrace] ->
  pb ∈ [js "t"; js "tr"; js "tru"; js "f"; js "fa"; js "fal"; js "fals";
        js "n"; js "nu"; js "nul"] ->
  tryBuildTemporaryJson state (objPrefix k ++ pb)
  = option_map (λ value, JObject [(k, value)]) (completedLiteral pb).
Proof.
  intros Hk Hin Hpb Hbs Hmem.
  repeat (apply elem_of_cons in Hmem as [->|Hmem]);
    try (by apply elem_of_nil in Hmem);
    (apply tryBuildTemporaryJson_literal;
     [done | done | done | done | simpl; lia
     | eexists; split; [vm_compute; reflexivity | split; [reflexivity | discriminate]]
     | vm_compute; reflexivity
     | intros H; first [vm_compute in H; discriminate H | vm_compute; reflexivity] ]).
Qed.

Lemma literal_prefix_completion_witness :
  tryBuildTemporaryJson
    (processArguments (set_arguments (jsq "{'ok':tru") newState) (js "read_file")).1
    (objPrefix (js "ok") ++ js "tru")
  = Some (JObject [(js "ok", JBool true)])
  /\ tryBuildTemporaryJson
       (processArguments (set_arguments (jsq "{'ok':tr") newState) (js "read_file")).1
       (objPrefix (js "ok") ++ js "tr")
     = None.
Proof.
  split.
  - apply (literal_prefix_completion
             (processArguments (set_arguments (jsq "{'ok':tru") newState)
                (js "read_file")).1 (js "ok") (js "tru")).
    + repeat constructor; (vm_compute; congruence) || discriminate.
    + vm_compute. reflexivity.
    + vm_compute. reflexivity.
    + vm_compute. reflexivity.
    + set_solver.
  - apply (literal_prefix_completion
             (processArguments (set_arguments (jsq "{'ok':tr") newState)
                (js "read_file")).1 (js "ok") (js "tr")).
    + repeat constructor; (vm_compute; congruence) || discriminate.
    + vm_compute. reflexivity.
    + vm_compute. reflexivity.
    + vm_compute. reflexivity.
    + set_solver.
Defined.

(** ** Streams that stop early *)

Lemma run_objPrefix name k rest :
  Forall plain k -> k ≠ [] -> firstNonWhitespace rest ≠ Some c_lbracket ->
  steps name
    (between true false (objPrefix k ++ rest) 0 EXPECT_ROOT [] [] [] false)
    ([c_nl] ++ onOpenTag k name)
    (between true false (objPrefix k ++ rest) (length (objPrefix k)) EXPECT_VALUE
       [LBrace] [k] [] false).
Proof.
  intros Hk Hne Hla.
  remember (objPrefix k ++ rest) as args eqn:Hdef.
  assert (args = [c_lbrace] ++ ([c_quote] ++ keyText (List.map KChar k) ++ [c_quote]
                                ++ c_colon :: rest)) as Hargs.
  { rewrite Hdef. unfold objPrefix. rewrite keyText_plain. simpl.
    by rewrite <- !app_assoc. }
  clear Hdef.
  remember (1 + length (keyText (List.map KChar k)) + 2) as cur eqn:Hcur.
  assert (drop cur args = c_colon :: rest) as Hd3.
  { rewrite Hargs, Hcur.
    rewrite (app_assoc [c_quote]), (app_assoc _ [c_quote]), (app_assoc [c_lbrace]).
    apply drop_app_length'. rewrite !length_app. simpl. lia. }
  pose proof (run_root_open name true false args 0 _ false
                ltac:(by rewrite Hargs)) as H1.
  pose proof (run_key name true false args (List.map KChar k) 1
                (c_colon :: rest) [LBrace] [] false
                (wfKeyItem_plain k Hk) ltac:(by rewrite Hargs)) as H2.
  rewrite tagOf_plain in H2 by done. rewrite <- Hcur in H2.
  pose proof (run_colon name true false args k cur _ [LBrace] [] false Hne Hd3) as H3.
  rewrite bool_decide_eq_false_2 in H3 by done.
  replace (length (objPrefix k)) with (S cur).
  2: { rewrite Hcur. unfold objPrefix. rewrite keyText_plain, !length_app. simpl. lia. }
  exact (steps_trans _ _ _ _ _ _ H1 (steps_trans _ _ _ _ _ _ H2 H3)).
Qed.

Section EarlyStop.

Variable isToolSupported : jstr -> bool.

(** A stream that stops inside a string value is closed by [finalize].
    For a first delta that brings a recognised name and an object cut
    inside the string value of its first member, the chunk opens the two
    tags and streams the text received; [finalize] then writes the closing
    tag of the key and the closing tag of the function, the latter with a
    single line feed. *)
Theorem finalize_closes_truncated_string (p : Processor) (index : nat)
    (id name k v : jstr) :
  array_get (accumulatedToolCalls p) index = None ->
  isValidToolName isToolSupported name = true ->
  Forall plain k -> k ≠ [] -> Forall plain v ->
  exists p',
    processChunk isToolSupported p [delta index id name (cutInString k v)]
      (js "openai")
    = inr (p', openFunctionTag name ++ [c_nl] ++ onOpenTag k name ++ v)
    /\ (finalizeAt isToolSupported p' index).2
       = onCloseTag k name ++ [c_lt; c_slash] ++ name ++ [c_gt; c_nl].
Proof.
  intros Hfresh Hvalid Hk Hne Hv.
  pose proof (run_cutInString name k v Hk Hne Hv) as Hrun.
  assert (0 < length (cutInString k v)) as Hlen by (unfold cutInString; simpl; lia).
  revert Hrun Hlen. generalize (cutInString k v). intros args Hrun Hlen.
  unfold processChunk, processChunkOpenAIFormat.
  change (jstr_eqb (js "openai") (js "openai")) with true. cbv iota.
  unfold processDeltas, processDelta, delta. simpl. rewrite Hfresh. simpl.
  rewrite array_get_set_eq, lookup_insert_eq.
  unfold emitDelta, emitArguments, accumulate. simpl. rewrite Hvalid. simpl.
  rewrite bool_decide_eq_true_2 by done.
  rewrite Hrun. unfold closeWhenComplete. simpl. rewrite Hvalid. simpl.
  eexists. split; [by rewrite app_nil_r, <- !app_assoc|].
  unfold finalizeAt. simpl. rewrite lookup_insert_eq, array_get_set_eq. simpl.
  rewrite Hvalid. simpl.
  rewrite bool_decide_eq_false_2 by lia. simpl.
  by rewrite <- !app_assoc.
Qed.

(** A stream that stops inside a primitive value loses it.  For a first
    delta that brings a recognised name and an object cut after the
    characters [pb] of the primitive value of its first member, the chunk
    opens the function tag and the tag of the key and emits nothing of the
    value, which waits in [primitiveBuffer]; [finalize] then writes the
    two closing tags only: the characters received for the value never
    reach the output. *)
Theorem finalize_drops_pending_primitive (p : Processor) (index : nat)
    (id name k pb : jstr) :
  array_get (accumulatedToolCalls p) index = None ->
  isValidToolName isToolSupported name = true ->
  Forall plain k -> k ≠ [] ->
  Forall (λ c, isPrimitiveChar c = true) pb ->
  exists p',
    processChunk isToolSupported p [delta index id name (objPrefix k ++ pb)]
      (js "openai")
    = inr (p', openFunctionTag name ++ [c_nl] ++ onOpenTag k name)
    /\ (exists st, processingStates p' !! index = Some st
                   /\ primitiveBuffer st = pb)
    /\ (finalizeAt isToolSupported p' index).2
       = onCloseTag k name ++ [c_lt; c_slash] ++ name ++ [c_gt; c_nl].
Proof.
  intros Hfresh Hvalid Hk Hne Hpb.
  assert (firstNonWhitespace pb ≠ Some c_lbracket) as Hla.
  { destruct Hpb as [|c pb Hc Hpb]; [done|]. simpl.
    rewrite (isPrimitiveChar_not_space _ Hc). intros [= ->]. done. }
  pose proof (run_objPrefix name k pb Hk Hne Hla) as H1.
  assert (drop (length (objPrefix k)) (objPrefix k ++ pb) = pb) as Hd
    by apply drop_app_length.
  assert (length (objPrefix k ++ pb) = length (objPrefix k) + length pb) as Hl
    by apply length_app.
  assert (0 < length (objPrefix k ++ pb)) as Hlen
    by (unfold objPrefix; simpl; lia).
  revert H1 Hd Hl Hlen. generalize (length (objPrefix k)).
  generalize (objPrefix k ++ pb). intros args n H1 Hd Hl Hlen.
  pose proof (steps_primitive name pb
                (between true false args n EXPECT_VALUE [LBrace] [k] [] false) []
                eq_refl eq_refl) as H2.
  simpl in H2. rewrite app_nil_r in H2. specialize (H2 Hd Hpb).
  pose proof (steps_trans _ _ _ _ _ _ H1 H2) as Hrun.
  apply steps_processArguments in Hrun.
  2: { unfold halted. simpl. rewrite lookup_ge_None_2; [done|]. lia. }
  unfold processChunk, processChunkOpenAIFormat.
  change (jstr_eqb (js "openai") (js "openai")) with true. cbv iota.
  unfold processDeltas, processDelta, delta. simpl. rewrite Hfresh. simpl.
  rewrite array_get_set_eq, lookup_insert_eq.
  unfold emitDelta, emitArguments, accumulate. simpl. rewrite Hvalid. simpl.
  rewrite bool_decide_eq_true_2 by done.
  change (set_arguments args (set_functionNameOutputted true newState))
    with (between true false args 0 EXPECT_ROOT [] [] [] false).
  rewrite Hrun. unfold closeWhenComplete. simpl. rewrite Hvalid. simpl.
  eexists. split; [by rewrite !app_nil_r, <- !app_assoc|].
  simpl. rewrite lookup_insert_eq. split; [by eexists|].
  unfold finalizeAt. simpl. rewrite lookup_insert_eq, array_get_set_eq. simpl.
  rewrite Hvalid. simpl.
  rewrite bool_decide_eq_false_2 by lia. simpl.
  by rewrite <- !app_assoc.
Qed.

End EarlyStop.

Lemma finalize_closes_truncated_string_witness :
  exists p',
    processChunk testRegistry newProcessor
      [delta 0 (js "1") (js "read_file") (cutInString (js "path") (js "src/ma"))]
      (js "openai")
    = inr (p', xml "<read_file>|<path>src/ma")
    /\ (finalizeAt testRegistry p' 0).2 = xml "</path>|</read_file>|".
Proof.
  destruct (finalize_closes_truncated_string testRegistry newProcessor 0
              (js "1") (js "read_file") (js "path") (js "src/ma"))
    as (p' & Hp & Hf).
  - reflexivity.
  - vm_compute. reflexivity.
  - repeat constructor; (vm_compute; congruence) || discriminate.
  - discriminate.
  - repeat constructor; (vm_compute; congruence) || discriminate.
  - exists p'. split; [rewrite Hp | rewrite Hf]; vm_compute; reflexivity.
Defined.

Lemma finalize_drops_pending_primitive_witness :
  objPrefix (js "limit") ++ js "42" = jsq "{'limit':42"
  /\ exists p',
       processChunk testRegistry newProcessor
         [delta 0 (js "1") (js "read_file") (objPrefix (js "limit") ++ js "42")]
         (js "openai")
       = inr (p', xml "<read_file>|<limit>")
       /\ (finalizeAt testRegistry p' 0).2 = xml "</limit>|</read_file>|".
Proof.
  split; [vm_compute; reflexivity|].
  destruct (finalize_drops_pending_primitive testRegistry newProcessor 0
              (js "1") (js "read_file") (js "limit") (js "42"))
    as (p' & Hp & _ & Hf).
  - reflexivity.
  - vm_compute. reflexivity.
  - repeat constructor; (vm_compute; congruence) || discriminate.
  - discriminate.
  - repeat constructor.
  - exists p'. split; [rewrite Hp | rewrite Hf]; vm_compute; reflexivity.
Defined.

Section UnrecognisedPrimitive.

Variable isToolSupported : jstr -> bool.

(** A primitive the machine does not accept (anything but [true],
    [false], [null] and a number without exponent, for instance [1e5]) is
    discarded when the closing brace arrives, and that brace is ignored
    because a value is still expected: for a first delta that brings a
    recognised name and the object with this one member, the chunk opens
    the function tag and the tag of the key and nothing more; the object
    stays open on the bracket stack and the call is not closed;
    [finalize] then writes the two closing tags around an empty
    element. *)
Theorem unrecognised_primitive_is_discarded (p : Processor) (index : nat)
    (id name k pb : jstr) :
  array_get (accumulatedToolCalls p) index = None ->
  isValidToolName isToolSupported name = true ->
  Forall plain k -> k ≠ [] ->
  Forall (λ c, isPrimitiveChar c = true) pb -> pb ≠ [] ->
  isValidPrimitive pb = false ->
  exists p',
    processChunk isToolSupported p
      [delta index id name (objPrefix k ++ pb ++ [c_rbrace])] (js "openai")
    = inr (p', openFunctionTag name ++ [c_nl] ++ onOpenTag k name)
    /\ (exists st, processingStates p' !! index = Some st
                   /\ functionClosed st = false /\ bracketStack st = [LBrace]
                   /\ primitiveBuffer st = [])
    /\ (finalizeAt isToolSupported p' index).2
       = onCloseTag k name ++ [c_lt; c_slash] ++ name ++ [c_gt; c_nl].
Proof.
  intros Hfresh Hvalid Hk Hne Hpb Hpbne Hinvalid.
  assert (firstNonWhitespace (pb ++ [c_rbrace]) ≠ Some c_lbracket) as Hla.
  { destruct Hpb as [|c pb Hc Hpb]; [done|]. simpl.
    rewrite (isPrimitiveChar_not_space _ Hc). intros [= ->]. done. }
  assert (trim pb = pb) as Htrim.
  { apply trim_id. eapply Forall_impl; [exact Hpb|].
    intros c. apply isPrimitiveChar_not_space. }
  assert (0 < length pb) as Hpblen by (destruct pb; [done | simpl; lia]).
  pose proof (run_objPrefix name k (pb ++ [c_rbrace]) Hk Hne Hla) as H1.
  assert (drop (length (objPrefix k)) (objPrefix k ++ pb ++ [c_rbrace])
          = pb ++ [c_rbrace]) as Hd by apply drop_app_length.
  assert (length (objPrefix k ++ pb ++ [c_rbrace])
          = S (length (objPrefix k) + length pb)) as Hl
    by (rewrite !length_app; simpl; lia).
  revert H1 Hd Hl. generalize (length (objPrefix k)).
  generalize (objPrefix k ++ pb ++ [c_rbrace]). intros args n H1 Hd Hl.
  pose proof (steps_primitive name pb
                (between true false args n EXPECT_VALUE [LBrace] [k] [] false)
                [c_rbrace] eq_refl eq_refl Hd Hpb) as H2.
  simpl in H2.
  assert (steps name
            (set_primitiveBuffer pb
               (set_cursor (n + length pb)
                  (between true false args n EXPECT_VALUE [LBrace] [k] [] false)))
            []
            (between true false args (S (n + length pb)) EXPECT_VALUE [LBrace] [k]
               [] false)) as H3.
  { eapply steps_one.
    - simpl. eapply drop_lookup. rewrite <- drop_drop, Hd.
      by rewrite drop_app_length.
    - unfold step. simpl.
      rewrite bool_decide_eq_true_2 by done. rewrite Htrim, Hinvalid.
      unfold switchAndAdvance, stepSwitch. simpl. reflexivity. }
  pose proof (steps_trans _ _ _ _ _ _ H1 (steps_trans _ _ _ _ _ _ H2 H3)) as Hrun.
  apply steps_processArguments in Hrun.
  2: { unfold halted. simpl. rewrite lookup_ge_None_2; [done|]. lia. }
  assert (0 < length args) as Hlen by lia.
  clear H1 H2 H3 Hd.
  unfold processChunk, processChunkOpenAIFormat.
  change (jstr_eqb (js "openai") (js "openai")) with true. cbv iota.
  unfold processDeltas, processDelta, delta. simpl. rewrite Hfresh. simpl.
  rewrite array_get_set_eq, lookup_insert_eq.
  unfold emitDelta, emitArguments, accumulate. simpl. rewrite Hvalid. simpl.
  rewrite bool_decide_eq_true_2 by done.
  change (set_arguments args (set_functionNameOutputted true newState))
    with (between true false args 0 EXPECT_ROOT [] [] [] false).
  rewrite Hrun. unfold closeWhenComplete. simpl. rewrite Hvalid. simpl.
  eexists. split; [by rewrite !app_nil_r, <- !app_assoc|].
  simpl. rewrite lookup_insert_eq. split; [by eexists|].
  unfold finalizeAt. simpl. rewrite lookup_insert_eq, array_get_set_eq. simpl.
  rewrite Hvalid. simpl.
  rewrite bool_decide_eq_false_2 by lia. simpl.
  by rewrite <- !app_assoc.
Qed.

End UnrecognisedPrimitive.

Lemma unrecognised_primitive_is_discarded_witness :
  objPrefix (js "a") ++ js "1e5" ++ [c_rbrace] = jsq "{'a':1e5}"
  /\ exists p',
       processChunk testRegistry newProcessor
         [delta 0 (js "1") (js "read_file")
            (objPrefix (js "a") ++ js "1e5" ++ [c_rbrace])] (js "openai")
       = inr (p', xml "<read_file>|<a>")
       /\ (finalizeAt testRegistry p' 0).2 = xml "</a>|</read_file>|".
Proof.
  split; [vm_compute; reflexivity|].
  destruct (unrecognised_primitive_is_discarded testRegistry newProcessor 0
              (js "1") (js "read_file") (js "a") (js "1e5"))
    as (p' & Hp & _ & Hf).
  - reflexivity.
  - vm_compute. reflexivity.
  - repeat constructor; (vm_compute; congruence) || discriminate.
  - discriminate.
  - repeat constructor.
  - discriminate.
  - vm_compute. reflexivity.
  - exists p'. split; [rewrite Hp | rewrite Hf]; vm_compute; reflexivity.
Defined.

(** ** Nested objects that stop early *)

(** The text of nested objects, each the value of the first member of the
    one before, up to the colon of the innermost key; the tags the machine
    has opened at that point, one per line and indented by the depth; and
    the two stacks of the machine, on which one brace and one tag are
    pushed per key. *)
Definition nestedPrefix (ks : list jstr) : jstr := concat (List.map objPrefix ks).

Fixpoint nestedOpen (toolName : jstr) (depth : nat) (ks : list jstr) : jstr :=
  match ks with
  | [] => []
  | k :: ks' =>
    [c_nl] ++ getIndent depth ++ onOpenTag k toolName
    ++ nestedOpen toolName (S depth) ks'
  end.

Fixpoint pushBraces (n : nat) (bs : list Bracket) : list Bracket :=
  match n with
  | O => bs
  | S n' => pushBraces n' (LBrace :: bs)
  end.

Lemma countBraces_pushBraces n bs :
  countBraces (pushBraces n bs) = n + countBraces bs.
Proof.
  revert bs. induction n as [|n IH]; intros bs; simpl; [done|].
  rewrite IH, countBraces_brace. lia.
Qed.

Lemma run_nested name args ks : forall cur rest bs tag ts joa,
  Forall (λ k, Forall plain k /\ k ≠ []) ks -> tag ≠ [] ->
  firstNonWhitespace rest ≠ Some c_lbracket ->
  drop cur args = nestedPrefix ks ++ rest ->
  steps name
    (between true false args cur EXPECT_VALUE (LBrace :: bs) (tag :: ts) [] joa)
    (nestedOpen name (S (countBraces bs)) ks)
    (between true false args (cur + length (nestedPrefix ks)) EXPECT_VALUE
       (pushBraces (length ks) (LBrace :: bs)) (rev_append ks (tag :: ts)) []
       (match ks with [] => joa | _ => false end)).
Proof.
  induction ks as [|k ks IH]; intros cur rest bs tag ts joa Hks Htag Hla Hd.
  - simpl. rewrite Nat.add_0_r. constructor.
  - apply Forall_cons in Hks as [[Hk Hkne] Hks].
    unfold nestedPrefix in Hd. simpl in Hd. fold (nestedPrefix ks) in Hd.
    set (R := nestedPrefix ks ++ rest) in *.
    assert (firstNonWhitespace R ≠ Some c_lbracket) as HlaR.
    { subst R. destruct ks as [|k' ks']; [done|]. intros Hf. cbv in Hf. discriminate. }
    assert (drop cur args
            = c_lbrace :: ([c_quote] ++ keyText (List.map KChar k) ++ [c_quote]
                           ++ c_colon :: R)) as Hd1.
    { rewrite Hd. subst R. unfold objPrefix. rewrite keyText_plain. simpl.
      by rewrite <- !app_assoc. }
    pose proof (run_open_brace name true false args cur _ LBrace bs tag ts joa Htag Hd1)
      as H1.
    pose proof (run_key name true false args (List.map KChar k) (S cur)
                  (c_colon :: R) (LBrace :: LBrace :: bs) (tag :: ts) false
                  (wfKeyItem_plain k Hk) (drop_next1 _ _ _ _ Hd1)) as H2.
    rewrite tagOf_plain, keyText_plain in H2 by done.
    assert (drop (S cur + length k + 2) args = c_colon :: R) as Hd3.
    { replace (S cur + length k + 2) with (cur + length ([c_lbrace; c_quote] ++ k ++ [c_quote]))
        by (rewrite !length_app; simpl; lia).
      eapply drop_next. rewrite Hd1, keyText_plain. simpl.
      by rewrite <- !app_assoc. }
    pose proof (run_colon name true false args k _ _ (LBrace :: LBrace :: bs)
                  (tag :: ts) false Hkne Hd3) as H3.
    rewrite bool_decide_eq_false_2 in H3 by done.
    pose proof (IH (S (S cur + length k + 2)) rest (LBrace :: bs) k (tag :: ts) false
                  Hks Hkne Hla (drop_next1 _ _ _ _ Hd3)) as H4.
    replace (cur + length (nestedPrefix (k :: ks)))
      with (S (S cur + length k + 2) + length (nestedPrefix ks)).
    2: { change (nestedPrefix (k :: ks)) with (objPrefix k ++ nestedPrefix ks).
         rewrite length_app. unfold objPrefix. rewrite !length_app. simpl. lia. }
    assert (match ks with [] => false | _ :: _ => false end = false) as Hjoa
      by (by destruct ks).
    rewrite Hjoa in *.
    eapply steps_trans_eq; [exact H1|eapply steps_trans_eq|].
    + exact H2.
    + eapply steps_trans_eq; [exact H3|exact H4|reflexivity].
    + reflexivity.
    + simpl. unfold openingOf, indentAt, onOpenTag, countBraces.
      do 2 (simpl; rewrite <- ?app_assoc). reflexivity.
Qed.

Section NestedEarlyStop.

Variable isToolSupported : jstr -> bool.

(** Nested objects that stop inside the string value of the innermost
    one.  For a first delta that brings a recognised name and such a text
    (keys written without escapes and not empty), the chunk opens the
    function tag and one element per key, each on its own line and
    indented by its depth, and streams the text received; [finalize] then
    closes every one of these elements, the innermost first, each closing
    tag indented at the depth of the innermost object, and closes the
    function tag. *)
Theorem finalize_closes_nested_objects (p : Processor) (index : nat)
    (id name k : jstr) (ks : list jstr) (v : jstr) :
  array_get (accumulatedToolCalls p) index = None ->
  isValidToolName isToolSupported name = true ->
  Forall (λ k, Forall plain k /\ k ≠ []) (k :: ks) -> Forall plain v ->
  exists p',
    processChunk isToolSupported p
      [delta index id name (nestedPrefix (k :: ks) ++ [c_quote] ++ v)] (js "openai")
    = inr (p', openFunctionTag name ++ nestedOpen name 0 (k :: ks) ++ v)
    /\ (finalizeAt isToolSupported p' index).2
       = concat (List.map (λ tag, getIndent (length ks) ++ onCloseTag tag name)
                   (rev (k :: ks)))
         ++ [c_lt; c_slash] ++ name ++ [c_gt; c_nl].
Proof.
  intros Hfresh Hvalid Hks Hv.
  apply Forall_cons in Hks as [[Hk Hkne] Hks].
  assert (Forall (λ c, c ≠ c_quote /\ c ≠ c_backslash) v) as Hv'.
  { eapply Forall_impl; [exact Hv|]. by intros c (_ & Hq & Hb). }
  assert (firstNonWhitespace (c_quote :: v) ≠ Some c_lbracket) as Hla
    by (intros Hf; cbv in Hf; discriminate).
  assert (firstNonWhitespace (nestedPrefix ks ++ c_quote :: v) ≠ Some c_lbracket)
    as Hla1.
  { destruct ks as [|k' ks']; [done|]. intros Hf. cbv in Hf. discriminate. }
  pose proof (run_objPrefix name k (nestedPrefix ks ++ c_quote :: v) Hk Hkne Hla1) as H1.
  assert (drop (length (objPrefix k)) (objPrefix k ++ nestedPrefix ks ++ c_quote :: v)
          = nestedPrefix ks ++ c_quote :: v) as Hd by apply drop_app_length.
  assert (length (objPrefix k ++ nestedPrefix ks ++ c_quote :: v)
          = S (length (objPrefix k) + length (nestedPrefix ks) + length v)) as Hl
    by (rewrite !length_app; simpl; lia).
  assert (nestedPrefix (k :: ks) ++ [c_quote] ++ v
          = objPrefix k ++ nestedPrefix ks ++ c_quote :: v) as ->.
  { change (nestedPrefix (k :: ks)) with (objPrefix k ++ nestedPrefix ks).
    by rewrite <- app_assoc. }
  revert H1 Hd Hl. generalize (length (objPrefix k)).
  generalize (objPrefix k ++ nestedPrefix ks ++ c_quote :: v).
  intros args n H1 Hd Hl.
  pose proof (run_nested name args ks n (c_quote :: v) [] k [] false Hks Hkne Hla Hd)
    as H2.
  replace (match ks with [] => false | _ :: _ => false end) with false in H2
    by (by destruct ks).
  assert (drop (n + length (nestedPrefix ks)) args = c_quote :: v) as Hd3.
  { rewrite <- drop_drop, Hd. apply drop_app_length. }
  assert (countBraces (pushBraces (length ks) [LBrace]) = S (length ks)) as Hcount.
  { rewrite countBraces_pushBraces, countBraces_brace.
    change (countBraces []) with 0. lia. }
  assert (head (pushBraces (length ks) [LBrace]) = Some LBrace) as Hhead.
  { generalize (length ks). intros m.
    assert (forall l, head l = Some LBrace -> head (pushBraces m l) = Some LBrace) as Hp.
    { induction m as [|m IH]; intros l Hl'; simpl; [done|]. by apply IH. }
    by apply Hp. }
  revert H2 Hcount Hhead. generalize (pushBraces (length ks) [LBrace]).
  intros bs H2 Hcount Hhead.
  assert (steps name
            (between true false args (n + length (nestedPrefix ks)) EXPECT_VALUE bs
               (rev_append ks [k]) [] false)
            [] (inValue true false args (S (n + length (nestedPrefix ks))) bs
                  (rev_append ks [k]) false)) as H3.
  { eapply steps_one.
    - simpl. eapply drop_lookup. exact Hd3.
    - unfold step, switchAndAdvance, stepSwitch, between. simpl. rewrite Hhead.
      unfold_setters. reflexivity. }
  pose proof (steps_plain name v
                (inValue true false args (S (n + length (nestedPrefix ks))) bs
                   (rev_append ks [k]) false) [] eq_refl eq_refl) as H4.
  simpl in H4. rewrite app_nil_r in H4.
  specialize (H4 (drop_next1 _ _ _ _ Hd3) Hv').
  pose proof (steps_trans _ _ _ _ _ _ H1
                (steps_trans _ _ _ _ _ _ H2 (steps_trans _ _ _ _ _ _ H3 H4))) as Hrun.
  apply steps_processArguments in Hrun.
  2: { unfold halted. simpl. rewrite lookup_ge_None_2; [done|]. lia. }
  assert (0 < length args) as Hlen by lia.
  clear H1 H2 H3 H4 Hd Hd3.
  unfold processChunk, processChunkOpenAIFormat.
  change (jstr_eqb (js "openai") (js "openai")) with true. cbv iota.
  unfold processDeltas, processDelta, delta. simpl. rewrite Hfresh. simpl.
  rewrite array_get_set_eq, lookup_insert_eq.
  unfold emitDelta, emitArguments, accumulate. simpl. rewrite Hvalid. simpl.
  rewrite bool_decide_eq_true_2 by done.
  change (set_arguments args (set_functionNameOutputted true newState))
    with (between true false args 0 EXPECT_ROOT [] [] [] false).
  rewrite Hrun. unfold closeWhenComplete. simpl. rewrite Hvalid. simpl.
  rewrite bool_decide_eq_false_2 by (destruct bs; [done | simpl; lia]). simpl.
  eexists. split; [by rewrite !app_nil_r, <- !app_assoc|].
  unfold finalizeAt. simpl. rewrite lookup_insert_eq, array_get_set_eq. simpl.
  rewrite Hvalid. simpl.
  rewrite bool_decide_eq_false_2 by lia. simpl.
  unfold closeRemainingTags, xmlLevel. simpl. rewrite Hcount, rev_append_rev. simpl.
  by rewrite Nat.sub_0_r.
Qed.

End NestedEarlyStop.

Lemma finalize_closes_nested_objects_witness :
  nestedPrefix [js "a"; js "b"; js "c"] ++ [c_quote] ++ js "x"
  = jsq "{'a':{'b':{'c':'x"
  /\ exists p',
       processChunk testRegistry newProcessor
         [delta 0 (js "1") (js "read_file")
            (nestedPrefix [js "a"; js "b"; js "c"] ++ [c_quote] ++ js "x")]
         (js "openai")
       = inr (p', xml "<read_file>|<a>|~<b>|~~<c>x")
       /\ (finalizeAt testRegistry p' 0).2
          = xml "~~</c>|~~</b>|~~</a>|</read_file>|".
Proof.
  split; [vm_compute; reflexivity|].
  destruct (finalize_closes_nested_objects testRegistry newProcessor 0
              (js "1") (js "read_file") (js "a") [js "b"; js "c"] (js "x"))
    as (p' & Hp & Hf).
  - reflexivity.
  - vm_compute. reflexivity.
  - repeat constructor; (vm_compute; congruence) || discriminate.
  - repeat constructor; (vm_compute; congruence) || discriminate.
  - exists p'. split; [rewrite Hp | rewrite Hf]; vm_compute; reflexivity.
Defined.
